(** * holodeck: binary evolution and gravitational-wave synthesis

    A shallow embedding of the parts of [holodeck/evolution.py],
    [holodeck/gravwaves.py] and [holodeck/utils.py] that integrate binary
    tracks, interpolate them and synthesise the gravitational-wave signal.

    Conventions of the embedding.
    - A float64 is a real number: arithmetic is exact and every stored value
      is finite.  The one non-finite value the code produces on purpose, the
      [np.nan] that [Evolution.at] writes into invalid slots, is [None] in an
      [option R].
    - An [(N, S)] array is a list of [N] rows of length [S] (one row per
      binary); the [(N, S, 2)] mass arrays hold pairs.
    - Raising is a result in the error monad [M].
    - Code outside the repository (numpy, scipy, kalepy, the cosmology
      service, the hardening and accretion models) is either written out from
      its documented behaviour (numpy) or taken as a parameter. *)

From Stdlib Require Import Reals Lra Lia List Bool Arith.
From Stdlib Require String.
From Stdlib Require Import Sorting.Sorted Sorting.Permutation.
Import ListNotations.
Open Scope R_scope.

(** ** Comparisons of floats, as booleans *)

Definition Rltb (x y : R) : bool := if Rlt_dec x y then true else false.
Definition Rleb (x y : R) : bool := if Rle_dec x y then true else false.
Definition Reqb (x y : R) : bool := if Req_dec_T x y then true else false.

Arguments Rltb : simpl never.
Arguments Rleb : simpl never.
Arguments Reqb : simpl never.

(** [np.isfinite]: every real is finite. *)
Definition isfinite (_ : R) : bool := true.

(** The two values of [xpar] that [Evolution.at] accepts. *)
Module XPar.
Import String.
Definition sepa : string := "sepa"%string.
Definition fobs : string := "fobs"%string.
End XPar.

(** ** Exceptions and the error monad *)

Inductive exn : Type :=
| ValueError
| RuntimeError
| IndexError
| TypeError
| UnboundLocalError.

Definition M (A : Type) : Type := (exn + A)%type.

Definition ret {A} (a : A) : M A := inr a.
Definition raise {A} (e : exn) : M A := inl e.
Definition bind {A B} (m : M A) (k : A -> M B) : M B :=
  match m with
  | inl e => inl e
  | inr a => k a
  end.

Notation "x <- m ;; k" := (bind m (fun x => k))
  (at level 61, m at next level, right associativity).
Notation "' p <- m ;; k" := (bind m (fun x => let p := x in k))
  (at level 61, p pattern, m at next level, right associativity).

(** ** numpy *)

Module Np.

(** [10.0 ** x] and [np.log10]. *)
Definition pow10 (x : R) : R := Rpower 10 x.
Definition log10 (x : R) : R := ln x / ln 10.

(** [np.clip(x, lo, hi)] is [minimum(maximum(x, lo), hi)]. *)
Definition clip (x lo hi : R) : R := Rmin (Rmax x lo) hi.

(** [np.zeros(n)] and [np.zeros((n, s))]. *)
Definition zeros (n : nat) : list R := repeat 0 n.
Definition zeros2 {A} (z : A) (n s : nat) : list (list A) := repeat (repeat z s) n.

(** [row[c] = v]; the code only writes inside the array. *)
Fixpoint upd {A} (c : nat) (v : A) (row : list A) : list A :=
  match row, c with
  | [], _ => []
  | _ :: row', O => v :: row'
  | x :: row', S c' => x :: upd c' v row'
  end.

(** [arr[:, c] = vals]: one value per row. *)
Fixpoint set_col {A} (c : nat) (vals : list A) (arr : list (list A)) : list (list A) :=
  match arr, vals with
  | row :: arr', v :: vals' => upd c v row :: set_col c vals' arr'
  | _, _ => arr
  end.

(** [arr[:, c]]. *)
Definition col {A} (d : A) (c : nat) (arr : list (list A)) : list A :=
  map (fun row => nth c row d) arr.

(** [a[:] += b]. *)
Fixpoint vadd (a b : list R) : list R :=
  match a, b with
  | x :: a', y :: b' => (x + y) :: vadd a' b'
  | _, _ => a
  end.

(** Element-wise binary operation of two [(N,)] arrays. *)
Fixpoint map2 {A B C} (f : A -> B -> C) (a : list A) (b : list B) : list C :=
  match a, b with
  | x :: a', y :: b' => f x y :: map2 f a' b'
  | _, _ => []
  end.

Definition sum (l : list R) : R := fold_right Rplus 0 l.

(** [np.linspace(start, stop, num)] with the default [endpoint=True]:
    [arange(0, num) * step + start] with [step = (stop - start) / (num - 1)],
    the last sample overwritten by [stop] when [num > 1]; a single sample
    is [start]. *)
Definition linspace (start stop : R) (num : nat) : list R :=
  match num with
  | O => []
  | S O => [start]
  | S (S _ as div) =>
      let step := (stop - start) / INR div in
      map (fun k => INR k * step + start) (seq 0 div) ++ [stop]
  end.

(** [np.logspace(start, stop, num)] is [10 ** linspace(start, stop, num)]. *)
Definition logspace (start stop : R) (num : nat) : list R :=
  map pow10 (linspace start stop num).

(** [np.min] and [np.max]; an empty array has no minimum. *)
Definition amin (l : list R) : M R :=
  match l with
  | [] => raise ValueError
  | x :: l' => ret (fold_left Rmin l' x)
  end.
Definition amax (l : list R) : M R :=
  match l with
  | [] => raise ValueError
  | x :: l' => ret (fold_left Rmax l' x)
  end.

(** [np.argmax] of a boolean row: the index of the first [True], and 0
    when there is none. *)
Fixpoint first_true (l : list bool) : option nat :=
  match l with
  | [] => None
  | true :: _ => Some O
  | false :: l' => option_map S (first_true l')
  end.
Definition argmax (l : list bool) : nat :=
  match first_true l with
  | Some k => k
  | None => O
  end.

(** [np.sort], ascending. *)
Fixpoint insert (x : R) (l : list R) : list R :=
  match l with
  | [] => [x]
  | y :: l' => if Rleb x y then x :: l else y :: insert x l'
  end.
Definition sort (l : list R) : list R := fold_right insert [] l.

End Np.

(** ** holodeck.constants

    The physical constants are not among the sources; they are parameters. *)

Class Constants : Type := {
  SCHW : R;   (* Schwarzschild constant, 2G/c^2 *)
  NWTG : R;   (* Newton's constant *)
  SPLC : R;   (* speed of light *)
  GYR : R     (* a gigayear, in seconds *)
}.

(** ** holodeck.utils *)

Module Utils.
Section Utils.

Context {consts : Constants}.

Definition schwarzschild_radius (mass : R) : R := SCHW * mass.

(** [rad_isco(m1, m2, factor=3.0)]. *)
Definition rad_isco_factor (m1 m2 factor : R) : R :=
  factor * schwarzschild_radius (m1 + m2).
Definition rad_isco (m1 m2 : R) : R := rad_isco_factor m1 m2 3.

Definition a_to_z (scfa : R) : R := (1 / scfa) - 1.
Definition z_to_a (redz : R) : R := 1 / (redz + 1).

(** [minmax(vals)]. *)
Definition minmax (vals : list R) : M (R * R) :=
  lo <- Np.amin vals ;;
  hi <- Np.amax vals ;;
  ret (lo, hi).

(** [_GW_SRC_CONST]. *)
Definition _GW_SRC_CONST : R :=
  8 * Rpower NWTG (5/3) * Rpower PI (2/3) / sqrt 10 / Rpower SPLC 4.

(** [chirp_mass(m1, m2)]. *)
Definition chirp_mass (m1 m2 : R) : R :=
  Rpower (m1 * m2) (3/5) / Rpower (m1 + m2) (1/5).

(** [dfdt_from_dadt(dadt, sepa, freq_orb=freq_orb)]. *)
Definition dfdt_from_dadt (dadt sepa freq_orb : R) : R :=
  let dfda := - (3/2) * (freq_orb / sepa) in
  dfda * dadt.

(** [gw_strain_source(mchirp, dlum, freq_orb_rest)]. *)
Definition gw_strain_source (mchirp dlum freq_orb_rest : R) : R :=
  _GW_SRC_CONST * mchirp * Rpower (2 * mchirp * freq_orb_rest) (2/3) / dlum.

(** [scipy.special.jn], the Bessel function of the first kind. *)
Variable bessel : Z -> R -> R.

(** [gw_freq_dist_func(nn, ee)], the function g(n, e). *)
Definition gw_freq_dist_func (nn : Z) (ee : R) : R :=
  let n := IZR nn in
  let ne := n * ee in
  let n2 := n * n in
  let jn_m2 := bessel (nn - 2) ne in
  let jn_m1 := bessel (nn - 1) ne in
  let jn := (2 * (n - 1) / ne) * jn_m1 - jn_m2 in
  let jn_p1 := (2 * n / ne) * jn - jn_m1 in
  let jn_p2 := (2 * (n + 1) / ne) * jn_p1 - jn in
  let aa := Rsqr (jn_m2 - 2 * ee * jn_m1 + (2 / n) * jn + 2 * ee * jn_p1 - jn_p2) in
  let bb := (1 - ee * ee) * Rsqr (jn_m2 - 2 * ee * jn + jn_p2) in
  let cc := (4 / (3 * n2)) * Rsqr jn in
  (n2 * n2 / 32) * (aa + bb + cc).

End Utils.
End Utils.

(** ** holodeck.utils: masses, orbits and gravitational-wave rates

    [np.power(x, y)] is [Rpower x y], which is what numpy computes for a
    positive base; [x**2] and [np.square] are products. *)

Module Utils2.
Section Utils2.

Context {consts : Constants}.

(** [_GW_DADT_SEP_CONST], [_GW_DEDT_ECC_CONST] and [_GW_LUM_CONST]. *)
Definition _GW_DADT_SEP_CONST : R := - 64 * Rpower NWTG 3 / 5 / Rpower SPLC 5.
Definition _GW_DEDT_ECC_CONST : R := - 304 * Rpower NWTG 3 / 15 / Rpower SPLC 5.
Definition _GW_LUM_CONST : R := (32 / 5) * Rpower NWTG (7 / 3) * Rpower SPLC (- 5).

(** [mtmr_from_m1m2(m1, m2)]: total mass and mass ratio. *)
Definition mtmr_from_m1m2 (m1 m2 : R) : R * R :=
  let mtot := m1 + m2 in
  let mrat := Rmin m1 m2 / Rmax m1 m2 in
  (mtot, mrat).

(** [m1m2_from_mtmr(mt, mr)]. *)
Definition m1m2_from_mtmr (mt mr : R) : R * R :=
  let m1 := mt / (1 + mr) in
  let m2 := mt - m1 in
  (m1, m2).

(** [kepler_freq_from_sep(mass, sep)] and [kepler_sep_from_freq(mass, freq)]. *)
Definition kepler_freq_from_sep (mass sep : R) : R :=
  (1 / (2 * PI)) * sqrt (NWTG * mass) / Rpower sep (3 / 2).

Definition kepler_sep_from_freq (mass freq : R) : R :=
  Rpower (NWTG * mass / Rsqr (2 * PI * freq)) (1 / 3).

(** [dfdt_from_dadt(dadt, sepa, mtot=None, freq_orb=None)]. *)
Definition dfdt_from_dadt (dadt sepa : R) (mtot freq_orb : option R) : M R :=
  freq_orb <-
    match freq_orb, mtot with
    | None, None => raise ValueError
    | None, Some m => ret (kepler_freq_from_sep m sepa)
    | Some f, _ => ret f
    end ;;
  let dfda := - (3 / 2) * (freq_orb / sepa) in
  ret (dfda * dadt).

(** [gw_char_strain(hs, dur_obs, freq_orb_obs, freq_orb_rst, dfdt)];
    [np.clip(x, None, hi)] is [minimum(x, hi)]. *)
Definition gw_char_strain (hs dur_obs freq_orb_obs freq_orb_rst dfdt : R) : R :=
  let ncycles := freq_orb_rst ^ 2 / dfdt in
  let ncycles := Rmin ncycles (dur_obs * freq_orb_obs) in
  hs * sqrt ncycles.

(** [gw_dedt(m1, m2, sepa, eccen)]. *)
Definition gw_dedt (m1 m2 sepa eccen : R) : R :=
  let cc := _GW_DEDT_ECC_CONST in
  let e2 := eccen ^ 2 in
  let dedt := cc * m1 * m2 * (m1 + m2) / Rpower sepa 4 in
  dedt * ((1 + e2 * 121 / 304) * eccen / Rpower (1 - e2) (5 / 2)).

(** [gw_dade(m1, m2, sepa, eccen)]. *)
Definition gw_dade (m1 m2 sepa eccen : R) : R :=
  let e2 := eccen ^ 2 in
  let num := 1 + (73 / 24) * e2 + (37 / 96) * e2 * e2 in
  let den := (1 - e2) * (1 + (121 / 304) * e2) in
  (12 / 19) * (sepa / eccen) * (num / den).

(** [_gw_ecc_func(eccen)], the function F(e). *)
Definition _gw_ecc_func (eccen : R) : R :=
  let e2 := eccen * eccen in
  let num := 1 + (73 / 24) * e2 + (37 / 96) * e2 * e2 in
  let den := Rpower (1 - e2) (7 / 2) in
  num / den.

(** [gw_hardening_rate_dadt(m1, m2, sepa, eccen=None)]. *)
Definition gw_hardening_rate_dadt (m1 m2 sepa : R) (eccen : option R) : R :=
  let cc := _GW_DADT_SEP_CONST in
  let dadt := cc * m1 * m2 * (m1 + m2) / Rpower sepa 3 in
  match eccen with
  | Some e => dadt * _gw_ecc_func e
  | None => dadt
  end.

(** [gw_hardening_rate_dfdt(m1, m2, freq, eccen=None)]. *)
Definition gw_hardening_rate_dfdt (m1 m2 freq : R) (eccen : option R) : M R :=
  let sepa := kepler_sep_from_freq (m1 + m2) freq in
  let dfdt := gw_hardening_rate_dadt m1 m2 sepa eccen in
  dfdt_from_dadt dfdt sepa (Some (m1 + m2)) None.

(** [gw_lum_circ(mchirp, freq_orb_rest)]. *)
Definition gw_lum_circ (mchirp freq_orb_rest : R) : R :=
  _GW_LUM_CONST * Rpower (2 * PI * freq_orb_rest * mchirp) (10 / 3).

(** [sep_to_merge_in_time(m1, m2, time)] and
    [time_to_merge_at_sep(m1, m2, sep)]. *)
Definition sep_to_merge_in_time (m1 m2 time : R) : R :=
  let GW_CONST := 64 * Rpower NWTG 3 / (5 * Rpower SPLC 5) in
  let a1 := Utils.rad_isco m1 m2 in
  Rpower (GW_CONST * m1 * m2 * (m1 + m2) * time - Rpower a1 4) (1 / 4).

Definition time_to_merge_at_sep (m1 m2 sep : R) : R :=
  let GW_CONST := 64 * Rpower NWTG 3 / (5 * Rpower SPLC 5) in
  let a1 := Utils.rad_isco m1 m2 in
  let delta_sep := Rpower sep 4 - Rpower a1 4 in
  delta_sep / (GW_CONST * m1 * m2 * (m1 + m2)).

End Utils2.
End Utils2.

(** ** Random draws

    The draws of [np.random] and the kernel-density resampler of [kalepy]
    are events of a program: a computation is a tree that ends in a value or
    asks for a draw and goes on with its outcome. *)

Module Rand.

Inductive Rnd (A : Type) : Type :=
| Done (a : A)
(** [np.random.poisson(lam)]: one count with mean [lam]. *)
| Poisson (lam : R) (k : nat -> Rnd A)
(** [np.random.poisson(lam, (nreals, lam.size)).T]: for every entry of
    [lam] a row of [nreals] counts with that mean. *)
| PoissonArray (lam : list R) (nreals : nat) (k : list (list nat) -> Rnd A)
(** [kale.resample(vals, size, reflect, weights, bw_rescale)]: [size]
    new points from the weighted point cloud [vals]. *)
| KaleResample (vals : list (list R)) (size : nat)
    (reflect : list (option (option R * option R)))
    (weights : list R) (bw_rescale : R) (k : list (list R) -> Rnd A).

Arguments Done {A} a.
Arguments Poisson {A} lam k.
Arguments PoissonArray {A} lam nreals k.
Arguments KaleResample {A} vals size reflect weights bw_rescale k.

End Rand.

(** ** holodeck.evolution: the fixed-step integrator [Evolution] *)

Module Evo.

(** [_MAX_ECCEN_ONE_MINUS]. *)
Definition _MAX_ECCEN_ONE_MINUS : R := 1 / 1000000.

(** The initial binary population, [population._Population_Discrete]. *)
Record Population : Type := {
  p_size : nat;
  p_mass : list (R * R);
  p_sepa : list R;
  p_scafa : list R;
  p_eccen : option (list R);
  p_sample_volume : R
}.

(** The attributes of an [Evolution] instance.  The hardening models, the
    accretion model and the modifiers are kept apart, in [Config], because
    they take the instance as an argument. *)
Record Evolution : Type := {
  _pop : Population;
  _debug : bool;
  _nsteps : nat;
  _sample_volume : R;
  _shape : nat * nat;
  scafa : list (list R);
  tlook : list (list R);
  sepa : list (list R);
  mass : list (list (R * R));
  mdot : list (list (R * R));
  dadt : list (list R);
  eccen : option (list (list R));
  dedt : option (list (list R));
  _evolved : bool
}.

(** [_Hardening.dadt_dedt(evo, step)]: the rates of every binary. *)
Record Hardening : Type := {
  dadt_dedt : Evolution -> nat -> list R * option (list R)
}.

(** The accretion model [acc]. *)
Record Accretion : Type := {
  mdot_total : Evolution -> nat -> list R;
  pref_acc : list R -> Evolution -> nat -> list (R * R);
  evol_mass : bool
}.

(** A [utils._Modifier]: called on the instance, which it may change. *)
Definition Modifier : Type := Evolution -> M Evolution.

Record Config : Type := {
  _hard : list Hardening;
  _acc : option Accretion;
  _mods : option (list Modifier)
}.

(** The cosmology service [holodeck.cosmo]. *)
Class Cosmology : Type := {
  cosmo_a_to_z : R -> R;
  cosmo_z_to_a : R -> R;
  cosmo_z_to_tlbk : R -> R;
  cosmo_tlbk_to_z : R -> R
}.

(** Functions of [holodeck.utils] that the integrator calls and that are
    not among the sources.  [trapz_loglog] and [trapz] are applied to one
    step of one binary: two ordinates and two abscissae. *)
Class Quadrature : Type := {
  trapz_loglog : R * R -> R * R -> R;
  trapz : R * R -> R * R -> R;
  kepler_freq_from_sepa : R -> R -> R
}.

(** Record updates, one per attribute that the code assigns. *)
Definition with_scafa (v : list (list R)) (ev : Evolution) : Evolution :=
  {| _pop := _pop ev; _debug := _debug ev; _nsteps := _nsteps ev;
     _sample_volume := _sample_volume ev; _shape := _shape ev;
     scafa := v; tlook := tlook ev; sepa := sepa ev; mass := mass ev;
     mdot := mdot ev; dadt := dadt ev; eccen := eccen ev; dedt := dedt ev;
     _evolved := _evolved ev |}.
Definition with_tlook (v : list (list R)) (ev : Evolution) : Evolution :=
  {| _pop := _pop ev; _debug := _debug ev; _nsteps := _nsteps ev;
     _sample_volume := _sample_volume ev; _shape := _shape ev;
     scafa := scafa ev; tlook := v; sepa := sepa ev; mass := mass ev;
     mdot := mdot ev; dadt := dadt ev; eccen := eccen ev; dedt := dedt ev;
     _evolved := _evolved ev |}.
Definition with_sepa (v : list (list R)) (ev : Evolution) : Evolution :=
  {| _pop := _pop ev; _debug := _debug ev; _nsteps := _nsteps ev;
     _sample_volume := _sample_volume ev; _shape := _shape ev;
     scafa := scafa ev; tlook := tlook ev; sepa := v; mass := mass ev;
     mdot := mdot ev; dadt := dadt ev; eccen := eccen ev; dedt := dedt ev;
     _evolved := _evolved ev |}.
Definition with_mass (v : list (list (R * R))) (ev : Evolution) : Evolution :=
  {| _pop := _pop ev; _debug := _debug ev; _nsteps := _nsteps ev;
     _sample_volume := _sample_volume ev; _shape := _shape ev;
     scafa := scafa ev; tlook := tlook ev; sepa := sepa ev; mass := v;
     mdot := mdot ev; dadt := dadt ev; eccen := eccen ev; dedt := dedt ev;
     _evolved := _evolved ev |}.
Definition with_mdot (v : list (list (R * R))) (ev : Evolution) : Evolution :=
  {| _pop := _pop ev; _debug := _debug ev; _nsteps := _nsteps ev;
     _sample_volume := _sample_volume ev; _shape := _shape ev;
     scafa := scafa ev; tlook := tlook ev; sepa := sepa ev; mass := mass ev;
     mdot := v; dadt := dadt ev; eccen := eccen ev; dedt := dedt ev;
     _evolved := _evolved ev |}.
Definition with_dadt (v : list (list R)) (ev : Evolution) : Evolution :=
  {| _pop := _pop ev; _debug := _debug ev; _nsteps := _nsteps ev;
     _sample_volume := _sample_volume ev; _shape := _shape ev;
     scafa := scafa ev; tlook := tlook ev; sepa := sepa ev; mass := mass ev;
     mdot := mdot ev; dadt := v; eccen := eccen ev; dedt := dedt ev;
     _evolved := _evolved ev |}.
Definition with_eccen (v : option (list (list R))) (ev : Evolution) : Evolution :=
  {| _pop := _pop ev; _debug := _debug ev; _nsteps := _nsteps ev;
     _sample_volume := _sample_volume ev; _shape := _shape ev;
     scafa := scafa ev; tlook := tlook ev; sepa := sepa ev; mass := mass ev;
     mdot := mdot ev; dadt := dadt ev; eccen := v; dedt := dedt ev;
     _evolved := _evolved ev |}.
Definition with_dedt (v : option (list (list R))) (ev : Evolution) : Evolution :=
  {| _pop := _pop ev; _debug := _debug ev; _nsteps := _nsteps ev;
     _sample_volume := _sample_volume ev; _shape := _shape ev;
     scafa := scafa ev; tlook := tlook ev; sepa := sepa ev; mass := mass ev;
     mdot := mdot ev; dadt := dadt ev; eccen := eccen ev; dedt := v;
     _evolved := _evolved ev |}.
Definition with_evolved (v : bool) (ev : Evolution) : Evolution :=
  {| _pop := _pop ev; _debug := _debug ev; _nsteps := _nsteps ev;
     _sample_volume := _sample_volume ev; _shape := _shape ev;
     scafa := scafa ev; tlook := tlook ev; sepa := sepa ev; mass := mass ev;
     mdot := mdot ev; dadt := dadt ev; eccen := eccen ev; dedt := dedt ev;
     _evolved := v |}.

(** [Evolution.__init__(pop, hard, nsteps, mods, debug, acc)].  The two
    [isinstance] tests hold by typing. *)
Definition __init__ (pop : Population) (nsteps : nat) (debug : bool) : Evolution :=
  let size := p_size pop in
  {| _pop := pop; _debug := debug; _nsteps := nsteps;
     _sample_volume := p_sample_volume pop;
     _shape := (size, nsteps);
     scafa := Np.zeros2 0 size nsteps;
     tlook := Np.zeros2 0 size nsteps;
     sepa := Np.zeros2 0 size nsteps;
     mass := Np.zeros2 (0, 0) size nsteps;
     mdot := Np.zeros2 (0, 0) size nsteps;
     dadt := Np.zeros2 0 size nsteps;
     eccen := match p_eccen pop with
              | Some _ => Some (Np.zeros2 0 size nsteps)
              | None => None
              end;
     dedt := match p_eccen pop with
             | Some _ => Some (Np.zeros2 0 size nsteps)
             | None => None
             end;
     _evolved := false |}.

Section Integrator.

Context {consts : Constants} {cosmo : Cosmology} {quad : Quadrature}.
Variable cfg : Config.

(** [_check_evolved()]. *)
Definition _check_evolved (ev : Evolution) : M unit :=
  if _evolved ev then ret tt else raise RuntimeError.

(** [arr[:, c] = vals] on an array of [nsteps] columns. *)
Definition write_col {A} (ev : Evolution) (c : nat) (vals : list A)
    (arr : list (list A)) : M (list (list A)) :=
  if (c <? snd (_shape ev))%nat then ret (Np.set_col c vals arr)
  else raise IndexError.

(** One turn of the loop over [self._hard] in [_hardening_rate]. *)
Definition add_hardening (ev : Evolution) (step : nat)
    (acc : M (list R * option (list R))) (hard : Hardening)
    : M (list R * option (list R)) :=
  '(dadt, dedt) <- acc ;;
  let '(_hard_dadt, _ecc) := dadt_dedt hard ev step in
  let dadt := Np.vadd dadt _hard_dadt in
  if _debug ev && existsb (fun x => negb (isfinite x) || Rltb 0 x) _hard_dadt
  then raise ValueError
  else
    match dedt with
    | None => ret (dadt, None)
    | Some de =>
        match _ecc with
        | None => ret (dadt, Some de)
        | Some e =>
            if _debug ev && negb (forallb isfinite e) then raise ValueError
            else ret (dadt, Some (Np.vadd de e))
        end
    end.

(** [_hardening_rate(step, store_debug)]: the sum of the rates of all
    hardening models.  The per-model copies [_dadt_ii], [_dedt_ii] that
    debug mode keeps are not part of the model. *)
Definition _hardening_rate (ev : Evolution) (step : nat) (store_debug : bool)
    : M (list R * option (list R)) :=
  let n := fst (_shape ev) in
  fold_left (add_hardening ev step) (_hard cfg)
    (ret (Np.zeros n, match eccen ev with
                      | None => None
                      | Some _ => Some (Np.zeros n)
                      end)).

(** [_init_step_zero()]. *)
Definition _init_step_zero (ev : Evolution) : M Evolution :=
  let pop := _pop ev in
  let nsteps := snd (_shape ev) in
  let rad_isco := map (fun m => Utils.rad_isco (fst m) (snd m)) (p_mass pop) in
  let sepa :=
    Np.map2 (fun a r => Np.logspace (Np.log10 a) (Np.log10 r) nsteps)
      (p_sepa pop) rad_isco in
  let ev := with_sepa sepa ev in
  ev <- match p_eccen pop with
        | None => ret ev
        | Some pe =>
            match eccen ev with
            | None => raise TypeError
            | Some e => e' <- write_col ev 0 pe e ;; ret (with_eccen (Some e') ev)
            end
        end ;;
  sc <- write_col ev 0 (p_scafa pop) (scafa ev) ;;
  let ev := with_scafa sc ev in
  let redz := map cosmo_a_to_z (p_scafa pop) in
  let tl := map cosmo_z_to_tlbk redz in
  tl' <- write_col ev 0 tl (tlook ev) ;;
  let ev := with_tlook tl' ev in
  ms <- write_col ev 0 (p_mass pop) (mass ev) ;;
  let ev := with_mass (map (fun row => map (fun _ => nth 0 row (0, 0)) row) ms) ev in
  '(dadt_init, dedt_init) <- _hardening_rate ev 0 true ;;
  da <- write_col ev 0 dadt_init (dadt ev) ;;
  let ev := with_dadt da ev in
  match p_eccen pop with
  | None => ret ev
  | Some _ =>
      match dedt ev, dedt_init with
      | Some d, Some di => d' <- write_col ev 0 di d ;; ret (with_dedt (Some d') ev)
      | _, _ => raise TypeError
      end
  end.

(** The provisional duration of the step, [dt = da / -dadt_l] with
    [da = sepa[:, left] - sepa[:, right]]. *)
Definition dt_provisional (ev : Evolution) (left right : nat) (dadt_l : list R)
    : list R :=
  let da := map (fun row => nth left row 0 - nth right row 0) (sepa ev) in
  Np.map2 (fun a d => a / - d) da dadt_l.

(** The duration of the step by the trapezoid rule in log-log space, on
    [dtda = 1 / -dadt[:, (left, right)]] and [sepa[:, (right, left)]]. *)
Definition dt_trapz (ev : Evolution) (left right : nat) : list R :=
  Np.map2
    (fun drow srow =>
       trapz_loglog (1 / - nth left drow 0, 1 / - nth right drow 0)
                    (nth right srow 0, nth left srow 0))
    (dadt ev) (sepa ev).

(** [np.any(dt < 0.0)]. *)
Definition any_negative (dt : list R) : bool := existsb (fun d => Rltb d 0) dt.

(** Lookback time and scale factor at the right edge, from the duration
    [dt] of the step; the scale factor is 1 after redshift zero. *)
Definition update_time (ev : Evolution) (left right : nat) (dt : list R)
    : Evolution :=
  let tl := Np.map2 Rminus (Np.col 0 left (tlook ev)) dt in
  let ev := with_tlook (Np.set_col right tl (tlook ev)) ev in
  let sc := map (fun t => if Rltb 0 t then cosmo_z_to_a (cosmo_tlbk_to_z t) else 1) tl in
  with_scafa (Np.set_col right sc (scafa ev)) ev.

(** [np.clip(ecc_r, 0.0, 1.0 - _MAX_ECCEN_ONE_MINUS)]. *)
Definition clip_eccen (e : R) : R := Np.clip e 0 (1 - _MAX_ECCEN_ONE_MINUS).

(** The first eccentricity update, with the left-edge rate. *)
Definition eccen_provisional (ev : Evolution) (left right : nat)
    (dedt_l : option (list R)) (dt : list R) : M Evolution :=
  match eccen ev with
  | None => ret ev
  | Some e =>
      match dedt_l with
      | None => raise TypeError
      | Some dl =>
          let de := Np.map2 Rmult dl dt in
          let ecc_r := Np.map2 Rplus (Np.col 0 left e) de in
          let ecc_r := map clip_eccen ecc_r in
          ret (with_eccen (Some (Np.set_col right ecc_r e)) ev)
      end
  end.

(** The second eccentricity update: [utils.trapz] of [dedt[:, (left, right)]]
    over [tlook[:, (right, left)]]. *)
Definition eccen_corrected (ev : Evolution) (left right : nat) : M Evolution :=
  match eccen ev with
  | None => ret ev
  | Some e =>
      match dedt ev with
      | None => raise TypeError
      | Some d =>
          let decc :=
            Np.map2
              (fun drow trow =>
                 trapz (nth left drow 0, nth right drow 0)
                       (nth right trow 0, nth left trow 0))
              d (tlook ev) in
          let ecc_r := Np.map2 Rplus (Np.col 0 left e) decc in
          let ecc_r := map clip_eccen ecc_r in
          let ev := with_eccen (Some (Np.set_col right ecc_r e)) ev in
          if _debug ev && existsb (fun x => negb (isfinite x)) decc
          then raise ValueError
          else ret ev
      end
  end.

(** The accretion block at the end of the step. *)
Definition accrete (ev : Evolution) (step : nat) (dt : list R) : Evolution :=
  match _acc cfg with
  | None => ev
  | Some acc =>
      let mdot_t := mdot_total acc ev step in
      let ev := with_mdot (Np.set_col (step - 1) (pref_acc acc mdot_t ev step) (mdot ev)) ev in
      let m_l := Np.col (0, 0) (step - 1) (mass ev) in
      let md_l := Np.col (0, 0) (step - 1) (mdot ev) in
      let m_r :=
        if evol_mass acc
        then Np.map2 (fun m p => (fst m + fst p, snd m + snd p)) m_l
               (Np.map2 (fun t md => (t * fst md, t * snd md)) dt md_l)
        else m_l in
      with_mass (Np.set_col step m_r (mass ev)) ev
  end.

(** The first half of [_take_next_step]: the rates at the left edge, the
    provisional duration and its check, the provisional values of the
    right edge, and the rates there. *)
Definition step_left_edge (ev : Evolution) (left right : nat) : M Evolution :=
  '(dadt_l, dedt_l) <- _hardening_rate ev left false ;;
  let dt := dt_provisional ev left right dadt_l in
  if any_negative dt then raise ValueError
  else
    ev <- eccen_provisional ev left right dedt_l dt ;;
    let ev := update_time ev left right dt in
    '(dadt_r, dedt_r) <- _hardening_rate ev right true ;;
    let ev := with_dadt (Np.set_col right dadt_r (dadt ev)) ev in
    match eccen ev with
    | None => ret ev
    | Some _ =>
        match dedt ev, dedt_r with
        | Some d, Some dr => ret (with_dedt (Some (Np.set_col right dr d)) ev)
        | _, _ => raise TypeError
        end
    end.

(** The second half: the duration by the trapezoid rule and its check,
    then the values of the right edge. *)
Definition step_right_edge (ev : Evolution) (left right : nat) : M Evolution :=
  let dt := dt_trapz ev left right in
  if any_negative dt then raise ValueError
  else
    let ev := update_time ev left right dt in
    ev <- eccen_corrected ev left right ;;
    ret (accrete ev right dt).

(** [_take_next_step(step)], from index [step - 1] (left) to [step]
    (right).  [evolve] calls it with [1 <= step]. *)
Definition _take_next_step (ev : Evolution) (step : nat) : M Evolution :=
  let nsteps := snd (_shape ev) in
  let left := (step - 1)%nat in
  let right := step in
  if negb (right <? nsteps)%nat then raise IndexError
  else
    ev <- step_left_edge ev left right ;;
    step_right_edge ev left right.

(** [_check()]: no stored value may be non-finite. *)
Definition check_vars (arrs : list (list (list R))) : M unit :=
  if existsb (fun x => negb (isfinite x)) (concat (concat arrs))
  then raise ValueError else ret tt.

Definition _check (ev : Evolution) : M unit :=
  let flat (a : list (list (R * R))) :=
    map (fun row => concat (map (fun m => [fst m; snd m]) row)) a in
  _ <- check_vars [sepa ev; scafa ev; flat (mass ev); tlook ev; dadt ev] ;;
  match eccen ev with
  | None => ret tt
  | Some e =>
      check_vars [e; match dedt ev with Some d => d | None => [] end]
  end.

(** [modify(mods=None)]. *)
Definition modify (ev : Evolution) (mods : option (list Modifier)) : M Evolution :=
  _ <- _check_evolved ev ;;
  let mods := match mods with None => _mods cfg | Some m => Some m end in
  let mods := match mods with None => [] | Some m => m end in
  fold_left (fun acc (modifier : Modifier) => ev <- acc ;; modifier ev) mods (ret ev).

(** [_finalize()]. *)
Definition _finalize (ev : Evolution) : M Evolution :=
  let ev := with_evolved true ev in
  ev <- modify ev None ;;
  _ <- _check ev ;;
  ret ev.

(** The loop of [evolve] over [steps_list]. *)
Definition take_steps (ev : Evolution) (steps_list : list nat) : M Evolution :=
  fold_left (fun acc step => ev <- acc ;; _take_next_step ev step) steps_list (ret ev).

(** [evolve()]. *)
Definition evolve (ev : Evolution) : M Evolution :=
  ev <- _init_step_zero ev ;;
  let nsteps := snd (_shape ev) in
  ev <- take_steps ev (seq 1 (nsteps - 1)) ;;
  _finalize ev.

End Integrator.

(** *** Interpolation along the tracks: [Evolution.at] *)

(** The names of the stored parameters, [_EVO_PARS]. *)
Inductive Par : Type := Mass | Sepa | Eccen | Scafa | Tlook | Dadt | Dedt.

Definition Par_eqb (a b : Par) : bool :=
  match a, b with
  | Mass, Mass | Sepa, Sepa | Eccen, Eccen | Scafa, Scafa
  | Tlook, Tlook | Dadt, Dadt | Dedt, Dedt => true
  | _, _ => false
  end.

Definition _EVO_PARS : list Par := [Mass; Sepa; Eccen; Scafa; Tlook; Dadt; Dedt].
Definition _LIN_INTERP_PARS : list Par := [Eccen; Scafa; Tlook; Dadt; Dedt].

Definition par_in (a : Par) (l : list Par) : bool := existsb (Par_eqb a) l.

(** A stored array, [(N, M)] or [(N, M, 2)], and an interpolated one, in
    which [None] is [np.nan]. *)
Inductive Data : Type :=
| Scalar (a : list (list R))
| Double (a : list (list (R * R))).

Inductive Interp : Type :=
| IScalar (a : list (list (option R)))
| IDouble (a : list (list (option (R * R)))).

(** [getattr(self, par)]. *)
Definition getattr (ev : Evolution) (par : Par) : option Data :=
  match par with
  | Mass => Some (Double (mass ev))
  | Sepa => Some (Scalar (sepa ev))
  | Eccen => option_map Scalar (eccen ev)
  | Scafa => Some (Scalar (scafa ev))
  | Tlook => Some (Scalar (tlook ev))
  | Dadt => Some (Scalar (dadt ev))
  | Dedt => option_map Scalar (dedt ev)
  end.

(** The argument [lin_interp]: [None], a list of names, or a boolean. *)
Inductive LinInterp : Type :=
| LI_None
| LI_List (l : list Par)
| LI_Bool (b : bool).

(** What [_at__index_frac] computes for one binary and one target: the
    entries of [cut_idx = [aft, bef]], of [interp_frac] and of [valid]. *)
Record IndexFrac : Type := {
  aft : nat;
  bef : nat;
  interp_frac : R;
  valid : bool
}.

Section Interpolator.

Context {cosmo : Cosmology} {quad : Quadrature}.

(** The property [coal]: the scale factor of the last step is below 1. *)
Definition coal (ev : Evolution) : list bool :=
  map (fun row => Rltb (last row 0) 1) (scafa ev).

(** The property [freq_orb_rest].  Its memo [_freq_orb_rest] is not part
    of the model: the tracks do not change between two calls. *)
Definition freq_orb_rest (ev : Evolution) : M (list (list R)) :=
  _ <- _check_evolved ev ;;
  let mtot := map (map (fun m => fst m + snd m)) (mass ev) in
  ret (Np.map2 (Np.map2 kepler_freq_from_sepa) mtot (sepa ev)).

(** The property [freq_orb_obs]. *)
Definition freq_orb_obs (ev : Evolution) : M (list (list R)) :=
  let redz := map (map cosmo_a_to_z) (scafa ev) in
  frest <- freq_orb_rest ev ;;
  ret (Np.map2 (Np.map2 (fun f z => f / (1 + z))) frest redz).

(** [_at__inputs(xpar, targets, params, lin_interp)].  A scalar target is
    the array of one target; the flag [squeeze] only drops that axis from
    the result again and is left out. *)
Definition _at__inputs (ev : Evolution) (xpar : String.string) (targets : list R)
    (params : option (list Par)) (lin_interp : LinInterp)
    : M (list R * list (list R) * list Par * list Par * bool) :=
  _ <- _check_evolved ev ;;
  if negb (String.eqb xpar XPar.sepa || String.eqb xpar XPar.fobs) then raise ValueError
  else
    let params := match params with None => _EVO_PARS | Some l => l end in
    lin_interp_list <-
      match lin_interp with
      | LI_None => ret _LIN_INTERP_PARS
      | LI_List l =>
          if forallb (fun ll => par_in ll params) l then ret l
          else raise ValueError
      | LI_Bool true => ret params
      | LI_Bool false => ret []
      end ;;
    '(xnew, xold, rev) <-
      (if String.eqb xpar XPar.fobs then
         fobs <- freq_orb_obs ev ;;
         ret (map Np.log10 targets, map (map Np.log10) fobs, false)
       else
         ret (map Np.log10 targets,
              map (fun row => List.rev (map Np.log10 row)) (sepa ev), true)) ;;
    textr <- Utils.minmax xnew ;;
    xextr <- Utils.minmax (concat xold) ;;
    if Rltb (snd textr) (fst xextr) || Rltb (snd xextr) (fst textr)
    then raise ValueError
    else ret (xnew, xold, params, lin_interp_list, rev).

(** [_at__index_frac(xnew, xold)] for one target and one track.  The step
    [aft] is the first one whose value is not below the target. *)
Definition index_frac (xn : R) (xo : list R) : IndexFrac :=
  let select := map (fun x => Rleb xn x) xo in
  let aft := Np.argmax select in
  let valid := (0 <? aft)%nat in
  let bef := if valid then (aft - 1)%nat else aft in
  let denom := nth aft xo 0 - nth bef xo 0 in
  let numer := xn - nth bef xo 0 in
  let frac := if Reqb denom 0 then 0 else numer / denom in
  {| aft := aft; bef := bef; interp_frac := frac; valid := valid |}.

Definition _at__index_frac (xnew : list R) (xold : list (list R))
    : list (list IndexFrac) :=
  map (fun xo => map (fun xn => index_frac xn xo) xnew) xold.

(** [_at__interpolate_array] for one value: [yold[1] + (yold[0] - yold[1]) * frac]
    on the values at [cut_idx = [aft, bef]], in log-log space unless
    [lin_interp_flag].  In log-log space this is the value of the code
    when both stored values are positive: [np.log10] of a value that is
    not positive is [-inf] or [nan], which the reals do not have, so the
    statements about a log-interpolated value assume that the two values
    it reads are positive. *)
Definition interpolate (lin_interp_flag : bool) (y_aft y_bef frac : R) : R :=
  if lin_interp_flag then y_bef + (y_aft - y_bef) * frac
  else Np.pow10 (Np.log10 y_bef + (Np.log10 y_aft - Np.log10 y_bef) * frac).

Definition interpolate_row (lin_interp_flag : bool) (yold : list R)
    (cf : list IndexFrac) : list R :=
  map (fun c => interpolate lin_interp_flag (nth (aft c) yold 0)
                  (nth (bef c) yold 0) (interp_frac c)) cf.

Definition interpolate_row2 (lin_interp_flag : bool) (yold : list (R * R))
    (cf : list IndexFrac) : list (R * R) :=
  map (fun c =>
         let ya := nth (aft c) yold (0, 0) in
         let yb := nth (bef c) yold (0, 0) in
         (interpolate lin_interp_flag (fst ya) (fst yb) (interp_frac c),
          interpolate lin_interp_flag (snd ya) (snd yb) (interp_frac c))) cf.

(** [ynew[invalid, ...] = np.nan]. *)
Definition fill_invalid {A} (valid : list bool) (ynew : list A) : list (option A) :=
  Np.map2 (fun (v : bool) y => if v then Some y else None) valid ynew.

(** The body of the loop over [params] in [at], for a parameter that is
    stored.  With [rev], [yold[..., ::-1]] reverses the last axis: the
    steps of an [(N, M)] array, the two components of the [(N, M, 2)]
    masses. *)
Definition at_param (rev : bool) (lin_interp_flag : bool)
    (cf : list (list IndexFrac)) (valid : list (list bool)) (yold : Data) : Interp :=
  match yold with
  | Scalar a =>
      let a := if rev then map (@List.rev R) a else a in
      IScalar (Np.map2 fill_invalid valid
                 (Np.map2 (interpolate_row lin_interp_flag) a cf))
  | Double a =>
      let a := if rev then map (map (fun m : R * R => (snd m, fst m))) a else a in
      IDouble (Np.map2 fill_invalid valid
                 (Np.map2 (interpolate_row2 lin_interp_flag) a cf))
  end.

(** The mask [valid] of [at]: inside the track, coalescing if only those
    are asked for, and with a finite scale factor at both indices of
    [cut_idx]. *)
Definition valid_mask (ev : Evolution) (coal_only : bool)
    (scafa : list (list R)) (cf : list (list IndexFrac)) : list (list bool) :=
  let valid := map (map valid) cf in
  let valid :=
    if coal_only
    then Np.map2 (fun row (c : bool) => map (fun v => v && c) row) valid (coal ev)
    else valid in
  let finite_at (pick : IndexFrac -> nat) : list (list bool) :=
    Np.map2 (fun srow crow => map (fun c => isfinite (nth (pick c) srow 0)) crow)
      scafa cf in
  let valid := Np.map2 (Np.map2 andb) valid (finite_at aft) in
  Np.map2 (Np.map2 andb) valid (finite_at bef).

(** [at(xpar, targets, params, coal, lin_interp)] for an array of targets:
    the assignments [data[par] = ...] of its loop, in the order of
    [params].  The dictionary that they build is [At.at_array] below, and
    the call with a scalar target, which squeezes the arrays, is
    [At.at_scalar]. *)
Definition at_ (ev : Evolution) (xpar : String.string) (targets : list R)
    (params : option (list Par)) (coal_only : bool) (lin_interp : LinInterp)
    : M (list (Par * option Interp)) :=
  '(xnew, xold, params, lin_interp_list, rev) <-
    _at__inputs ev xpar targets params lin_interp ;;
  let scafa := if rev then map (@List.rev R) (scafa ev) else scafa ev in
  let cf := _at__index_frac xnew xold in
  let valid := valid_mask ev coal_only scafa cf in
  ret (map (fun par =>
              (par, option_map (at_param rev (par_in par lin_interp_list) cf valid)
                      (getattr ev par))) params).

(** The tracks of the independent variable in increasing direction, as
    [_at__inputs] has them before it takes the logarithm. *)
Definition xtracks (ev : Evolution) (xpar : String.string) : M (list (list R)) :=
  if String.eqb xpar XPar.fobs then freq_orb_obs ev
  else ret (map (@List.rev R) (sepa ev)).

End Interpolator.

(** An array of [n] rows of [s] columns, and an instance all of whose
    arrays have the shape that [__init__] gives them. *)
Definition has_shape {A} (n s : nat) (arr : list (list A)) : Prop :=
  length arr = n /\ Forall (fun row => length row = s) arr.

Definition well_shaped (ev : Evolution) : Prop :=
  let n := fst (_shape ev) in
  let s := snd (_shape ev) in
  has_shape n s (scafa ev) /\ has_shape n s (tlook ev)
  /\ has_shape n s (sepa ev) /\ has_shape n s (mass ev)
  /\ has_shape n s (dadt ev)
  /\ (forall e, eccen ev = Some e -> has_shape n s e)
  /\ (forall d, dedt ev = Some d -> has_shape n s d).

(** The entry of an interpolated array for binary [i] and target [j]. *)
Definition scalar_entry (I : Interp) (i j : nat) : option R :=
  match I with
  | IScalar a => nth j (nth i a []) None
  | IDouble _ => None
  end.

Definition double_entry (I : Interp) (i j : nat) : option (R * R) :=
  match I with
  | IScalar _ => None
  | IDouble a => nth j (nth i a []) None
  end.

Definition entry_is_nan (I : Interp) (i j : nat) : Prop :=
  match I with
  | IScalar a => nth j (nth i a []) None = None
  | IDouble a => nth j (nth i a []) None = None
  end.

(** Whether [at] interpolates a parameter in linear space. *)
Definition lin_interp_flag (params : option (list Par)) (lin_interp : LinInterp)
    (par : Par) : bool :=
  par_in par
    match lin_interp with
    | LI_None => _LIN_INTERP_PARS
    | LI_List l => l
    | LI_Bool true => match params with None => _EVO_PARS | Some l => l end
    | LI_Bool false => []
    end.

(** The stored values of an array at step [s] of binary [i]. *)
Definition stored (a : list (list R)) (i s : nat) : R := nth s (nth i a []) 0.
Definition stored2 (a : list (list (R * R))) (i s : nat) : R * R :=
  nth s (nth i a []) (0, 0).

(** *** Resampling: [Evolution._sample_universe__resample] *)

(** [_sample_universe__resample(fobs_orb_edges, vals, weights, down_sample)]. *)
Definition _sample_universe__resample (fobs_orb_edges : list R)
    (vals : list (list R)) (weights : list R) (down_sample : option R)
    : Rand.Rnd (list (list R)) :=
  let weights :=
    match down_sample with
    | Some ds => map (fun w => w / ds) weights
    | None => weights
    end in
  Rand.Poisson (Np.sum weights) (fun nsamp =>
    let reflect :=
      [None; Some (None, Some 0); None;
       Some (Some (Np.log10 (hd 0 fobs_orb_edges)),
             Some (Np.log10 (last fobs_orb_edges 0)));
       Some (Some 0, Some 1); None; None] in
    Rand.KaleResample vals nsamp reflect weights (1 / 2) (fun samples =>
      Rand.Done samples)).

End Evo.

(** ** holodeck.evolution: the adaptive integrator [New_Evolution] *)

Module NewEvo.

(** The storage of a [New_Evolution] instance during [evolve]: one entry
    per stored step, the binaries one after the other. *)
Record NewEvolution : Type := {
  sepa : list R;
  dadt : list (list R);
  mass : list (R * R);
  redz : list R;
  tlook : list R;
  eccen : option (list R);
  dedt : option (list (list R));
  mdot : option (list (R * R))
}.

(** [hard.dadt_dedt(evo, bin, step)] of one hardening model. *)
Record Hardening : Type := {
  dadt_dedt : NewEvolution -> nat -> nat -> R * option R
}.

Record Accretion : Type := {
  mdot_total : NewEvolution -> nat -> nat -> R;
  pref_acc : R -> NewEvolution -> nat -> nat -> R * R
}.

(** The local variables of [evolve] that live across the iterations of
    the [while] loop. *)
Record Loop : Type := {
  evo : NewEvolution;
  arr_size : nat;
  idx : nat;
  left : nat;
  right : nat;
  my_steps : nat;
  risco : R;
  dadt_l_list : list R;
  dedt_l_list : option (list R);
  mdot_l : R * R
}.

Definition _NSTEPS : nat := 1000.
Definition MAX_BIN_STEPS : nat := 1000.
Definition CFL : R := 1 / 10.

(** The initial values of the binaries, as [__init__] stores them. *)
Record Init : Type := {
  _size : nat;
  _sepa_init : list R;
  _mass_init : list (R * R);
  _tlook_init : list R;
  _eccen_init : option (list R)
}.

Section Adaptive.

Context {consts : Constants}.
(** [cosmo.tlbk_to_z]. *)
Variable tlbk_to_z : R -> R.
Variable _hard : list Hardening.
Variable _acc : option Accretion.
Variable init : Init.

Definition _TIME_STEP_MAX : R := (1 / 10) * GYR.

(** [_hardening_rate(bin, step)]; without an accretion model
    [mdot = 0.0]. *)
Definition _hardening_rate (e : NewEvolution) (bin step : nat)
    : list R * option (list R) * (R * R) :=
  let rates := map (fun hard => dadt_dedt hard e bin step) _hard in
  let dadt_ := map fst rates in
  let dedt_ :=
    match eccen e with
    | None => None
    | Some _ => Some (map (fun r => match snd r with Some d => d | None => 0 end) rates)
    end in
  let mdot_ :=
    match _acc with
    | Some acc => pref_acc acc (mdot_total acc e bin step) e bin step
    | None => (0, 0)
    end in
  (dadt_, dedt_, mdot_).

(** [_get_timestep_from_rates(step, dadt, dedt, mdot, CFL)]: the list
    [[dt_dadt, dt_dedt, dt_mdot]], in which [None] is [np.inf]. *)
Definition _get_timestep_from_rates (e : NewEvolution) (step : nat)
    (dadt_ : R) (dedt_ : option R) (mdot_ : R * R) : list (option R) :=
  let dt_dadt := Some (CFL * nth step (sepa e) 0 / Rabs dadt_) in
  let dt_dedt :=
    match eccen e, dedt_ with
    | Some ecc, Some d => Some (CFL * nth step ecc 0 / Rabs d)
    | _, _ => None
    end in
  let dt_mdot :=
    match _acc with
    | Some _ =>
        let m := nth step (mass e) (0, 0) in
        Some (CFL * Rmin (fst m / fst mdot_) (snd m / snd mdot_))
    | None => None
    end in
  [dt_dadt; dt_dedt; dt_mdot].

(** [np.min(dt_list + [tlook[left], _TIME_STEP_MAX])]. *)
Definition min_timestep (dt_list : list (option R)) (tl : R) : R :=
  fold_right (fun d m => match d with Some x => Rmin x m | None => m end)
    (Rmin tl _TIME_STEP_MAX) dt_list.

(** [np.concatenate([arr, np.zeros(nsteps)])], on the arrays that the
    code expands ([mdot] is not among them). *)
Definition expand (nsteps : nat) (e : NewEvolution) : NewEvolution :=
  let nhards := length _hard in
  {| sepa := sepa e ++ Np.zeros nsteps;
     dadt := dadt e ++ Np.zeros2 0 nsteps nhards;
     mass := mass e ++ repeat (0, 0) nsteps;
     redz := redz e ++ Np.zeros nsteps;
     tlook := tlook e ++ Np.zeros nsteps;
     eccen := option_map (fun a => a ++ Np.zeros nsteps) (eccen e);
     dedt := option_map (fun a => a ++ Np.zeros2 0 nsteps nhards) (dedt e);
     mdot := mdot e |}.

(** The assignments to [sepa[right]], [eccen[right]], [mass[right, :]],
    [tlook[right]] and [redz[right]] from the values at [left], the rates
    and the duration [dt].  They occur twice in the loop: as the guess of
    the right edge and as the increment. *)
Definition set_right (e : NewEvolution) (left right : nat)
    (a_right : R) (dedt_ : option R) (mdot_ : R * R) (dt : R) : NewEvolution :=
  let m := nth left (mass e) (0, 0) in
  let tl := nth left (tlook e) 0 - dt in
  {| sepa := Np.upd right a_right (sepa e);
     dadt := dadt e;
     mass := Np.upd right (fst m + fst mdot_ * dt, snd m + snd mdot_ * dt) (mass e);
     redz := Np.upd right (tlbk_to_z tl) (redz e);
     tlook := Np.upd right tl (tlook e);
     eccen :=
       match eccen e, dedt_ with
       | Some ecc, Some d => Some (Np.upd right (nth left ecc 0 + d * dt) ecc)
       | other, _ => other
       end;
     dedt := dedt e;
     mdot := mdot e |}.

(** The increment of the separation with its guard against passing the
    ISCO: the new [dt] and the stored [sepa[right]]. *)
Definition increment_sepa (sepa_left risco_ dadt_ dt : R) : R * R :=
  let sepa_right := sepa_left + dadt_ * dt in
  if Rltb sepa_right risco_ then
    let dt := (sepa_right - sepa_left) / dadt_ in
    (dt, sepa_left + dadt_ * dt)
  else (dt, sepa_right).

(** The rates stored at the end of an iteration: [dadt[right, :]],
    [mdot[right]] and [dedt[right, :]]. *)
Definition store_rates (e : NewEvolution) (right : nat) (dadt_list : list R)
    (dedt_list : option (list R)) (mdot_ : R * R) : M NewEvolution :=
  match mdot e with
  | None => raise TypeError
  | Some md =>
      if negb (right <? length md)%nat then raise IndexError
      else
        ret {| sepa := sepa e;
               dadt := Np.upd right dadt_list (dadt e);
               mass := mass e;
               redz := redz e;
               tlook := tlook e;
               eccen := eccen e;
               dedt :=
                 match dedt e, dedt_list with
                 | Some d, Some dl => Some (Np.upd right dl d)
                 | other, _ => other
                 end;
               mdot := Some (Np.upd right mdot_ md) |}
  end.

(** The arrays as [evolve] allocates them, and its local variables
    before the loop over the binaries. *)
Definition start : Loop :=
  let nsteps := (_NSTEPS * _size init)%nat in
  let nhards := length _hard in
  {| evo :=
       {| sepa := Np.zeros nsteps;
          dadt := Np.zeros2 0 nsteps nhards;
          mass := repeat (0, 0) nsteps;
          redz := Np.zeros nsteps;
          tlook := Np.zeros nsteps;
          eccen := match _eccen_init init with
                   | Some _ => Some (Np.zeros nsteps)
                   | None => None
                   end;
          dedt := match _eccen_init init with
                  | Some _ => Some (Np.zeros2 0 nsteps nhards)
                  | None => None
                  end;
          mdot := match _acc with
                  | Some _ => Some (repeat (0, 0) nsteps)
                  | None => None
                  end |};
     arr_size := nsteps; idx := 0; left := 0; right := 0;
     my_steps := 0; risco := 0;
     dadt_l_list := []; dedt_l_list := None; mdot_l := (0, 0) |}.

(** The test of the [while] loop. *)
Definition continues (l : Loop) : bool :=
  let e := evo l in
  Rltb (risco l * (1001 / 1000)) (nth (idx l) (sepa e) 0)
  && Rltb 0 (nth (idx l) (tlook e) 0)
  && Rltb (1 / 1000) (nth (idx l) (redz e) 0).

(** One iteration of the [while] loop, for binary [bin]. *)
Definition iteration (bin : nat) (l : Loop) : M Loop :=
  let nsteps := (_NSTEPS * _size init)%nat in
  let idx := S (idx l) in
  let right := idx in
  let left := left l in
  if (MAX_BIN_STEPS <? my_steps l)%nat then raise RuntimeError
  else
    let '(e, arr_size) :=
      if (arr_size l <=? right)%nat
      then (expand nsteps (evo l), (arr_size l + nsteps)%nat)
      else (evo l, arr_size l) in
    (* determine timestep *)
    let dadt_l := Np.sum (dadt_l_list l) in
    let dedt_l := option_map Np.sum (dedt_l_list l) in
    let dt_l_list := _get_timestep_from_rates e left dadt_l dedt_l (mdot_l l) in
    let dt_l := min_timestep dt_l_list (nth left (tlook e) 0) in
    (* guess right-edge *)
    let e := set_right e left right (nth left (sepa e) 0 + dadt_l * dt_l)
               dedt_l (mdot_l l) dt_l in
    (* guess right-edge evolution rates *)
    let '(dadt_r_list, dedt_r_list, mdot_r) := _hardening_rate e bin right in
    let dadt_r := Np.sum dadt_r_list in
    let dedt_r := option_map Np.sum dedt_r_list in
    let dt_r_list := _get_timestep_from_rates e right dadt_r dedt_r mdot_r in
    let dt_r := min_timestep dt_r_list (nth left (tlook e) 0) in
    (* take average evolution rate *)
    let dadt_list := Np.map2 (fun a b => (1 / 2) * (a + b)) (dadt_l_list l) dadt_r_list in
    let dadt_ := Np.sum dadt_list in
    let dedt_list :=
      match dedt_l_list l, dedt_r_list with
      | Some a, Some b => Some (Np.map2 (fun a b => (1 / 2) * (a + b)) a b)
      | _, _ => None
      end in
    let dedt_ := option_map Np.sum dedt_list in
    let mdot_ := ((1 / 2) * (fst (mdot_l l) + fst mdot_r),
                  (1 / 2) * (snd (mdot_l l) + snd mdot_r)) in
    let dt := Rmin dt_l dt_r in
    (* increment *)
    let '(dt, a_right) := increment_sepa (nth left (sepa e) 0) (risco l) dadt_ dt in
    if Rleb dt 0 || negb (isfinite dt) then raise RuntimeError
    else
      let e := set_right e left right a_right dedt_ mdot_ dt in
      e <- store_rates e right dadt_list dedt_list mdot_ ;;
      match eccen e, dedt_list with
      | None, _ | _, None => raise UnboundLocalError
      | Some _, Some _ =>
          let m := nth right (mass e) (0, 0) in
          ret {| evo := e; arr_size := arr_size; idx := idx;
                 left := right; right := right;
                 my_steps := S (my_steps l);
                 risco := Utils.rad_isco (fst m) (snd m);
                 dadt_l_list := dadt_list;
                 dedt_l_list := dedt_list;
                 mdot_l := mdot_ |}
      end.

(** The [while] loop.  An iteration with [my_steps > MAX_BIN_STEPS] raises
    the [RuntimeError], so the loop body runs at most [MAX_BIN_STEPS + 2]
    times: with that much fuel the last line is never reached. *)
Fixpoint while_loop (fuel : nat) (bin : nat) (l : Loop) : M Loop :=
  if continues l then
    match fuel with
    | O => raise RuntimeError
    | S fuel' => l' <- iteration bin l ;; while_loop fuel' bin l'
    end
  else ret l.

(** The body of the loop over the binaries, up to the end of the [while]
    loop: the first step of binary [bin] at index [idx], then the
    integration. *)
Definition evolve_binary (bin : nat) (l : Loop) : M Loop :=
  let e := evo l in
  let i := idx l in
  let m0 := nth i (mass e) (0, 0) in
  let risco_ := Utils.rad_isco (fst m0) (snd m0) in
  let tl := nth bin (_tlook_init init) 0 in
  let e :=
    {| sepa := Np.upd i (nth bin (_sepa_init init) 0) (sepa e);
       dadt := dadt e;
       mass := Np.upd i (nth bin (_mass_init init) (0, 0)) (mass e);
       redz := Np.upd i (tlbk_to_z tl) (redz e);
       tlook := Np.upd i tl (tlook e);
       eccen :=
         match eccen e, _eccen_init init with
         | Some ecc, Some e0 => Some (Np.upd i (nth bin e0 0) ecc)
         | other, _ => other
         end;
       dedt := dedt e;
       mdot := mdot e |} in
  let '(dadt_l, dedt_l, mdot_l_) := _hardening_rate e bin i in
  while_loop (MAX_BIN_STEPS + 2) bin
    {| evo := e; arr_size := arr_size l; idx := i; left := i; right := right l;
       my_steps := 0; risco := risco_;
       dadt_l_list := dadt_l; dedt_l_list := dedt_l; mdot_l := mdot_l_ |}.

End Adaptive.

End NewEvo.

(** ** holodeck.gravwaves: Monte-Carlo synthesis at one frequency *)

Module Gw.

(** One element of the arrays that [bin_evo.at] returns, where it is not
    [np.nan]: the parameters ['time'] (a scale factor), ['mass'], ['dadt']
    and ['sepa'] of one binary at one harmonic. *)
Record Datum : Type := {
  time : R;
  mass : R * R;
  dadt : R;
  sepa : R
}.

(** The dictionary [data_harms]: arrays of shape (N, H); an element that
    [at] filled with [np.nan] is [None].  ['eccen'] is [None] when the
    eccentricity is not evolved. *)
Record DataHarms : Type := {
  data : list (list (option Datum));
  eccen : option (list (list R))
}.

(** A valid element: what the code keeps of it after [[valid]]. *)
Record Source : Type := {
  harms : Z;
  redz : R;
  sel_n2 : bool;
  ecc : option R;
  datum : Datum
}.

(** The value returned by [_calc_mc_at_fobs]: [mc_ecc] and [mc_circ] are
    [[fore, back, both]], arrays over the realizations; [loud] is
    (L, nreals). *)
Record Signals : Type := {
  mc_ecc : list R * list R * list R;
  mc_circ : list R * list R * list R;
  sa_ecc : R;
  sa_circ : R;
  loud : list (list R)
}.

Definition b2r (b : bool) : R := if b then 1 else 0.

Section MonteCarlo.

Context {consts : Constants}.
(** [scipy.special.jn] and [cosmo.z_to_dlum]. *)
Variable bessel : Z -> R -> R.
Variable z_to_dlum : R -> R.
(** [bin_evo.at('fobs', targets, pars=_CALC_MC_PARS)] of the evolution
    that is passed in. *)
Variable bin_evo_at : list R -> DataHarms.

(** The elements selected by [valid], in row-major order. *)
Definition valid_sources (harm_range : list Z) (dh : DataHarms) : list Source :=
  flat_map (fun i =>
    flat_map (fun j =>
      match nth j (nth i (data dh) []) None with
      | None => []
      | Some d =>
          let z := Utils.a_to_z (time d) in
          if isfinite z && Rltb 0 z then
            let n := nth j harm_range 0%Z in
            [{| harms := n; redz := z; sel_n2 := Z.eqb n 2;
                ecc := option_map (fun e => nth j (nth i e []) 0) (eccen dh);
                datum := d |}]
          else []
      end) (seq 0 (length harm_range)))
    (seq 0 (length (data dh))).

(** The weight [gne] of a valid element: g(n, e), set by hand where the
    eccentricity is below [1e-8]. *)
Definition gne_of (s : Source) : R :=
  match ecc s with
  | None => 1
  | Some e =>
      let gne := Utils.gw_freq_dist_func bessel (harms s) e in
      let sel_e0 := Rltb e (1 / 100000000) in
      let gne := if sel_e0 then 0 else gne in
      if sel_n2 s && sel_e0 then 1 else gne
  end.

(** [num_frac] and [temp] of a valid element. *)
Definition num_frac_of (fobs box_vol : R) (s : Source) : R :=
  let d := datum s in
  let dlum := z_to_dlum (redz s) in
  let zp1 := redz s + 1 in
  let frst_orb := fobs * zp1 / IZR (harms s) in
  let dfdt := Utils.dfdt_from_dadt (- dadt d) (sepa d) frst_orb in
  let _tres := frst_orb / dfdt in
  let vfac := 4 * PI * SPLC * (dlum * dlum) / box_vol in
  let tfac := _tres in
  vfac * tfac * zp1.

Definition temp_of (fobs : R) (s : Source) : R :=
  let d := datum s in
  let dlum := z_to_dlum (redz s) in
  let zp1 := redz s + 1 in
  let frst_orb := fobs * zp1 / IZR (harms s) in
  let mchirp := Utils.chirp_mass (fst (mass d)) (snd (mass d)) in
  let hs2 := Rsqr (Utils.gw_strain_source mchirp dlum frst_orb) in
  hs2 * gne_of s * Rsqr (2 / IZR (harms s)).

End MonteCarlo.

(** [temp[:, np.newaxis] * (num_pois > 0)] in one realization. *)
Definition masked (temp : list R) (num_pois : list nat) : list R :=
  Np.map2 (fun t (n : nat) => t * b2r (0 <? n)%nat) temp num_pois.

(** [np.sort(..., axis=0)[::-1, :]] in one realization. *)
Definition descending (temp : list R) (num_pois : list nat) : list R :=
  rev (Np.sort (masked temp num_pois)).

(** [np.max(..., axis=0)] in one realization. *)
Definition max0 (l : list R) : R :=
  match l with
  | [] => 0
  | x :: l' => fold_left Rmax l' x
  end.

(** The signals, from "Calculate GW Signals" on. *)
Definition mc_signals (temp num_frac : list R) (sel_n2 : list bool)
    (num_pois : list (list nat)) (nreals loudest : nat) : Signals :=
  let reals := seq 0 nreals in
  let pois (r : nat) := Np.col 0%nat r num_pois in
  let mc_ecc_both :=
    map (fun r => Np.sum (Np.map2 (fun t (n : nat) => t * INR n) temp (pois r))) reals in
  let mc_circ_both :=
    map (fun r =>
           Np.sum (Np.map2 (fun (ts : R * bool) (n : nat) => fst ts * INR n * b2r (snd ts))
                     (combine temp sel_n2) (pois r))) reals in
  let sa_ecc := Np.sum (Np.map2 Rmult temp num_frac) in
  let sa_circ :=
    Np.sum (Np.map2 (fun (ts : R * bool) f => fst ts * f * b2r (snd ts))
              (combine temp sel_n2) num_frac) in
  let '(mc_ecc_fore, mc_circ_fore, loud) :=
    if existsb (existsb (fun n => (0 <? n)%nat)) num_pois then
      (map (fun r => nth 0 (descending temp (pois r)) 0) reals,
       map (fun r =>
              max0 (Np.map2 (fun (ts : R * bool) (n : nat) =>
                               fst ts * b2r (0 <? n)%nat * b2r (snd ts))
                      (combine temp sel_n2) (pois r))) reals,
       map (fun k => map (fun r => nth k (descending temp (pois r)) 0) reals)
         (seq 0 (Nat.min loudest (length temp))))
    else
      (Np.zeros nreals, Np.zeros nreals, Np.zeros2 0 loudest nreals) in
  let mc_ecc_back := Np.map2 Rminus mc_ecc_both mc_ecc_fore in
  let mc_circ_back := Np.map2 Rminus mc_circ_both mc_circ_fore in
  {| mc_ecc := (mc_ecc_fore, mc_ecc_back, mc_ecc_both);
     mc_circ := (mc_circ_fore, mc_circ_back, mc_circ_both);
     sa_ecc := sa_ecc; sa_circ := sa_circ; loud := loud |}.

(** The foreground in the words of the specification: the summed
    contribution of the [loudest] loudest sources of a realization. *)
Definition spec_foreground (loudest : nat) (temp : list R) (num_pois : list nat) : R :=
  Np.sum (firstn loudest (descending temp num_pois)).

Section CalcMc.

Context {consts : Constants}.
Variable bessel : Z -> R -> R.
Variable z_to_dlum : R -> R.
Variable bin_evo_at : list R -> DataHarms.

(** [_calc_mc_at_fobs(fobs, harm_range, nreals, bin_evo, box_vol, loudest)]. *)
Definition _calc_mc_at_fobs (fobs : R) (harm_range : list Z) (nreals : nat)
    (box_vol : R) (loudest : nat) : Rand.Rnd Signals :=
  let data_harms := bin_evo_at (map (fun n => fobs / IZR n) harm_range) in
  let srcs := valid_sources harm_range data_harms in
  let num_frac := map (num_frac_of z_to_dlum fobs box_vol) srcs in
  let temp := map (temp_of bessel z_to_dlum fobs) srcs in
  Rand.PoissonArray num_frac nreals (fun num_pois =>
    Rand.Done (mc_signals temp num_frac (map sel_n2 srcs) num_pois nreals loudest)).

End CalcMc.

End Gw.

(** ** Concrete instances for the examples *)

Module Ex.

Definition consts : Constants :=
  {| SCHW := 1; NWTG := 1; SPLC := 1; GYR := 1000000 |}.

(** A toy cosmology: lookback time and redshift coincide. *)
Definition cosmo : Evo.Cosmology :=
  {| Evo.cosmo_a_to_z := Utils.a_to_z;
     Evo.cosmo_z_to_a := Utils.z_to_a;
     Evo.cosmo_z_to_tlbk := fun z => z;
     Evo.cosmo_tlbk_to_z := fun t => t |}.

(** The plain trapezoid rule for both quadratures, and a frequency that
    falls with the separation. *)
Definition quad : Evo.Quadrature :=
  {| Evo.trapz_loglog := fun y x => (fst y + snd y) / 2 * (snd x - fst x);
     Evo.trapz := fun y x => (fst y + snd y) / 2 * (snd x - fst x);
     Evo.kepler_freq_from_sepa := fun m a => m / a |}.

(** One binary of masses 1 and 1, hence of ISCO radius 6, at separation
    60, with eccentricity 1/2. *)
Definition pop : Evo.Population :=
  {| Evo.p_size := 1;
     Evo.p_mass := [(1, 1)];
     Evo.p_sepa := [60];
     Evo.p_scafa := [1 / 2];
     Evo.p_eccen := Some [1 / 2];
     Evo.p_sample_volume := 1 |}.

(** A hardening model with the same rates at every step. *)
Definition hard_const (da de : R) : Evo.Hardening :=
  {| Evo.dadt_dedt := fun ev _ =>
       (map (fun _ => da) (Evo.sepa ev), Some (map (fun _ => de) (Evo.sepa ev))) |}.

Definition cfg : Evo.Config :=
  {| Evo._hard := [hard_const (-1) (- (1 / 1000))];
     Evo._acc := None;
     Evo._mods := None |}.

End Ex.

(** The example binary for the adaptive integrator. *)

Module ExNew.
Definition hard : NewEvo.Hardening :=
  {| NewEvo.dadt_dedt := fun _ _ _ => (-1, Some (- (1 / 1000))) |}.
Definition acc : NewEvo.Accretion :=
  {| NewEvo.mdot_total := fun _ _ _ => 1 / 500;
     NewEvo.pref_acc := fun tot _ _ _ => (tot / 2, tot / 2) |}.
Definition init : NewEvo.Init :=
  {| NewEvo._size := 1;
     NewEvo._sepa_init := [7];
     NewEvo._mass_init := [(1, 1)];
     NewEvo._tlook_init := [1000];
     NewEvo._eccen_init := Some [1 / 2] |}.
Definition tlbk_to_z (t : R) : R := t.
End ExNew.

Module Ex2.
(** The example binary after [_init_step_zero] and after its one step,
    in an evolution of two steps. *)
Definition mk (debug evolved : bool) (scafa tlook dadt : list (list R))
    (eccen dedt : option (list (list R))) : Evo.Evolution :=
  {| Evo._pop := Ex.pop; Evo._debug := debug; Evo._nsteps := 2;
     Evo._sample_volume := 1; Evo._shape := (1%nat, 2%nat);
     Evo.scafa := scafa;
     Evo.tlook := tlook;
     Evo.sepa := [[60; 6]];
     Evo.mass := [[(1, 1); (1, 1)]];
     Evo.mdot := [[(0, 0); (0, 0)]];
     Evo.dadt := dadt;
     Evo.eccen := eccen;
     Evo.dedt := dedt;
     Evo._evolved := evolved |}.

Definition ev_init : Evo.Evolution :=
  mk false false [[1 / 2; 0]] [[1; 0]] [[-1; 0]]
    (Some [[1 / 2; 0]]) (Some [[- (1 / 1000); 0]]).

Definition ev_stepped (evolved : bool) : Evo.Evolution :=
  mk false evolved [[1 / 2; 1]] [[1; -53]] [[-1; -1]]
    (Some [[1 / 2; 223 / 500]]) (Some [[- (1 / 1000); - (1 / 1000)]]).

(** Two hardening models, the first of which softens the binary after
    step 0, and the example binary after [_init_step_zero] with them. *)
Definition hard_softening : Evo.Hardening :=
  {| Evo.dadt_dedt := fun ev step =>
       (map (fun _ => if (step =? 0)%nat then -1 else 1) (Evo.sepa ev),
        Some (map (fun _ => 0) (Evo.sepa ev))) |}.

Definition cfg_softening : Evo.Config :=
  {| Evo._hard := [hard_softening; Ex.hard_const (-3) 0];
     Evo._acc := None;
     Evo._mods := None |}.

Definition ev_init_softening (debug : bool) : Evo.Evolution :=
  mk debug false [[1 / 2; 0]] [[1; 0]] [[-4; 0]]
    (Some [[1 / 2; 0]]) (Some [[0; 0]]).

(** The same binary, without debugging, after the first and the second
    half of its step. *)
Definition ev_left_softening : Evo.Evolution :=
  mk false false [[1 / 2; 1]] [[1; - (25 / 2)]] [[-4; -2]]
    (Some [[1 / 2; 1 / 2]]) (Some [[0; 0]]).

Definition ev_stepped_softening : Evo.Evolution :=
  mk false false [[1 / 2; 1]] [[1; - (77 / 4)]] [[-4; -2]]
    (Some [[1 / 2; 1 / 2]]) (Some [[0; 0]]).
End Ex2.

Module Ex3.
(** A hardening model that softens the binary, and the example binary
    after [_init_step_zero] with it. *)
Definition cfg_outward : Evo.Config :=
  {| Evo._hard := [Ex.hard_const 1 0];
     Evo._acc := None;
     Evo._mods := None |}.

Definition ev_init_outward : Evo.Evolution :=
  Ex2.mk false false [[1 / 2; 0]] [[1; 0]] [[1; 0]]
    (Some [[1 / 2; 0]]) (Some [[0; 0]]).

(** Two harmonics of one circular binary, as [bin_evo.at] returns them. *)
Definition bessel (_ : Z) (_ : R) : R := 0.

Definition datum : Gw.Datum :=
  {| Gw.time := 1 / 2; Gw.mass := (1, 1); Gw.dadt := -1; Gw.sepa := 10 |}.

Definition dh : Gw.DataHarms :=
  {| Gw.data := [[Some datum; Some datum]]; Gw.eccen := Some [[0; 0]] |}.

Definition source (n : Z) : Gw.Source :=
  {| Gw.harms := n; Gw.redz := Utils.a_to_z (1 / 2); Gw.sel_n2 := Z.eqb n 2;
     Gw.ecc := Some 0; Gw.datum := datum |}.
End Ex3.

(** ** Predicates of the statements *)

(** What a step leaves alone, and what it does to the eccentricities:
    they are only ever replaced, in one column, by clipped values. *)
Inductive eccen_step : option (list (list R)) -> option (list (list R)) -> Prop :=
| eccen_step_refl o : eccen_step o o
| eccen_step_clip e c xs o :
    eccen_step (Some (Np.set_col c (map Evo.clip_eccen xs) e)) o ->
    eccen_step (Some e) o.

(** The frame of a step: what it does not change. *)
Definition same_frame (ev ev' : Evo.Evolution) : Prop :=
  Evo._evolved ev' = Evo._evolved ev
  /\ Evo._shape ev' = Evo._shape ev
  /\ Evo._debug ev' = Evo._debug ev
  /\ Evo._pop ev' = Evo._pop ev
  /\ Evo.sepa ev' = Evo.sepa ev
  /\ eccen_step (Evo.eccen ev) (Evo.eccen ev').

(** The interval of the stored eccentricities. *)
Definition eccen_in_range (x : R) : Prop :=
  0 <= x <= 1 - Evo._MAX_ECCEN_ONE_MINUS.

(** The modifiers that are installed do not touch the eccentricities. *)
Definition mods_keep_eccen (cfg : Evo.Config) : Prop :=
  forall ms (m : Evo.Modifier) ev1 ev2,
    Evo._mods cfg = Some ms -> In m ms -> m ev1 = inr ev2 ->
    Evo.eccen ev2 = Evo.eccen ev1.

(** The value that [at] computes for a valid target of a scalar
    parameter and of the masses. *)
Definition scalar_value (rev lin_flag : bool) (yrow : list R) (c : Evo.IndexFrac) : R :=
  let y := if rev then List.rev yrow else yrow in
  Evo.interpolate lin_flag (nth (Evo.aft c) y 0) (nth (Evo.bef c) y 0) (Evo.interp_frac c).

Definition double_value (rev lin_flag : bool) (yrow : list (R * R)) (c : Evo.IndexFrac)
    : R * R :=
  let y := if rev then map (fun m : R * R => (snd m, fst m)) yrow else yrow in
  (Evo.interpolate lin_flag (fst (nth (Evo.aft c) y (0, 0)))
     (fst (nth (Evo.bef c) y (0, 0))) (Evo.interp_frac c),
   Evo.interpolate lin_flag (snd (nth (Evo.aft c) y (0, 0)))
     (snd (nth (Evo.bef c) y (0, 0))) (Evo.interp_frac c)).

(** ** Predicates of the further statements *)

(** The arrays that a step reads the duration from and writes the time
    to. *)
Definition time_shaped (ev : Evo.Evolution) : Prop :=
  let n := fst (Evo._shape ev) in
  let s := snd (Evo._shape ev) in
  Evo.has_shape n s (Evo.tlook ev) /\ Evo.has_shape n s (Evo.scafa ev)
  /\ Evo.has_shape n s (Evo.dadt ev) /\ Evo.has_shape n s (Evo.sepa ev).

(** The scale factors that [update_time] writes for the lookback times
    [tl]. *)
Definition scafa_of {cosmo : Evo.Cosmology} (tl : list R) : list R :=
  map (fun t => if Rltb 0 t then Evo.cosmo_z_to_a (Evo.cosmo_tlbk_to_z t) else 1) tl.

(** ** The dictionary that [Evolution.at] returns *)

Module At.

(** [data[k] = v] on a dictionary, kept as the list of its items in
    insertion order: a key that is there keeps its place and gets the new
    value, a new key goes to the end. *)
Fixpoint dict_set {V} (k : Evo.Par) (v : V) (d : list (Evo.Par * V))
    : list (Evo.Par * V) :=
  match d with
  | [] => [(k, v)]
  | (k', v') :: d' =>
      if Evo.Par_eqb k k' then (k, v) :: d' else (k', v') :: dict_set k v d'
  end.

(** [data = dict()] followed by the assignments [items], in their order. *)
Definition dict_of {V} (items : list (Evo.Par * V)) : list (Evo.Par * V) :=
  fold_left (fun d kv => dict_set (fst kv) (snd kv) d) items [].

(** A dictionary whose keys are distinct and whose values are those of
    [f] at its keys. *)
Definition dict_by {V} (f : Evo.Par -> V) (d : list (Evo.Par * V)) : Prop :=
  NoDup (map fst d) /\ forall kv, In kv d -> snd kv = f (fst kv).

(** [ynew.squeeze()] on the array of a single target, of shape (N, 1) or
    (N, 1, 2): every axis of length one goes, the axis of the target
    always and the axis of the binaries when there is one binary.  The
    results have the shapes (), (N,), (2,) and (N, 2). *)
Inductive Squeezed : Type :=
| SValue (v : option R)
| SColumn (col : list (option R))
| SPair (v : option (R * R))
| SPairs (col : list (option (R * R))).

Definition squeeze (ynew : Evo.Interp) : Squeezed :=
  match ynew with
  | Evo.IScalar a =>
      match a with
      | [row] => SValue (nth 0 row None)
      | _ => SColumn (map (fun row => nth 0 row None) a)
      end
  | Evo.IDouble a =>
      match a with
      | [row] => SPair (nth 0 row None)
      | _ => SPairs (map (fun row => nth 0 row None) a)
      end
  end.

Section At.

Context {cosmo : Evo.Cosmology} {quad : Evo.Quadrature}.

(** [at(xpar, targets, params, coal, lin_interp)] with an array of
    targets: the dictionary [data]. *)
Definition at_array (ev : Evo.Evolution) (xpar : String.string) (targets : list R)
    (params : option (list Evo.Par)) (coal_only : bool) (lin_interp : Evo.LinInterp)
    : M (list (Evo.Par * option Evo.Interp)) :=
  items <- Evo.at_ ev xpar targets params coal_only lin_interp ;;
  ret (dict_of items).

(** [at(xpar, target, params, coal, lin_interp)] with a scalar target:
    [_at__inputs] makes it the array of one target and sets [squeeze], and
    every array is squeezed before it is stored. *)
Definition at_scalar (ev : Evo.Evolution) (xpar : String.string) (target : R)
    (params : option (list Evo.Par)) (coal_only : bool) (lin_interp : Evo.LinInterp)
    : M (list (Evo.Par * option Squeezed)) :=
  items <- Evo.at_ ev xpar [target] params coal_only lin_interp ;;
  ret (dict_of (map (fun kv => (fst kv, option_map squeeze (snd kv))) items)).

End At.

End At.

(** The terms of one realization in [_calc_mc_at_fobs]: those summed into
    [mc_ecc_both] and [mc_circ_both], and those whose largest is
    [mc_circ_fore]. *)
Definition ecc_terms (temp : list R) (ns : list nat) : list R :=
  Np.map2 (fun t (n : nat) => t * INR n) temp ns.

Definition circ_terms (temp : list R) (sel_n2 : list bool) (ns : list nat) : list R :=
  Np.map2 (fun (ts : R * bool) (n : nat) => fst ts * INR n * Gw.b2r (snd ts))
    (combine temp sel_n2) ns.

Definition circ_masked (temp : list R) (sel_n2 : list bool) (ns : list nat) : list R :=
  Np.map2 (fun (ts : R * bool) (n : nat) =>
             fst ts * Gw.b2r (0 <? n)%nat * Gw.b2r (snd ts))
    (combine temp sel_n2) ns.

Module ExLoop.
(** The state of the loop of [New_Evolution.evolve] for the example binary
    at its first step, on arrays of three entries. *)
Definition evo0 (tl : R) : NewEvo.NewEvolution :=
  {| NewEvo.sepa := [7; 0; 0];
     NewEvo.dadt := [[-1]; [0]; [0]];
     NewEvo.mass := [(1, 1); (0, 0); (0, 0)];
     NewEvo.redz := [tl; 0; 0];
     NewEvo.tlook := [tl; 0; 0];
     NewEvo.eccen := Some [1 / 2; 0; 0];
     NewEvo.dedt := Some [[- (1 / 1000)]; [0]; [0]];
     NewEvo.mdot := Some [(0, 0); (0, 0); (0, 0)] |}.

Definition loop0 (tl : R) : NewEvo.Loop :=
  {| NewEvo.evo := evo0 tl; NewEvo.arr_size := 3; NewEvo.idx := 0;
     NewEvo.left := 0; NewEvo.right := 0; NewEvo.my_steps := 0;
     NewEvo.risco := 6;
     NewEvo.dadt_l_list := [-1];
     NewEvo.dedt_l_list := Some [- (1 / 1000)];
     NewEvo.mdot_l := (1 / 1000, 1 / 1000) |}.
End ExLoop.

(** * Properties *)

(** ** Comparisons *)

Lemma Rltb_true (x y : R) : Rltb x y = true <-> x < y.
Proof. unfold Rltb. destruct (Rlt_dec x y); split; intros; (easy || lra). Qed.

Lemma Rltb_false (x y : R) : Rltb x y = false <-> y <= x.
Proof. unfold Rltb. destruct (Rlt_dec x y); split; intros; (easy || lra). Qed.

Lemma Rleb_true (x y : R) : Rleb x y = true <-> x <= y.
Proof. unfold Rleb. destruct (Rle_dec x y); split; intros; (easy || lra). Qed.

Lemma Rleb_false (x y : R) : Rleb x y = false <-> y < x.
Proof. unfold Rleb. destruct (Rle_dec x y); split; intros; (easy || lra). Qed.

Lemma Reqb_true (x y : R) : Reqb x y = true <-> x = y.
Proof. unfold Reqb. destruct (Req_dec_T x y); split; intros; (easy || lra). Qed.

Lemma Reqb_false (x y : R) : Reqb x y = false <-> x <> y.
Proof. unfold Reqb. destruct (Req_dec_T x y); split; intros; (easy || lra). Qed.

(** Replace a closed arithmetic expression by its value. *)
Ltac Rnorm x :=
  let y := fresh "y" in
  let H := fresh "H" in
  set (y := x); assert (H : y = x) by reflexivity; clearbody y;
  field_simplify in H; subst y.

(** Decide the comparisons of a goal between concrete reals. *)
Ltac Rdecide :=
  repeat match goal with
    | |- context [Rltb ?x ?y] =>
        first [ replace (Rltb x y) with true by (symmetry; apply Rltb_true; lra)
              | replace (Rltb x y) with false by (symmetry; apply Rltb_false; lra)
              | progress (Rnorm x) | progress (Rnorm y) ]
    | |- context [Rleb ?x ?y] =>
        first [ replace (Rleb x y) with true by (symmetry; apply Rleb_true; lra)
              | replace (Rleb x y) with false by (symmetry; apply Rleb_false; lra)
              | progress (Rnorm x) | progress (Rnorm y) ]
    | |- context [Reqb ?x ?y] =>
        first [ replace (Reqb x y) with true by (symmetry; apply Reqb_true; lra)
              | replace (Reqb x y) with false by (symmetry; apply Reqb_false; lra)
              | progress (Rnorm x) | progress (Rnorm y) ]
    end.

(** ** Sums *)

Lemma sum_map_div (l : list R) (d : R) :
  Np.sum (map (fun w => w / d) l) = Np.sum l / d.
Proof.
  induction l as [|w l IH]; simpl.
  - unfold Rdiv. ring.
  - rewrite IH. unfold Rdiv. ring.
Qed.

(** ** The weights of the harmonics *)

Section HarmonicWeights.

Context {consts : Constants}.
Variable bessel : Z -> R -> R.

Lemma valid_sources_sel_n2 harm_range dh s :
  In s (Gw.valid_sources harm_range dh) -> Gw.sel_n2 s = Z.eqb (Gw.harms s) 2.
Proof.
  unfold Gw.valid_sources. intros H.
  apply in_flat_map in H. destruct H as (i & _ & H).
  apply in_flat_map in H. destruct H as (j & _ & H).
  destruct (nth j (nth i (Gw.data dh) []) None) as [d|]; [|contradiction].
  destruct (isfinite _ && Rltb 0 _); [|contradiction].
  destruct H as [<-|[]]. reflexivity.
Qed.

(** C7.  In the Monte-Carlo synthesis, a valid (binary, harmonic) element
    whose eccentricity is below the near-zero threshold [1e-8] gets the
    weight exactly 1 when the harmonic is n = 2 and exactly 0 otherwise. *)
Theorem gne_near_zero_eccentricity harm_range dh s e :
  In s (Gw.valid_sources harm_range dh) ->
  Gw.ecc s = Some e ->
  e < 1 / 100000000 ->
  Gw.gne_of bessel s = if Z.eqb (Gw.harms s) 2 then 1 else 0.
Proof.
  intros Hin He Hlt. unfold Gw.gne_of. rewrite He.
  rewrite (valid_sources_sel_n2 _ _ _ Hin).
  apply Rltb_true in Hlt. rewrite Hlt.
  destruct (Z.eqb (Gw.harms s) 2); reflexivity.
Qed.

End HarmonicWeights.

(** ** The resampler *)

(** C8.  The resampler asks for one Poisson count whose mean is the sum of
    the weights, divided by [down_sample] when that is given, and draws
    exactly that many binaries from the kernel-density estimate. *)
Theorem resample_poisson_mean edges vals weights down_sample :
  exists k,
    Evo._sample_universe__resample edges vals weights down_sample
    = Rand.Poisson
        (match down_sample with
         | Some ds => Np.sum weights / ds
         | None => Np.sum weights
         end) k
    /\ forall nsamp, exists reflect,
         k nsamp
         = Rand.KaleResample vals nsamp reflect
             (match down_sample with
              | Some ds => map (fun w => w / ds) weights
              | None => weights
              end) (1 / 2) Rand.Done.
Proof.
  unfold Evo._sample_universe__resample.
  destruct down_sample as [ds|].
  - rewrite sum_map_div. eexists. split; [reflexivity|].
    intros nsamp. eexists. reflexivity.
  - eexists. split; [reflexivity|].
    intros nsamp. eexists. reflexivity.
Qed.

(** ** Arrays *)

Lemma map2_length {A B C} (f : A -> B -> C) a b :
  length (Np.map2 f a b) = Nat.min (length a) (length b).
Proof.
  revert b. induction a as [|x a IH]; intros [|y b]; simpl; auto.
Qed.

Lemma map2_nth {A B C} (f : A -> B -> C) a b i da db dc :
  (i < length a)%nat -> (i < length b)%nat ->
  nth i (Np.map2 f a b) dc = f (nth i a da) (nth i b db).
Proof.
  revert b i. induction a as [|x a IH]; intros [|y b] [|i]; simpl; intros; try lia; auto.
  apply IH; lia.
Qed.

Lemma map2_In {A B C} (f : A -> B -> C) a b z da db :
  In z (Np.map2 f a b) ->
  exists i, (i < length a)%nat /\ (i < length b)%nat /\ z = f (nth i a da) (nth i b db).
Proof.
  revert b. induction a as [|x a IH]; intros [|y b]; simpl; try contradiction.
  intros [<-|H].
  - exists O. repeat split; lia.
  - destruct (IH _ H) as (i & Ha & Hb & ->). exists (S i). repeat split; lia.
Qed.

Lemma col_length {A} (d : A) c arr : length (Np.col d c arr) = length arr.
Proof. unfold Np.col. apply length_map. Qed.

Lemma col_nth {A} (d : A) c arr i :
  nth i (Np.col d c arr) d = nth c (nth i arr []) d.
Proof.
  unfold Np.col. revert i. induction arr as [|row arr IH]; intros [|i]; simpl; auto.
  all: destruct c; reflexivity.
Qed.

(** ** Sorting *)

Lemma insert_perm x l : Permutation (Np.insert x l) (x :: l).
Proof.
  induction l as [|y l IH]; simpl; auto.
  destruct (Rleb x y); auto.
  rewrite IH. apply perm_swap.
Qed.

Lemma sort_perm l : Permutation (Np.sort l) l.
Proof.
  induction l as [|x l IH]; simpl; auto.
  rewrite insert_perm. auto.
Qed.

Lemma insert_sorted x l :
  StronglySorted Rle l -> StronglySorted Rle (Np.insert x l).
Proof.
  induction 1 as [|y l Hs IH Hall]; simpl.
  - repeat constructor.
  - destruct (Rleb x y) eqn:E.
    + apply Rleb_true in E. constructor; [constructor; auto|].
      constructor; auto. eapply Forall_impl; [|exact Hall].
      intros z Hz. simpl in Hz. lra.
    + apply Rleb_false in E. constructor; auto.
      eapply Permutation_Forall; [symmetry; apply insert_perm|].
      constructor; [lra|auto].
Qed.

Lemma sort_sorted l : StronglySorted Rle (Np.sort l).
Proof.
  induction l as [|x l IH]; simpl; [constructor|].
  apply insert_sorted, IH.
Qed.

Lemma sorted_last_max l d :
  StronglySorted Rle l -> Forall (fun x => x <= last l d) l.
Proof.
  induction 1 as [|y l Hs IH Hall]; [constructor|].
  destruct l as [|z l].
  - constructor; [simpl; lra|constructor].
  - change (last (y :: z :: l) d) with (last (z :: l) d).
    constructor; auto.
    inversion Hall as [|? ? Hyz _]; subst.
    inversion IH as [|? ? Hz _]; subst. lra.
Qed.

Lemma nth_0_rev {A} (l : list A) d : nth 0 (rev l) d = last l d.
Proof.
  induction l as [|x l IH] using rev_ind; [reflexivity|].
  rewrite rev_app_distr, last_last. reflexivity.
Qed.

Lemma last_In {A} (l : list A) d : l <> [] -> In (last l d) l.
Proof.
  induction l as [|x [|y l] IH]; intros H; [congruence|left; reflexivity|].
  right. apply IH. discriminate.
Qed.

(** The first entry of a column sorted in descending order is its
    largest entry. *)
Lemma descending_head temp ns :
  Gw.masked temp ns <> [] ->
  In (nth 0 (Gw.descending temp ns) 0) (Gw.masked temp ns)
  /\ forall x, In x (Gw.masked temp ns) -> x <= nth 0 (Gw.descending temp ns) 0.
Proof.
  intros Hne. unfold Gw.descending. rewrite nth_0_rev.
  assert (Hs : Np.sort (Gw.masked temp ns) <> []).
  { intros E. apply Hne. apply Permutation_nil. rewrite <- E. apply sort_perm. }
  split.
  - eapply Permutation_in; [apply sort_perm|]. apply last_In, Hs.
  - intros x Hx.
    pose proof (sorted_last_max _ 0 (sort_sorted (Gw.masked temp ns))) as Hall.
    rewrite Forall_forall in Hall. apply Hall.
    eapply Permutation_in; [symmetry; apply sort_perm|exact Hx].
Qed.

Lemma nth_map_seq {A} (f : nat -> A) n r d :
  (r < n)%nat -> nth r (map f (seq 0 n)) d = f r.
Proof.
  intros H. rewrite (nth_indep _ d (f O)) by (rewrite length_map, length_seq; exact H).
  rewrite map_nth, seq_nth by exact H. reflexivity.
Qed.

(** ** Foreground and background *)

Lemma masked_nth temp ns v :
  (v < length temp)%nat -> (v < length ns)%nat ->
  nth v (Gw.masked temp ns) 0 = nth v temp 0 * Gw.b2r (0 <? nth v ns 0%nat)%nat.
Proof.
  intros. unfold Gw.masked.
  rewrite (map2_nth _ _ _ _ 0 0%nat) by assumption. reflexivity.
Qed.

Lemma some_source_drawn (num_pois : list (list nat)) v r :
  (0 < nth r (nth v num_pois []) 0)%nat ->
  existsb (existsb (fun n => (0 <? n)%nat)) num_pois = true.
Proof.
  intros H. apply existsb_exists.
  destruct (Nat.lt_ge_cases v (length num_pois)) as [Hv|Hv];
    [|rewrite (nth_overflow num_pois) in H by exact Hv; destruct r; simpl in H; lia].
  exists (nth v num_pois []). split; [apply nth_In; exact Hv|].
  apply existsb_exists.
  destruct (Nat.lt_ge_cases r (length (nth v num_pois []))) as [Hr|Hr];
    [|rewrite nth_overflow in H by exact Hr; lia].
  exists (nth r (nth v num_pois []) 0%nat). split; [apply nth_In; exact Hr|].
  apply Nat.ltb_lt. exact H.
Qed.

(** C1, as the code has it.  In a realization with at least one drawn
    source, the foreground is the strain-squared value [temp] of the single
    loudest drawn source, counted once whatever its Poisson count, and the
    background is the count-weighted total minus that one value. *)
Theorem foreground_is_loudest_source
    temp num_frac sel num_pois nreals loudest r v0 :
  length num_pois = length temp ->
  (forall t, In t temp -> 0 <= t) ->
  (r < nreals)%nat ->
  (v0 < length temp)%nat ->
  (0 < nth r (nth v0 num_pois []) 0)%nat ->
  let sg := Gw.mc_signals temp num_frac sel num_pois nreals loudest in
  let fore := nth r (fst (fst (Gw.mc_ecc sg))) 0 in
  let back := nth r (snd (fst (Gw.mc_ecc sg))) 0 in
  let both := nth r (snd (Gw.mc_ecc sg)) 0 in
  (exists v, (v < length temp)%nat /\ (0 < nth r (nth v num_pois []) 0)%nat
             /\ fore = nth v temp 0)
  /\ (forall v, (v < length temp)%nat -> (0 < nth r (nth v num_pois []) 0)%nat ->
                nth v temp 0 <= fore)
  /\ both = Np.sum (Np.map2 (fun t (n : nat) => t * INR n) temp (Np.col 0%nat r num_pois))
  /\ back = both - fore.
Proof.
  intros Hlen Hpos Hr Hv0 Hn0 sg fore back both.
  set (ns := Np.col 0%nat r num_pois).
  assert (Hns : length ns = length temp) by (unfold ns; rewrite col_length; exact Hlen).
  assert (Hfore : fore = nth 0 (Gw.descending temp ns) 0).
  { unfold fore, sg, Gw.mc_signals.
    rewrite (some_source_drawn _ _ _ Hn0). simpl.
    rewrite nth_map_seq by exact Hr. reflexivity. }
  assert (Hboth : both = Np.sum (Np.map2 (fun t (n : nat) => t * INR n) temp ns)).
  { unfold both, sg, Gw.mc_signals.
    destruct (existsb _ num_pois); simpl; rewrite nth_map_seq by exact Hr; reflexivity. }
  assert (Hback : back = both - fore).
  { unfold back, both, fore, sg, Gw.mc_signals.
    rewrite (some_source_drawn _ _ _ Hn0). simpl.
    rewrite (map2_nth _ _ _ _ 0 0) by (rewrite length_map, length_seq; exact Hr).
    reflexivity. }
  assert (Hmask : forall v, (v < length temp)%nat ->
            nth v (Gw.masked temp ns) 0
            = nth v temp 0 * Gw.b2r (0 <? nth r (nth v num_pois []) 0%nat)%nat).
  { intros v Hv. rewrite masked_nth by lia. unfold ns. rewrite col_nth. reflexivity. }
  assert (Hne : Gw.masked temp ns <> []).
  { intros E. apply (f_equal (@length R)) in E. unfold Gw.masked in E.
    rewrite map2_length in E. simpl in E. lia. }
  destruct (descending_head temp ns Hne) as [Hin Hmax].
  rewrite <- Hfore in Hin, Hmax.
  assert (Hge : forall v, (v < length temp)%nat ->
            (0 < nth r (nth v num_pois []) 0)%nat -> nth v temp 0 <= fore).
  { intros v Hv Hn.
    assert (E : nth v (Gw.masked temp ns) 0 = nth v temp 0).
    { rewrite Hmask by exact Hv. apply Nat.ltb_lt in Hn. rewrite Hn. simpl. ring. }
    rewrite <- E. apply Hmax. apply nth_In.
    unfold Gw.masked. rewrite map2_length. lia. }
  repeat split; try assumption.
  unfold Gw.masked in Hin.
  apply (map2_In _ _ _ _ 0 0%nat) in Hin. destruct Hin as (v & Hv & Hv' & E).
  fold ns in E. unfold ns in E at 1. rewrite col_nth in E.
  destruct (0 <? nth r (nth v num_pois []) 0)%nat eqn:En.
  - exists v. apply Nat.ltb_lt in En. repeat split; try assumption.
    rewrite E. simpl. ring.
  - exists v0. repeat split; try assumption.
    simpl in E. pose proof (Hge v0 Hv0 Hn0) as H1.
    pose proof (Hpos _ (nth_In temp 0 Hv0)) as H2. lra.
Qed.

Lemma foreground_is_loudest_source_witness :
  let sg := Gw.mc_signals [3; 2] [1; 1] [true; true] [[1%nat]; [1%nat]] 1 2 in
  let fore := nth 0 (fst (fst (Gw.mc_ecc sg))) 0 in
  let back := nth 0 (snd (fst (Gw.mc_ecc sg))) 0 in
  let both := nth 0 (snd (Gw.mc_ecc sg)) 0 in
  (exists v, (v < 2)%nat /\ (0 < nth 0 (nth v [[1%nat]; [1%nat]] []) 0)%nat
             /\ fore = nth v [3; 2] 0)
  /\ (forall v, (v < 2)%nat -> (0 < nth 0 (nth v [[1%nat]; [1%nat]] []) 0)%nat ->
                nth v [3; 2] 0 <= fore)
  /\ both = Np.sum (Np.map2 (fun t (n : nat) => t * INR n) [3; 2]
                      (Np.col 0%nat 0 [[1%nat]; [1%nat]]))
  /\ back = both - fore.
Proof.
  refine (foreground_is_loudest_source [3; 2] [1; 1] [true; true]
            [[1%nat]; [1%nat]] 1 2 0 0 _ _ _ _ _).
  - reflexivity.
  - intros t [<-|[<-|[]]]; lra.
  - simpl; lia.
  - simpl; lia.
  - simpl; lia.
Defined.

(** C1, as the specification states it, fails: with two sources of
    strain-squared 3 and 2, each drawn once, and [loudest = 2], the
    foreground is 3 and not the sum 5 of the two loudest sources. *)
Lemma foreground_not_sum_of_loudest :
  let sg := Gw.mc_signals [3; 2] [1; 1] [true; true] [[1%nat]; [1%nat]] 1 2 in
  nth 0 (fst (fst (Gw.mc_ecc sg))) 0 = 3
  /\ Gw.spec_foreground 2 [3; 2] [1%nat; 1%nat] = 5
  /\ nth 0 (fst (fst (Gw.mc_ecc sg))) 0 <> Gw.spec_foreground 2 [3; 2] [1%nat; 1%nat].
Proof.
  assert (E : Gw.descending [3; 2] [1%nat; 1%nat] = [3 * 1; 2 * 1]).
  { unfold Gw.descending, Gw.masked. simpl. Rdecide. simpl. Rdecide. reflexivity. }
  assert (F : nth 0 (fst (fst (Gw.mc_ecc
                (Gw.mc_signals [3; 2] [1; 1] [true; true] [[1%nat]; [1%nat]] 1 2)))) 0 = 3).
  { unfold Gw.mc_signals. simpl. change (Np.col 0%nat 0 [[1%nat]; [1%nat]]) with [1%nat; 1%nat].
    rewrite E. simpl. lra. }
  assert (G : Gw.spec_foreground 2 [3; 2] [1%nat; 1%nat] = 5).
  { unfold Gw.spec_foreground. rewrite E. simpl. lra. }
  cbv zeta. rewrite F, G. repeat split; lra.
Qed.

(** ** Powers of ten and logarithmic spacing *)

Lemma ln10_pos : 0 < ln 10.
Proof. rewrite <- ln_1. apply ln_increasing; lra. Qed.

Lemma pow10_log10 (x : R) : 0 < x -> Np.pow10 (Np.log10 x) = x.
Proof.
  intros Hx. unfold Np.pow10, Np.log10, Rpower.
  replace (ln x / ln 10 * ln 10) with (ln x) by (field; pose proof ln10_pos; lra).
  apply exp_ln, Hx.
Qed.

Lemma pow10_pos (x : R) : 0 < Np.pow10 x.
Proof. unfold Np.pow10, Rpower. apply exp_pos. Qed.

Lemma pow10_plus (x y : R) : Np.pow10 (x + y) = Np.pow10 x * Np.pow10 y.
Proof. unfold Np.pow10. apply Rpower_plus. Qed.

Lemma linspace_length a b n : length (Np.linspace a b n) = n.
Proof.
  destruct n as [|[|n]]; simpl; auto.
  rewrite length_app, length_map, length_seq. simpl. lia.
Qed.

(** Every sample of [linspace], the last one included, lies on the line
    through [start] with slope [step]. *)
Lemma linspace_nth a b n k :
  (2 <= n)%nat -> (k < n)%nat ->
  nth k (Np.linspace a b n) 0 = INR k * ((b - a) / INR (n - 1)) + a.
Proof.
  intros Hn Hk. destruct n as [|[|n]]; try lia.
  unfold Np.linspace.
  replace (S (S n) - 1)%nat with (S n) by lia.
  assert (Hne : INR (S n) <> 0) by (apply not_0_INR; lia).
  destruct (Nat.eq_dec k (S n)) as [->|Hneq].
  - rewrite app_nth2; rewrite length_map, length_seq; [|lia].
    rewrite Nat.sub_diag. simpl nth. field. exact Hne.
  - rewrite app_nth1 by (rewrite length_map, length_seq; lia).
    rewrite nth_map_seq by lia. reflexivity.
Qed.

Lemma logspace_length a b n : length (Np.logspace a b n) = n.
Proof. unfold Np.logspace. rewrite length_map. apply linspace_length. Qed.

Lemma logspace_nth a b n k :
  (2 <= n)%nat -> (k < n)%nat ->
  nth k (Np.logspace a b n) 0 = Np.pow10 (INR k * ((b - a) / INR (n - 1)) + a).
Proof.
  intros Hn Hk. unfold Np.logspace.
  rewrite (nth_indep _ 0 (Np.pow10 0)) by (rewrite length_map, linspace_length; exact Hk).
  rewrite map_nth, linspace_nth by assumption. reflexivity.
Qed.

Lemma logspace_first a b n :
  (2 <= n)%nat -> nth 0 (Np.logspace a b n) 0 = Np.pow10 a.
Proof.
  intros Hn. rewrite logspace_nth by lia. f_equal. simpl. lra.
Qed.

Lemma logspace_last a b n :
  (2 <= n)%nat -> nth (n - 1) (Np.logspace a b n) 0 = Np.pow10 b.
Proof.
  intros Hn. rewrite logspace_nth by lia. f_equal.
  field. apply not_0_INR. lia.
Qed.

Lemma logspace_ratio a b n k :
  (2 <= n)%nat -> (S k < n)%nat ->
  nth (S k) (Np.logspace a b n) 0
  = Np.pow10 ((b - a) / INR (n - 1)) * nth k (Np.logspace a b n) 0.
Proof.
  intros Hn Hk. rewrite !logspace_nth by lia.
  rewrite <- pow10_plus. f_equal. rewrite S_INR. ring.
Qed.

Lemma upd_length {A} c (v : A) row : length (Np.upd c v row) = length row.
Proof. revert c. induction row as [|x row IH]; intros [|c]; simpl; auto. Qed.

Lemma upd_nth_same {A} c (v : A) row d :
  (c < length row)%nat -> nth c (Np.upd c v row) d = v.
Proof.
  revert c. induction row as [|x row IH]; intros [|c]; simpl; intros; try lia; auto.
  apply IH. lia.
Qed.

Lemma upd_nth_other {A} c s (v : A) row d :
  s <> c -> nth s (Np.upd c v row) d = nth s row d.
Proof.
  revert c s. induction row as [|x row IH]; intros [|c] [|s]; simpl; intros; try lia; auto.
Qed.

Lemma set_col_length {A} c (vals : list A) arr :
  length (Np.set_col c vals arr) = length arr.
Proof.
  revert vals. induction arr as [|row arr IH]; intros [|v vals]; simpl; auto.
Qed.

Lemma set_col_nth {A} c (vals : list A) arr i dv :
  (i < length vals)%nat -> (i < length arr)%nat ->
  nth i (Np.set_col c vals arr) [] = Np.upd c (nth i vals dv) (nth i arr []).
Proof.
  revert vals i. induction arr as [|row arr IH]; intros [|v vals] [|i]; simpl; intros; try lia; auto.
  apply IH; lia.
Qed.

Lemma set_col_nth_beyond {A} c (vals : list A) arr i :
  (length vals <= i)%nat ->
  nth i (Np.set_col c vals arr) [] = nth i arr [].
Proof.
  revert vals i. induction arr as [|row arr IH]; intros [|v vals] [|i]; simpl; intros; try lia; auto.
  apply IH. lia.
Qed.

Lemma zeros2_nth {A} (z : A) n s i :
  (i < n)%nat -> nth i (Np.zeros2 z n s) [] = repeat z s.
Proof.
  intros H. unfold Np.zeros2. apply nth_repeat_lt. exact H.
Qed.

(** Projections of updated records. *)
Ltac evo_simpl :=
  cbn [Evo.with_scafa Evo.with_tlook Evo.with_sepa Evo.with_mass Evo.with_mdot
       Evo.with_dadt Evo.with_eccen Evo.with_dedt Evo.with_evolved
       Evo._pop Evo._debug Evo._nsteps Evo._sample_volume Evo._shape
       Evo.scafa Evo.tlook Evo.sepa Evo.mass Evo.mdot Evo.dadt Evo.eccen
       Evo.dedt Evo._evolved] in *.

(** Inversion of a successful computation in the error monad. *)
Ltac minv H :=
  unfold ret, raise in H; cbn [bind] in H;
  repeat (
    match type of H with
    | inl _ = inr _ => discriminate H
    | inr _ = inr _ => injection H as H
    | bind ?m _ = inr _ =>
        let E := fresh "E" in
        destruct m eqn:E; cbn [bind] in H; [discriminate H|]
    | (let '(_, _) := ?x in _) = inr _ => destruct x
    | (if ?b then _ else _) = inr _ =>
        let E := fresh "E" in destruct b eqn:E; cbn [bind] in H; try discriminate H
    | match ?x with Some _ => _ | None => _ end = inr _ =>
        let E := fresh "E" in destruct x eqn:E; cbn [bind] in H; try discriminate H
    end).

Section InitStepZero.

Context {consts : Constants} {cosmo : Evo.Cosmology} {quad : Evo.Quadrature}.
Variable cfg : Evo.Config.

Lemma init_step_zero_inv ev ev' :
  Evo._init_step_zero cfg ev = inr ev' ->
  (0 < snd (Evo._shape ev))%nat
  /\ Evo._shape ev' = Evo._shape ev
  /\ Evo._pop ev' = Evo._pop ev
  /\ Evo._debug ev' = Evo._debug ev
  /\ Evo._evolved ev' = Evo._evolved ev
  /\ Evo.sepa ev'
     = Np.map2 (fun a r => Np.logspace (Np.log10 a) (Np.log10 r) (snd (Evo._shape ev)))
         (Evo.p_sepa (Evo._pop ev))
         (map (fun m => Utils.rad_isco (fst m) (snd m)) (Evo.p_mass (Evo._pop ev)))
  /\ Evo.scafa ev' = Np.set_col 0 (Evo.p_scafa (Evo._pop ev)) (Evo.scafa ev)
  /\ Evo.mass ev'
     = map (fun row => map (fun _ => nth 0 row (0, 0)) row)
         (Np.set_col 0 (Evo.p_mass (Evo._pop ev)) (Evo.mass ev))
  /\ Evo.eccen ev'
     = match Evo.p_eccen (Evo._pop ev) with
       | Some pe => option_map (Np.set_col 0 pe) (Evo.eccen ev)
       | None => Evo.eccen ev
       end.
Proof.
  unfold Evo._init_step_zero, Evo.write_col. intros H.
  unfold ret, raise in H. evo_simpl.
  destruct (0 <? snd (Evo._shape ev))%nat eqn:Hs.
  2:{ destruct (Evo.p_eccen (Evo._pop ev)), (Evo.eccen ev);
      cbn [bind] in H; evo_simpl; try rewrite Hs in H; discriminate H. }
  apply Nat.ltb_lt in Hs as Hs'.
  destruct (Evo.p_eccen (Evo._pop ev)) as [pe|] eqn:Epe.
  - destruct (Evo.eccen ev) as [e|] eqn:Ee; [|cbn in H; discriminate H].
    cbn [bind] in H. evo_simpl. rewrite Hs in H. cbn [bind] in H. evo_simpl.
    minv H. subst ev'. evo_simpl. repeat split; auto.
  - cbn [bind] in H. evo_simpl. rewrite Hs in H. cbn [bind] in H. evo_simpl.
    minv H. subst ev'. evo_simpl. repeat split; auto.
Qed.
End InitStepZero.

Lemma nth_map_in {A B} (f : A -> B) l i d d' :
  (i < length l)%nat -> nth i (map f l) d = f (nth i l d').
Proof.
  revert i. induction l as [|x l IH]; intros [|i]; simpl; intros; try lia; auto.
  apply IH. lia.
Qed.

Section InitStepZeroTracks.

Context {consts : Constants} {cosmo : Evo.Cosmology} {quad : Evo.Quadrature}.
Variable cfg : Evo.Config.

(** C3, for at least two steps.  After the initialization of step zero,
    the separations of every binary run from its initial separation to
    its ISCO radius, three Schwarzschild radii of the initial total mass,
    with a constant ratio between successive steps; the eccentricity, the
    scale factor and the masses of step 0 are those of the population. *)
Theorem init_step_zero_tracks pop nsteps debug ev' i a0 m1 m2 :
  (2 <= nsteps)%nat ->
  length (Evo.p_sepa pop) = Evo.p_size pop ->
  length (Evo.p_mass pop) = Evo.p_size pop ->
  length (Evo.p_scafa pop) = Evo.p_size pop ->
  (forall pe, Evo.p_eccen pop = Some pe -> length pe = Evo.p_size pop) ->
  Evo._init_step_zero cfg (Evo.__init__ pop nsteps debug) = inr ev' ->
  (i < Evo.p_size pop)%nat ->
  nth i (Evo.p_sepa pop) 0 = a0 ->
  nth i (Evo.p_mass pop) (0, 0) = (m1, m2) ->
  0 < a0 -> 0 < SCHW -> 0 < m1 + m2 ->
  let track := nth i (Evo.sepa ev') [] in
  let r_isco := 3 * (SCHW * (m1 + m2)) in
  let q := Np.pow10 ((Np.log10 r_isco - Np.log10 a0) / INR (nsteps - 1)) in
  length track = nsteps
  /\ nth 0 track 0 = a0
  /\ nth (nsteps - 1) track 0 = r_isco
  /\ (forall k, (S k < nsteps)%nat ->
        0 < nth k track 0 /\ nth (S k) track 0 = q * nth k track 0)
  /\ (forall pe, Evo.p_eccen pop = Some pe ->
        exists e, Evo.eccen ev' = Some e /\ nth 0 (nth i e []) 0 = nth i pe 0)
  /\ nth 0 (nth i (Evo.scafa ev') []) 0 = nth i (Evo.p_scafa pop) 0
  /\ nth 0 (nth i (Evo.mass ev') []) (0, 0) = (m1, m2).
Proof.
  intros Hn Hls Hlm Hlc Hle Hrun Hi Ha Hm Ha0 Hschw Hmt track r_isco q.
  apply init_step_zero_inv in Hrun.
  destruct Hrun as (_ & _ & _ & _ & _ & Hsepa & Hscafa & Hmass & Heccen).
  cbn [Evo.__init__ Evo._shape Evo._pop Evo.scafa Evo.mass Evo.eccen snd] in *.
  assert (Hr : 0 < r_isco) by (unfold r_isco; nra).
  assert (Htrack : track = Np.logspace (Np.log10 a0) (Np.log10 r_isco) nsteps).
  { unfold track. rewrite Hsepa.
    rewrite (map2_nth _ _ _ _ 0 0) by (rewrite ?length_map; lia).
    rewrite Ha. rewrite (nth_map_in _ _ _ _ (0, 0)) by lia.
    rewrite Hm. reflexivity. }
  assert (Hrow0 : forall A (z : A), nth 0 (repeat z nsteps) z = z).
  { intros. apply nth_repeat. }
  repeat split.
  - rewrite Htrack. apply logspace_length.
  - rewrite Htrack, logspace_first by lia. apply pow10_log10, Ha0.
  - rewrite Htrack, logspace_last by lia. apply pow10_log10, Hr.
  - rewrite Htrack, logspace_nth by lia. apply pow10_pos.
  - rewrite Htrack. apply logspace_ratio; lia.
  - intros pe Hpe. rewrite Hpe in Heccen. cbn [option_map] in Heccen.
    eexists. split; [exact Heccen|].
    rewrite (set_col_nth _ _ _ _ 0)
      by (rewrite ?(Hle _ Hpe); unfold Np.zeros2; rewrite ?repeat_length; lia).
    rewrite zeros2_nth by lia.
    apply upd_nth_same. rewrite repeat_length. lia.
  - rewrite Hscafa.
    rewrite (set_col_nth _ _ _ _ 0)
      by (unfold Np.zeros2; rewrite ?repeat_length; lia).
    rewrite zeros2_nth by lia.
    apply upd_nth_same. rewrite repeat_length. lia.
  - rewrite Hmass.
    rewrite (nth_map_in _ _ _ _ []) by (rewrite set_col_length; unfold Np.zeros2; rewrite repeat_length; lia).
    rewrite (set_col_nth _ _ _ _ (0, 0))
      by (unfold Np.zeros2; rewrite ?repeat_length; lia).
    rewrite zeros2_nth by lia.
    rewrite (nth_map_in _ _ _ _ (0, 0)) by (rewrite upd_length, repeat_length; lia).
    rewrite upd_nth_same by (rewrite repeat_length; lia). exact Hm.
Qed.
End InitStepZeroTracks.

Lemma example_rad_isco : @Utils.rad_isco Ex.consts 1 1 = 6.
Proof.
  unfold Utils.rad_isco, Utils.rad_isco_factor, Utils.schwarzschild_radius.
  simpl. lra.
Qed.

(** C3 fails for a single step: the one stored separation is the initial
    separation, 60, and not the ISCO radius, 6. *)
Lemma init_step_zero_single_step :
  exists ev',
    @Evo._init_step_zero Ex.consts Ex.cosmo Ex.cfg (Evo.__init__ Ex.pop 1 false) = inr ev'
    /\ nth (1 - 1) (nth 0 (Evo.sepa ev') []) 0 = 60
    /\ @Utils.rad_isco Ex.consts 1 1 = 6
    /\ nth (1 - 1) (nth 0 (Evo.sepa ev') []) 0 <> @Utils.rad_isco Ex.consts 1 1.
Proof.
  unfold Evo._init_step_zero. simpl. unfold Np.logspace. simpl.
  rewrite example_rad_isco, pow10_log10 by lra.
  eexists. split; [reflexivity|]. simpl. repeat split; lra.
Qed.

Lemma init_step_zero_tracks_witness :
  exists ev',
    @Evo._init_step_zero Ex.consts Ex.cosmo Ex.cfg (Evo.__init__ Ex.pop 3 false) = inr ev'
    /\ length (nth 0 (Evo.sepa ev') []) = 3%nat
    /\ nth 0 (nth 0 (Evo.sepa ev') []) 0 = 60
    /\ nth 2 (nth 0 (Evo.sepa ev') []) 0 = 3 * (1 * (1 + 1))
    /\ nth 0 (nth 0 (Evo.mass ev') []) (0, 0) = (1, 1).
Proof.
  assert (Hrun : exists ev',
    @Evo._init_step_zero Ex.consts Ex.cosmo Ex.cfg (Evo.__init__ Ex.pop 3 false) = inr ev').
  { unfold Evo._init_step_zero. simpl. eexists. reflexivity. }
  destruct Hrun as [ev' Hrun]. exists ev'. split; [exact Hrun|].
  destruct (@init_step_zero_tracks Ex.consts Ex.cosmo Ex.cfg Ex.pop 3 false ev' 0 60 1 1)
    as (H1 & H2 & H3 & _ & _ & _ & H7).
  - lia.
  - reflexivity.
  - reflexivity.
  - reflexivity.
  - intros pe E. injection E as <-. reflexivity.
  - exact Hrun.
  - simpl; lia.
  - reflexivity.
  - reflexivity.
  - lra.
  - simpl; lra.
  - lra.
  - repeat split; assumption.
Defined.

(** ** One step of the fixed-step integrator *)

Section TakeNextStep.

Context {consts : Constants} {cosmo : Evo.Cosmology} {quad : Evo.Quadrature}.
Variable cfg : Evo.Config.


Lemma eccen_step_trans a b c : eccen_step a b -> eccen_step b c -> eccen_step a c.
Proof. induction 1; intros; [assumption|]. econstructor. eauto. Qed.


Lemma same_frame_refl ev : same_frame ev ev.
Proof. repeat split; constructor. Qed.

Lemma same_frame_trans a b c : same_frame a b -> same_frame b c -> same_frame a c.
Proof.
  intros (A1 & A2 & A3 & A4 & A5 & A6) (B1 & B2 & B3 & B4 & B5 & B6).
  repeat split; try congruence. eapply eccen_step_trans; eauto.
Qed.

Lemma update_time_frame ev l r dt : same_frame ev (Evo.update_time ev l r dt).
Proof. unfold Evo.update_time. evo_simpl. repeat split; constructor. Qed.

Lemma accrete_frame ev step dt : same_frame ev (Evo.accrete cfg ev step dt).
Proof.
  unfold Evo.accrete. destruct (Evo._acc cfg); evo_simpl; repeat split; constructor.
Qed.

Lemma eccen_provisional_frame ev l r dl dt ev' :
  Evo.eccen_provisional ev l r dl dt = inr ev' -> same_frame ev ev'.
Proof.
  unfold Evo.eccen_provisional. intros H.
  destruct (Evo.eccen ev) as [e|] eqn:Ee.
  - destruct dl; minv H. subst ev'. evo_simpl. repeat split; auto.
    rewrite Ee. econstructor. constructor.
  - minv H. subst. apply same_frame_refl.
Qed.

Lemma eccen_corrected_frame ev l r ev' :
  Evo.eccen_corrected ev l r = inr ev' -> same_frame ev ev'.
Proof.
  unfold Evo.eccen_corrected. intros H.
  destruct (Evo.eccen ev) as [e|] eqn:Ee.
  - destruct (Evo.dedt ev); minv H. subst ev'. evo_simpl. repeat split; auto.
    rewrite Ee. econstructor. constructor.
  - minv H. subst. apply same_frame_refl.
Qed.

Lemma with_dadt_frame v ev : same_frame ev (Evo.with_dadt v ev).
Proof. repeat split; constructor. Qed.

Lemma with_dedt_frame v ev : same_frame ev (Evo.with_dedt v ev).
Proof. repeat split; constructor. Qed.

Lemma step_left_edge_frame ev l r ev' :
  Evo.step_left_edge cfg ev l r = inr ev' -> same_frame ev ev'.
Proof.
  unfold Evo.step_left_edge. intros H. minv H; subst ev'.
  all: eapply same_frame_trans; [eapply eccen_provisional_frame; eassumption|].
  all: eapply same_frame_trans; [apply update_time_frame|].
  all: eapply same_frame_trans; [apply with_dadt_frame|].
  all: try apply with_dedt_frame; apply same_frame_refl.
Qed.

Lemma step_right_edge_frame ev l r ev' :
  Evo.step_right_edge cfg ev l r = inr ev' -> same_frame ev ev'.
Proof.
  unfold Evo.step_right_edge. intros H. minv H; subst ev'.
  eapply same_frame_trans; [apply update_time_frame|].
  eapply same_frame_trans; [eapply eccen_corrected_frame; eassumption|].
  apply accrete_frame.
Qed.

Lemma take_next_step_frame ev step ev' :
  Evo._take_next_step cfg ev step = inr ev' -> same_frame ev ev'.
Proof.
  unfold Evo._take_next_step. intros H. minv H.
  eapply same_frame_trans; [eapply step_left_edge_frame; eassumption|].
  eapply step_right_edge_frame; eassumption.
Qed.

Lemma take_steps_frame steps ev ev' :
  Evo.take_steps cfg ev steps = inr ev' -> same_frame ev ev'.
Proof.
  unfold Evo.take_steps. revert ev.
  induction steps as [|s steps IH]; intros ev H; simpl in H.
  - minv H. subst. apply same_frame_refl.
  - destruct (Evo._take_next_step cfg ev s) as [e|ev1] eqn:E.
    + exfalso. cbn [bind ret] in H.
      assert (F : forall l, fold_left
                   (fun acc step => ev0 <- acc ;; Evo._take_next_step cfg ev0 step)
                   l (inl e) = inl e).
      { induction l; simpl; auto. }
      rewrite F in H. discriminate.
    + cbn [bind ret] in H.
      eapply same_frame_trans; [eapply take_next_step_frame; eassumption|].
      apply IH. exact H.
Qed.

(** *** The bounds of the eccentricity *)


Lemma clip_eccen_in_range x : eccen_in_range (Evo.clip_eccen x).
Proof.
  unfold eccen_in_range, Evo.clip_eccen, Np.clip, Evo._MAX_ECCEN_ONE_MINUS.
  unfold Rmin, Rmax.
  destruct (Rle_dec x 0); destruct (Rle_dec _ _); lra.
Qed.

Lemma set_col_in_range c vals e i :
  (forall s, eccen_in_range (nth s (nth i e []) 0)) ->
  ((i < length vals)%nat -> eccen_in_range (nth i vals 0)) ->
  forall s, eccen_in_range (nth s (nth i (Np.set_col c vals e) []) 0).
Proof.
  intros H Hval s.
  destruct (Nat.lt_ge_cases i (length vals)) as [Hv|Hv].
  - destruct (Nat.lt_ge_cases i (length e)) as [Hi|Hi].
    + rewrite (set_col_nth _ _ _ _ 0) by assumption.
      destruct (Nat.eq_dec s c) as [->|Hsc].
      * destruct (Nat.lt_ge_cases c (length (nth i e []))) as [Hc|Hc].
        -- rewrite upd_nth_same by exact Hc. apply Hval, Hv.
        -- rewrite nth_overflow by (rewrite upd_length; exact Hc).
           rewrite <- (nth_overflow (nth i e []) 0 Hc). apply H.
      * rewrite upd_nth_other by exact Hsc. apply H.
    + rewrite nth_overflow with (n := i) by (rewrite set_col_length; exact Hi).
      rewrite <- (nth_overflow e [] Hi). apply H.
  - rewrite set_col_nth_beyond by exact Hv. apply H.
Qed.

Lemma set_col_clip_in_range c xs e i :
  (forall s, eccen_in_range (nth s (nth i e []) 0)) ->
  forall s, eccen_in_range (nth s (nth i (Np.set_col c (map Evo.clip_eccen xs) e) []) 0).
Proof.
  intros H. apply set_col_in_range; [exact H|].
  rewrite length_map. intros Hv.
  rewrite (nth_map_in _ _ _ _ 0) by exact Hv. apply clip_eccen_in_range.
Qed.

Lemma zeros2_in_range n m i s :
  eccen_in_range (nth s (nth i (Np.zeros2 0 n m) []) 0).
Proof.
  assert (Z : eccen_in_range 0)
    by (unfold eccen_in_range, Evo._MAX_ECCEN_ONE_MINUS; lra).
  destruct (Nat.lt_ge_cases i n) as [Hi|Hi].
  - rewrite zeros2_nth by exact Hi. rewrite nth_repeat. exact Z.
  - rewrite nth_overflow with (n := i)
      by (unfold Np.zeros2; rewrite repeat_length; exact Hi).
    destruct s; exact Z.
Qed.

Lemma eccen_step_in_range o o' i :
  eccen_step o o' ->
  (forall e, o = Some e -> forall s, eccen_in_range (nth s (nth i e []) 0)) ->
  forall e', o' = Some e' -> forall s, eccen_in_range (nth s (nth i e' []) 0).
Proof.
  induction 1 as [o|e c xs o Hstep IH]; intros H; [exact H|].
  apply IH. intros e1 E1. injection E1 as <-.
  apply set_col_clip_in_range. apply H. reflexivity.
Qed.

(** *** The end of the evolution *)


Lemma fold_modifiers_inv (P : Evo.Evolution -> Evo.Evolution -> Prop)
    (ms : list Evo.Modifier) :
  (forall ev, P ev ev) ->
  (forall a b c, P a b -> P b c -> P a c) ->
  (forall m ev1 ev2, In m ms -> m ev1 = inr ev2 -> P ev1 ev2) ->
  forall ev ev',
    fold_left (fun acc (modifier : Evo.Modifier) => ev <- acc ;; modifier ev) ms (inr ev)
    = inr ev' ->
    P ev ev'.
Proof.
  intros Hrefl Htrans. induction ms as [|m ms IH]; intros Hm ev ev' H; simpl in H.
  - injection H as <-. apply Hrefl.
  - destruct (m ev) as [e|ev1] eqn:E.
    + exfalso.
      assert (F : forall l, fold_left
                   (fun acc (modifier : Evo.Modifier) => ev <- acc ;; modifier ev)
                   l (inl e) = inl e).
      { induction l; simpl; auto. }
      rewrite F in H. discriminate.
    + eapply Htrans; [apply (Hm m); [left; reflexivity|exact E]|].
      apply IH; [|exact H]. intros; eapply Hm; [right|]; eassumption.
Qed.

Lemma finalize_eccen ev ev' :
  mods_keep_eccen cfg ->
  Evo._finalize cfg ev = inr ev' -> Evo.eccen ev' = Evo.eccen ev.
Proof.
  intros Hmods H. unfold Evo._finalize, Evo.modify, Evo._check_evolved in H.
  evo_simpl. minv H. subst.
  change (Evo.eccen ev) with (Evo.eccen (Evo.with_evolved true ev)).
  destruct (Evo._mods cfg) as [ms|] eqn:Ems.
  - apply (fold_modifiers_inv (fun a b => Evo.eccen b = Evo.eccen a) ms); auto.
    + intros; congruence.
    + intros; eapply Hmods; eassumption.
  - simpl in E. injection E as <-. reflexivity.
Qed.

(** C6.  When the evolution completes, every stored eccentricity of a
    binary whose initial eccentricity lies in [0, 1 - 1e-6] lies in that
    interval. *)
Theorem evolve_eccen_bounds pop nsteps debug ev' pe e i s :
  mods_keep_eccen cfg ->
  Evo.evolve cfg (Evo.__init__ pop nsteps debug) = inr ev' ->
  Evo.p_eccen pop = Some pe ->
  0 <= nth i pe 0 <= 1 - Evo._MAX_ECCEN_ONE_MINUS ->
  Evo.eccen ev' = Some e ->
  0 <= nth s (nth i e []) 0 <= 1 - Evo._MAX_ECCEN_ONE_MINUS.
Proof.
  intros Hmods Hrun Hpe Hi He. unfold Evo.evolve in Hrun. minv Hrun.
  apply init_step_zero_inv in E.
  destruct E as (_ & _ & _ & _ & _ & _ & _ & _ & Hecc0).
  apply take_steps_frame in E0. destruct E0 as (_ & _ & _ & _ & _ & Hstep).
  apply finalize_eccen in Hrun; [|exact Hmods].
  rewrite Hrun in He.
  cbn [Evo.__init__ Evo._pop Evo.eccen] in Hecc0. rewrite Hpe in Hecc0.
  cbn [option_map] in Hecc0.
  revert s. eapply eccen_step_in_range; [exact Hstep| |exact He].
  intros ez Ez. rewrite Hecc0 in Ez. injection Ez as <-.
  apply set_col_in_range; [apply zeros2_in_range|]. intros _. exact Hi.
Qed.

End TakeNextStep.

(** ** Locating a target on a track *)

Lemma first_true_spec l :
  match Np.first_true l with
  | Some k => nth k l false = true /\ forall k', (k' < k)%nat -> nth k' l false = false
  | None => forall k, nth k l false = false
  end.
Proof.
  induction l as [|b l IH]; simpl.
  - intros [|k]; reflexivity.
  - destruct b.
    + split; [reflexivity|]. intros k' H. lia.
    + destruct (Np.first_true l) as [k|]; simpl.
      * destruct IH as [H1 H2]. split; [exact H1|].
        intros [|k'] H; [reflexivity|]. apply H2. lia.
      * intros [|k]; [reflexivity|]. apply IH.
Qed.

Lemma first_true_unique l s :
  nth s l false = true ->
  (forall k, (k < s)%nat -> nth k l false = false) ->
  Np.first_true l = Some s.
Proof.
  intros Hs Hlt. pose proof (first_true_spec l) as H.
  destruct (Np.first_true l) as [k|].
  - destruct H as [H1 H2]. f_equal.
    destruct (Nat.lt_trichotomy k s) as [L|[E|G]]; [|exact E|].
    + rewrite Hlt in H1 by exact L. discriminate.
    + rewrite H2 in Hs by exact G. discriminate.
  - rewrite H in Hs. discriminate.
Qed.

Lemma sorted_nth_le l i j :
  StronglySorted Rle l -> (i <= j)%nat -> (j < length l)%nat ->
  nth i l 0 <= nth j l 0.
Proof.
  intros Hs. revert i j. induction Hs as [|x l Hs IH Hall]; intros i j Hij Hj; simpl in Hj.
  - lia.
  - destruct i, j; simpl; try lia; try lra.
    + rewrite Forall_forall in Hall. apply Hall, nth_In. lia.
    + apply IH; lia.
Qed.

Lemma sorted_nth_lt l i j :
  StronglySorted Rlt l -> (i < j)%nat -> (j < length l)%nat ->
  nth i l 0 < nth j l 0.
Proof.
  intros Hs. revert i j. induction Hs as [|x l Hs IH Hall]; intros i j Hij Hj; simpl in Hj.
  - lia.
  - destruct i, j; simpl; try lia.
    + rewrite Forall_forall in Hall. apply Hall, nth_In. lia.
    + apply IH; lia.
Qed.

Lemma hd_nth {A} (l : list A) d : hd d l = nth 0 l d.
Proof. destruct l; reflexivity. Qed.

Lemma last_nth {A} (l : list A) d : last l d = nth (length l - 1) l d.
Proof.
  induction l as [|x [|y l] IH]; try reflexivity.
  change (last (x :: y :: l) d) with (last (y :: l) d). rewrite IH.
  simpl. rewrite Nat.sub_0_r. reflexivity.
Qed.

Section IndexFrac.

Context {cosmo : Evo.Cosmology} {quad : Evo.Quadrature}.

(** On an increasing track, a target is valid exactly when it lies above
    the first value and not above the last one. *)
Lemma index_frac_valid xn xo :
  StronglySorted Rle xo -> xo <> [] ->
  (Evo.valid (Evo.index_frac xn xo) = true <-> hd 0 xo < xn <= last xo 0).
Proof.
  intros Hs Hne. unfold Evo.index_frac. cbn [Evo.valid]. unfold Np.argmax.
  set (sel := map (fun x => Rleb xn x) xo).
  assert (Hlen : length sel = length xo) by (unfold sel; apply length_map).
  assert (Hsel : forall k, (k < length xo)%nat -> nth k sel false = Rleb xn (nth k xo 0)).
  { intros k Hk. unfold sel. apply (nth_map_in (fun x => Rleb xn x)). exact Hk. }
  assert (Hpos : (0 < length xo)%nat) by (destruct xo; [congruence|simpl; lia]).
  rewrite hd_nth, last_nth.
  pose proof (first_true_spec sel) as H.
  destruct (Np.first_true sel) as [k|]; split.
  - intros Hk. apply Nat.ltb_lt in Hk. destruct H as [H1 H2].
    assert (Hkl : (k < length xo)%nat).
    { destruct (Nat.lt_ge_cases k (length xo)); [assumption|].
      rewrite nth_overflow in H1 by lia. discriminate. }
    split.
    + specialize (H2 O Hk). rewrite Hsel in H2 by exact Hpos.
      apply Rleb_false in H2. exact H2.
    + rewrite Hsel in H1 by exact Hkl. apply Rleb_true in H1.
      assert (nth k xo 0 <= nth (length xo - 1) xo 0)
        by (apply sorted_nth_le; [exact Hs|lia|lia]).
      lra.
  - intros [Hlo Hhi]. apply Nat.ltb_lt. destruct H as [H1 H2].
    destruct k; [|lia]. exfalso.
    rewrite Hsel in H1 by exact Hpos. apply Rleb_true in H1. lra.
  - intros Hk. discriminate.
  - intros [Hlo Hhi]. exfalso.
    specialize (H (length xo - 1)%nat). rewrite Hsel in H by lia.
    apply Rleb_false in H. lra.
Qed.

(** On a strictly increasing track, the target equal to the value of a
    step other than the first is located at that step, a full step after
    the step before. *)
Lemma index_frac_at_step xo s :
  StronglySorted Rlt xo -> (1 <= s)%nat -> (s < length xo)%nat ->
  Evo.index_frac (nth s xo 0) xo
  = {| Evo.aft := s; Evo.bef := s - 1; Evo.interp_frac := 1; Evo.valid := true |}.
Proof.
  intros Hs H1 Hlen. unfold Evo.index_frac, Np.argmax.
  rewrite (first_true_unique _ s).
  - replace (0 <? s)%nat with true by (symmetry; apply Nat.ltb_lt; lia).
    pose proof (sorted_nth_lt xo (s - 1) s Hs) as Hlt.
    assert (nth (s - 1) xo 0 < nth s xo 0) by (apply Hlt; lia).
    replace (Reqb (nth s xo 0 - nth (s - 1) xo 0) 0) with false
      by (symmetry; apply Reqb_false; lra).
    f_equal. field. lra.
  - rewrite (nth_map_in (fun x => Rleb (nth s xo 0) x) _ _ _ 0) by exact Hlen.
    apply Rleb_true. lra.
  - intros k Hk.
    rewrite (nth_map_in (fun x => Rleb (nth s xo 0) x) _ _ _ 0) by lia.
    apply Rleb_false. apply sorted_nth_lt; assumption.
Qed.

End IndexFrac.

(** ** The rows of the interpolated arrays *)

Lemma map2_map_map {A B C D} (f : B -> C -> D) (g : A -> B) (h : A -> C) l :
  Np.map2 f (map g l) (map h l) = map (fun x => f (g x) (h x)) l.
Proof. induction l as [|x l IH]; simpl; [reflexivity|]. rewrite IH. reflexivity. Qed.

Lemma map_map_fusion {A B C} (f : A -> B) (g : B -> C) l :
  map g (map f l) = map (fun x => g (f x)) l.
Proof. apply map_map. Qed.

Section AtRows.

Context {cosmo : Evo.Cosmology} {quad : Evo.Quadrature}.

Lemma index_frac_row xnew xold i :
  (i < length xold)%nat ->
  nth i (Evo._at__index_frac xnew xold) []
  = map (fun xn => Evo.index_frac xn (nth i xold [])) xnew.
Proof.
  intros Hi. unfold Evo._at__index_frac.
  apply (nth_map_in (fun xo => map (fun xn => Evo.index_frac xn xo) xnew)). exact Hi.
Qed.

Lemma index_frac_length xnew xold :
  length (Evo._at__index_frac xnew xold) = length xold.
Proof. unfold Evo._at__index_frac. apply length_map. Qed.

Lemma valid_mask_length ev scafa xnew xold :
  (length xold <= length scafa)%nat ->
  length (Evo.valid_mask ev false scafa (Evo._at__index_frac xnew xold)) = length xold.
Proof.
  intros H. unfold Evo.valid_mask.
  rewrite !map2_length, length_map, index_frac_length. lia.
Qed.

Lemma valid_mask_row ev scafa xnew xold i :
  (i < length xold)%nat -> (i < length scafa)%nat ->
  nth i (Evo.valid_mask ev false scafa (Evo._at__index_frac xnew xold)) []
  = map (fun xn => Evo.valid (Evo.index_frac xn (nth i xold []))) xnew.
Proof.
  intros Hi Hs. unfold Evo.valid_mask.
  assert (Hf : forall pick,
    nth i (Np.map2 (fun srow crow =>
                      map (fun c => isfinite (nth (pick c) srow 0)) crow)
             scafa (Evo._at__index_frac xnew xold)) []
    = map (fun _ => true) (nth i (Evo._at__index_frac xnew xold) [])).
  { intros pick. rewrite (map2_nth _ _ _ _ [] []) by (rewrite ?index_frac_length; lia).
    reflexivity. }
  rewrite (map2_nth _ _ _ _ [] [])
    by (rewrite ?map2_length, ?length_map, ?index_frac_length; lia).
  rewrite (map2_nth _ _ _ _ [] [])
    by (rewrite ?map2_length, ?length_map, ?index_frac_length; lia).
  rewrite !Hf.
  rewrite (nth_map_in (map Evo.valid) _ _ _ []) by (rewrite index_frac_length; lia).
  rewrite !map2_map_map.
  rewrite index_frac_row by exact Hi. rewrite map_map.
  apply map_ext. intros xn. rewrite !andb_true_r. reflexivity.
Qed.

(** The row of binary [i] in the interpolated array of a parameter: per
    target, the interpolated value, or [np.nan] where the target is not
    valid. *)
Lemma fill_rows {A B} (f : list A -> list Evo.IndexFrac -> list B) (g : list A -> Evo.IndexFrac -> B)
    ev scafa xnew xold (y : list (list A)) i :
  (forall row cf, f row cf = map (g row) cf) ->
  (i < length xold)%nat -> (i < length scafa)%nat -> (i < length y)%nat ->
  (length xold <= length scafa)%nat ->
  nth i (Np.map2 Evo.fill_invalid
           (Evo.valid_mask ev false scafa (Evo._at__index_frac xnew xold))
           (Np.map2 f y (Evo._at__index_frac xnew xold))) []
  = map (fun xn =>
           let c := Evo.index_frac xn (nth i xold []) in
           if Evo.valid c then Some (g (nth i y []) c) else None) xnew.
Proof.
  intros Hf Hi Hs Hy Hle.
  rewrite (map2_nth _ _ _ _ [] [])
    by (rewrite ?valid_mask_length, ?map2_length, ?index_frac_length; lia).
  rewrite valid_mask_row by assumption.
  rewrite (map2_nth _ _ _ _ [] []) by (rewrite ?index_frac_length; lia).
  rewrite Hf, index_frac_row by exact Hi.
  unfold Evo.fill_invalid. rewrite map_map, map2_map_map. reflexivity.
Qed.

End AtRows.

(** ** Logarithms keep the order *)

Lemma log10_lt_iff (a b : R) : 0 < a -> 0 < b -> (Np.log10 a < Np.log10 b <-> a < b).
Proof.
  intros Ha Hb. unfold Np.log10. pose proof ln10_pos as H10. split; intros H.
  - apply ln_lt_inv; try assumption.
    apply (Rmult_lt_reg_r (/ ln 10)); [apply Rinv_0_lt_compat; exact H10|exact H].
  - apply Rmult_lt_compat_r; [apply Rinv_0_lt_compat; exact H10|].
    apply ln_increasing; assumption.
Qed.

Lemma log10_le_iff (a b : R) : 0 < a -> 0 < b -> (Np.log10 a <= Np.log10 b <-> a <= b).
Proof.
  intros Ha Hb.
  pose proof (log10_lt_iff b a Hb Ha) as H. split; intros Hle.
  - destruct (Rle_lt_dec a b) as [L|G]; [exact L|]. apply H in G. lra.
  - destruct (Rle_lt_dec (Np.log10 a) (Np.log10 b)) as [L|G]; [exact L|]. apply H in G. lra.
Qed.

Lemma log10_sorted_le l :
  Forall (Rlt 0) l -> StronglySorted Rle l -> StronglySorted Rle (map Np.log10 l).
Proof.
  intros Hpos Hs. induction Hs as [|x l Hs IH Hall]; simpl; [constructor|].
  inversion Hpos as [|? ? Hx Hl]; subst.
  constructor; [apply IH; exact Hl|].
  rewrite Forall_forall in *. intros y Hy. apply in_map_iff in Hy.
  destruct Hy as (z & <- & Hz). apply log10_le_iff; auto.
Qed.

Lemma log10_sorted_lt l :
  Forall (Rlt 0) l -> StronglySorted Rlt l -> StronglySorted Rlt (map Np.log10 l).
Proof.
  intros Hpos Hs. induction Hs as [|x l Hs IH Hall]; simpl; [constructor|].
  inversion Hpos as [|? ? Hx Hl]; subst.
  constructor; [apply IH; exact Hl|].
  rewrite Forall_forall in *. intros y Hy. apply in_map_iff in Hy.
  destruct Hy as (z & <- & Hz). apply log10_lt_iff; auto.
Qed.

(** ** The arguments of [at] *)

Section AtInputs.

Context {cosmo : Evo.Cosmology} {quad : Evo.Quadrature}.

Lemma at_inputs_inv ev xpar targets params lin xnew xold ps lil rev :
  Evo._at__inputs ev xpar targets params lin = inr (xnew, xold, ps, lil, rev) ->
  Evo._evolved ev = true
  /\ xnew = map Np.log10 targets
  /\ ps = match params with None => Evo._EVO_PARS | Some l => l end
  /\ lil = match lin with
           | Evo.LI_None => Evo._LIN_INTERP_PARS
           | Evo.LI_List l => l
           | Evo.LI_Bool true => ps
           | Evo.LI_Bool false => []
           end
  /\ rev = negb (String.eqb xpar XPar.fobs)
  /\ exists X, Evo.xtracks ev xpar = inr X /\ xold = map (map Np.log10) X.
Proof.
  unfold Evo._at__inputs, Evo._check_evolved, Evo.xtracks. intros H.
  destruct (Evo._evolved ev); [|discriminate H].
  minv H. subst.
  split; [reflexivity|].
  assert (Hlil : lil = match lin with
           | Evo.LI_None => Evo._LIN_INTERP_PARS
           | Evo.LI_List l => l
           | Evo.LI_Bool true => match params with None => Evo._EVO_PARS | Some l => l end
           | Evo.LI_Bool false => []
           end).
  { destruct lin as [|l|[|]]; try (injection E0 as <-; reflexivity).
    destruct (forallb _ l); [injection E0 as <-; reflexivity|discriminate E0]. }
  destruct (String.eqb xpar XPar.fobs) eqn:Ef.
  - destruct (Evo.freq_orb_obs ev) as [e|F] eqn:EF; [discriminate E1|].
    cbn [bind] in E1. injection E1 as <- <- <-.
    repeat split; auto. exists F. split; reflexivity.
  - injection E1 as <- <- <-.
    repeat split; auto. eexists. split; [reflexivity|].
    rewrite map_map. apply map_ext. intros row. symmetry. apply map_rev.
Qed.

Lemma at_inv ev xpar targets params coal_only lin res :
  Evo.at_ ev xpar targets params coal_only lin = inr res ->
  exists xnew xold ps lil rev,
    Evo._at__inputs ev xpar targets params lin = inr (xnew, xold, ps, lil, rev)
    /\ res
       = map (fun par =>
                (par, option_map
                        (Evo.at_param rev (Evo.par_in par lil)
                           (Evo._at__index_frac xnew xold)
                           (Evo.valid_mask ev coal_only
                              (if rev then map (@List.rev R) (Evo.scafa ev)
                               else Evo.scafa ev)
                              (Evo._at__index_frac xnew xold)))
                        (Evo.getattr ev par))) ps.
Proof.
  unfold Evo.at_. intros H.
  destruct (Evo._at__inputs ev xpar targets params lin)
    as [e|[[[[xnew xold] ps] lil] rev]]; [discriminate H|].
  cbn [bind] in H. injection H as <-.
  exists xnew, xold, ps, lil, rev. split; reflexivity.
Qed.

End AtInputs.

(** ** The entries of the result of [at] *)

Section AtEntries.

Context {cosmo : Evo.Cosmology} {quad : Evo.Quadrature}.

Lemma xtracks_length ev xpar X :
  Evo.well_shaped ev -> Evo.xtracks ev xpar = inr X ->
  length X = fst (Evo._shape ev).
Proof.
  intros (Hsc & _ & Hse & Hm & _) H. unfold Evo.xtracks in H.
  destruct Hsc as [Hsc _], Hse as [Hse _], Hm as [Hm _].
  destruct (String.eqb xpar XPar.fobs).
  - unfold Evo.freq_orb_obs, Evo.freq_orb_rest in H. minv H. subst.
    minv E. subst. rewrite !map2_length, !length_map. lia.
  - injection H as <-. rewrite length_map. exact Hse.
Qed.

Lemma getattr_scalar_length ev par y :
  Evo.well_shaped ev -> Evo.getattr ev par = Some (Evo.Scalar y) ->
  length y = fst (Evo._shape ev).
Proof.
  intros (Hsc & Htl & Hse & Hm & Hda & Hec & Hde) H.
  destruct par; simpl in H; try discriminate H.
  - injection H as <-. apply Hse.
  - destruct (Evo.eccen ev) as [e|] eqn:E; [|discriminate H].
    injection H as <-. apply (Hec e). reflexivity.
  - injection H as <-. apply Hsc.
  - injection H as <-. apply Htl.
  - injection H as <-. apply Hda.
  - destruct (Evo.dedt ev) as [d|] eqn:E; [|discriminate H].
    injection H as <-. apply (Hde d). reflexivity.
Qed.

Lemma getattr_double ev par m :
  Evo.getattr ev par = Some (Evo.Double m) -> par = Evo.Mass /\ m = Evo.mass ev.
Proof.
  destruct par; simpl; intros H; try discriminate H.
  - injection H as <-. split; reflexivity.
  - destruct (Evo.eccen ev); discriminate H.
  - destruct (Evo.dedt ev); discriminate H.
Qed.


(** Every entry of the result is the interpolated value where the target
    is valid on the track of the binary, and [np.nan] elsewhere. *)
Lemma at_entry ev xpar targets params lin res X i j par I :
  Evo.at_ ev xpar targets params false lin = inr res ->
  Evo.xtracks ev xpar = inr X ->
  Evo.well_shaped ev ->
  (i < fst (Evo._shape ev))%nat -> (j < length targets)%nat ->
  In (par, Some I) res ->
  let c := Evo.index_frac (Np.log10 (nth j targets 0)) (map Np.log10 (nth i X [])) in
  let rev := negb (String.eqb xpar XPar.fobs) in
  exists lil,
    lil = match lin with
          | Evo.LI_None => Evo._LIN_INTERP_PARS
          | Evo.LI_List l => l
          | Evo.LI_Bool true => match params with None => Evo._EVO_PARS | Some l => l end
          | Evo.LI_Bool false => []
          end
    /\ ((exists y a, Evo.getattr ev par = Some (Evo.Scalar y) /\ I = Evo.IScalar a
           /\ nth j (nth i a []) None
              = if Evo.valid c
                then Some (scalar_value rev (Evo.par_in par lil) (nth i y []) c)
                else None)
        \/ (exists a, par = Evo.Mass /\ I = Evo.IDouble a
              /\ nth j (nth i a []) None
                 = if Evo.valid c
                   then Some (double_value rev (Evo.par_in par lil)
                                (nth i (Evo.mass ev) []) c)
                   else None)).
Proof.
  intros Hat HX Hws Hi Hj Hin c rev.
  apply at_inv in Hat. destruct Hat as (xnew & xold & ps & lil & rev' & Hinp & ->).
  apply at_inputs_inv in Hinp.
  destruct Hinp as (_ & -> & -> & -> & -> & X' & HX' & ->).
  rewrite HX in HX'. injection HX' as <-.
  pose proof (xtracks_length _ _ _ Hws HX) as HlenX.
  eexists. split; [reflexivity|].
  apply in_map_iff in Hin. destruct Hin as (par' & E & _).
  injection E as -> E.
  destruct (Evo.getattr ev par) as [[y|m]|] eqn:Eg; [| |discriminate E].
  - left. cbn [option_map] in E. injection E as <-.
    exists y. eexists. split; [reflexivity|]. split; [reflexivity|].
    pose proof (getattr_scalar_length _ _ _ Hws Eg) as Hly.
    destruct Hws as ((Hsc & _) & _).
    set (flag := Evo.par_in par _).
    rewrite (fill_rows _ (fun row c' => Evo.interpolate flag
               (nth (Evo.aft c') row 0) (nth (Evo.bef c') row 0) (Evo.interp_frac c')));
      try (rewrite ?length_map; destruct (negb _); rewrite ?length_map; lia);
      [|intros; reflexivity].
    rewrite (nth_map_in _ _ _ _ 0) by (rewrite length_map; exact Hj).
    rewrite (nth_map_in Np.log10 _ _ _ 0) by exact Hj.
    rewrite (nth_map_in (map Np.log10) _ _ _ []) by lia.
    cbv zeta. fold c. destruct (Evo.valid c); [|reflexivity].
    f_equal. unfold scalar_value. fold rev.
    destruct rev; [|reflexivity].
    rewrite (nth_map_in (@List.rev R) _ _ _ []) by lia. reflexivity.
  - right. apply getattr_double in Eg. destruct Eg as [-> ->].
    cbn [option_map] in E. injection E as <-.
    eexists. split; [reflexivity|]. split; [reflexivity|].
    destruct Hws as ((Hsc & _) & _ & _ & (Hm & _) & _).
    set (flag := Evo.par_in Evo.Mass _).
    rewrite (fill_rows _ (fun row c' =>
               (Evo.interpolate flag
                  (fst (nth (Evo.aft c') row (0, 0))) (fst (nth (Evo.bef c') row (0, 0)))
                  (Evo.interp_frac c'),
                Evo.interpolate flag
                  (snd (nth (Evo.aft c') row (0, 0))) (snd (nth (Evo.bef c') row (0, 0)))
                  (Evo.interp_frac c'))));
      try (rewrite ?length_map; destruct (negb _); rewrite ?length_map; lia);
      [|intros; reflexivity].
    rewrite (nth_map_in _ _ _ _ 0) by (rewrite length_map; exact Hj).
    rewrite (nth_map_in Np.log10 _ _ _ 0) by exact Hj.
    rewrite (nth_map_in (map Np.log10) _ _ _ []) by lia.
    cbv zeta. fold c. destruct (Evo.valid c); [|reflexivity].
    f_equal. unfold double_value. fold rev.
    destruct rev; [|reflexivity].
    rewrite (nth_map_in (map (fun m : R * R => (snd m, fst m))) _ _ _ []) by lia.
    reflexivity.
Qed.

End AtEntries.

Section AtBounds.

Context {cosmo : Evo.Cosmology} {quad : Evo.Quadrature}.

Lemma log10_track_valid t Xi :
  0 < t -> Forall (Rlt 0) Xi -> StronglySorted Rle Xi -> Xi <> [] ->
  (Evo.valid (Evo.index_frac (Np.log10 t) (map Np.log10 Xi)) = true
   <-> hd 0 Xi < t <= last Xi 0).
Proof.
  intros Ht Hpos Hs Hne.
  rewrite index_frac_valid;
    [|apply log10_sorted_le; assumption
     |intros E; apply Hne; destruct Xi; [reflexivity|discriminate E]].
  assert (Hlen : (0 < length Xi)%nat) by (destruct Xi; [congruence|simpl; lia]).
  rewrite !hd_nth, !last_nth, length_map.
  rewrite !(nth_map_in Np.log10 _ _ _ 0) by lia.
  rewrite Forall_forall in Hpos.
  assert (H0 : 0 < nth 0 Xi 0) by (apply Hpos, nth_In; lia).
  assert (H1 : 0 < nth (length Xi - 1) Xi 0) by (apply Hpos, nth_In; lia).
  rewrite log10_lt_iff, log10_le_iff by assumption. reflexivity.
Qed.


End AtBounds.

(** ** Interpolating a track to its own values *)

Lemma sorted_snoc l x :
  StronglySorted Rlt l -> Forall (fun y => y < x) l -> StronglySorted Rlt (l ++ [x]).
Proof.
  induction 1 as [|y l Hs IH Hall]; intros Hx; simpl.
  - repeat constructor.
  - inversion Hx as [|? ? Hyx Hl]; subst.
    constructor; [apply IH; exact Hl|].
    apply Forall_app. split; [exact Hall|]. constructor; [exact Hyx|constructor].
Qed.

Lemma sorted_rev l :
  StronglySorted Rgt l -> StronglySorted Rlt (rev l).
Proof.
  induction 1 as [|x l Hs IH Hall]; simpl; [constructor|].
  apply sorted_snoc; [exact IH|].
  rewrite Forall_forall in *. intros y Hy. apply in_rev in Hy.
  apply Hall in Hy. unfold Rgt in Hy. exact Hy.
Qed.

Section RoundTrip.

Context {cosmo : Evo.Cosmology} {quad : Evo.Quadrature}.

Lemma interpolate_full_step flag ya yb :
  flag = true \/ 0 < ya ->
  Evo.interpolate flag ya yb 1 = ya.
Proof.
  intros H. unfold Evo.interpolate. destruct flag.
  - ring.
  - destruct H as [H|H]; [discriminate H|].
    replace (Np.log10 yb + (Np.log10 ya - Np.log10 yb) * 1) with (Np.log10 ya) by ring.
    apply pow10_log10, H.
Qed.

Lemma index_frac_own_value Xi k :
  Forall (Rlt 0) Xi -> StronglySorted Rlt Xi -> (1 <= k < length Xi)%nat ->
  Evo.index_frac (Np.log10 (nth k Xi 0)) (map Np.log10 Xi)
  = {| Evo.aft := k; Evo.bef := k - 1; Evo.interp_frac := 1; Evo.valid := true |}.
Proof.
  intros Hpos Hs Hk.
  rewrite <- (nth_map_in Np.log10 Xi k 0 0) by lia.
  apply index_frac_at_step; [apply log10_sorted_lt; assumption|lia|].
  rewrite length_map. lia.
Qed.

End RoundTrip.

Section RoundTripAt.

Context {cosmo : Evo.Cosmology} {quad : Evo.Quadrature}.

Lemma has_shape_row {A} n s (a : list (list A)) i :
  Evo.has_shape n s a -> (i < n)%nat -> length (nth i a []) = s.
Proof.
  intros [Hn Hrows] Hi. rewrite Forall_forall in Hrows.
  apply Hrows, nth_In. lia.
Qed.

Lemma getattr_scalar_shape ev par y :
  Evo.well_shaped ev -> Evo.getattr ev par = Some (Evo.Scalar y) ->
  Evo.has_shape (fst (Evo._shape ev)) (snd (Evo._shape ev)) y.
Proof.
  intros (Hsc & Htl & Hse & Hm & Hda & Hec & Hde) H.
  destruct par; simpl in H; try discriminate H.
  - injection H as <-. apply Hse.
  - destruct (Evo.eccen ev) as [e|] eqn:E; [|discriminate H].
    injection H as <-. apply (Hec e). reflexivity.
  - injection H as <-. apply Hsc.
  - injection H as <-. apply Htl.
  - injection H as <-. apply Hda.
  - destruct (Evo.dedt ev) as [d|] eqn:E; [|discriminate H].
    injection H as <-. apply (Hde d). reflexivity.
Qed.

(** C2, away from the smallest stored value.  On a positive, strictly
    monotonic track, [at] with the stored value of the independent
    variable at a step as target returns the stored values of that step,
    not [np.nan]: for the frequency at every step but step 0, for the
    separation at every step but the last.  A parameter that is
    interpolated in log space must be positive at that step and at the
    neighbouring step that the interpolation reads with it: the step
    before for the frequency, the step after for the separation. *)
Theorem at_round_trip ev targets params lin i j s :
  Evo.well_shaped ev ->
  (i < fst (Evo._shape ev))%nat -> (j < length targets)%nat ->
  (forall F res par I,
     Evo.freq_orb_obs ev = inr F ->
     let x := nth i F [] in
     Forall (Rlt 0) x -> StronglySorted Rlt x ->
     (1 <= s < length x)%nat ->
     nth j targets 0 = nth s x 0 ->
     Evo.at_ ev XPar.fobs targets params false lin = inr res ->
     In (par, Some I) res ->
     let flag := Evo.lin_interp_flag params lin par in
     (forall y, Evo.getattr ev par = Some (Evo.Scalar y) ->
        flag = true \/ (0 < Evo.stored y i s /\ 0 < Evo.stored y i (s - 1)) ->
        Evo.scalar_entry I i j = Some (Evo.stored y i s))
     /\ (par = Evo.Mass ->
         flag = true
         \/ (0 < fst (Evo.stored2 (Evo.mass ev) i s)
             /\ 0 < snd (Evo.stored2 (Evo.mass ev) i s)
             /\ 0 < fst (Evo.stored2 (Evo.mass ev) i (s - 1))
             /\ 0 < snd (Evo.stored2 (Evo.mass ev) i (s - 1))) ->
         Evo.double_entry I i j = Some (Evo.stored2 (Evo.mass ev) i s)))
  /\ (forall res par I y,
     let x := nth i (Evo.sepa ev) [] in
     Forall (Rlt 0) x -> StronglySorted Rgt x ->
     (S s < snd (Evo._shape ev))%nat ->
     nth j targets 0 = nth s x 0 ->
     Evo.at_ ev XPar.sepa targets params false lin = inr res ->
     In (par, Some I) res ->
     Evo.getattr ev par = Some (Evo.Scalar y) ->
     Evo.lin_interp_flag params lin par = true
     \/ (0 < Evo.stored y i s /\ 0 < Evo.stored y i (S s)) ->
     Evo.scalar_entry I i j = Some (Evo.stored y i s)).
Proof.
  intros Hws Hi Hj. split.
  - intros F res par I HF x Hpos Hs Hks Ht Hat Hin flag.
    assert (HX : Evo.xtracks ev XPar.fobs = inr F) by exact HF.
    destruct (at_entry _ _ _ _ _ _ _ _ _ _ _ Hat HX Hws Hi Hj Hin) as (lil & -> & Hentry).
    fold x in Hentry. rewrite Ht in Hentry.
    rewrite index_frac_own_value in Hentry by assumption.
    cbn [Evo.valid] in Hentry.
    change (negb (String.eqb XPar.fobs XPar.fobs)) with false in Hentry.
    fold (Evo.lin_interp_flag params lin par) in Hentry. fold flag in Hentry.
    split.
    + intros y Hy Hflag.
      destruct Hentry as [(y' & a & Hy' & -> & E)|(a & -> & -> & E)];
        [|simpl in Hy; discriminate Hy].
      rewrite Hy in Hy'. injection Hy' as <-.
      unfold Evo.scalar_entry. rewrite E. f_equal.
      unfold scalar_value. cbn [Evo.aft Evo.bef Evo.interp_frac].
      apply interpolate_full_step. tauto.
    + intros -> Hflag.
      destruct Hentry as [(y' & a & Hy' & -> & E)|(a & _ & -> & E)];
        [simpl in Hy'; discriminate Hy'|].
      unfold Evo.double_entry. rewrite E. f_equal.
      unfold double_value. cbn [Evo.aft Evo.bef Evo.interp_frac].
      unfold Evo.stored2 in *.
      rewrite !interpolate_full_step by tauto.
      symmetry. apply surjective_pairing.
  - intros res par I y x Hpos Hs Hks Ht Hat Hin Hy Hflag.
    assert (HX : Evo.xtracks ev XPar.sepa = inr (map (@List.rev R) (Evo.sepa ev)))
      by reflexivity.
    destruct (at_entry _ _ _ _ _ _ _ _ _ _ _ Hat HX Hws Hi Hj Hin) as (lil & -> & Hentry).
    pose proof Hws as (_ & _ & Hse & _).
    assert (Hlx : length x = snd (Evo._shape ev))
      by (apply (has_shape_row _ _ _ _ Hse Hi)).
    assert (Hly : length (nth i y []) = snd (Evo._shape ev))
      by (apply (has_shape_row _ _ _ _ (getattr_scalar_shape _ _ _ Hws Hy) Hi)).
    rewrite (nth_map_in (@List.rev R) _ _ _ []) in Hentry by (destruct Hse; lia).
    fold x in Hentry.
    set (k := (snd (Evo._shape ev) - 1 - s)%nat).
    assert (Hk : nth k (List.rev x) 0 = nth s x 0).
    { rewrite rev_nth by (unfold k; lia). f_equal. unfold k. lia. }
    rewrite Ht, <- Hk in Hentry.
    rewrite index_frac_own_value in Hentry;
      [|apply Forall_rev; exact Hpos|apply sorted_rev; exact Hs
       |rewrite length_rev; unfold k; lia].
    cbn [Evo.valid] in Hentry.
    change (negb (String.eqb XPar.sepa XPar.fobs)) with true in Hentry.
    fold (Evo.lin_interp_flag params lin par) in Hentry.
    destruct Hentry as [(y' & a & Hy' & -> & E)|(a & -> & -> & E)];
      [|simpl in Hy; discriminate Hy].
    rewrite Hy in Hy'. injection Hy' as <-.
    unfold Evo.scalar_entry. rewrite E. f_equal.
    unfold scalar_value. cbn [Evo.aft Evo.bef Evo.interp_frac].
    assert (Hys : nth k (List.rev (nth i y [])) 0 = Evo.stored y i s).
    { unfold Evo.stored. rewrite rev_nth by (unfold k; lia). f_equal. unfold k. lia. }
    rewrite Hys. apply interpolate_full_step. tauto.
Qed.

End RoundTripAt.

(** ** The flag [_evolved] *)

Section NotEvolved.

Context {consts : Constants} {cosmo : Evo.Cosmology} {quad : Evo.Quadrature}.
Variable cfg : Evo.Config.

Lemma at_unevolved ev xpar targets params coal_only lin :
  Evo._evolved ev = false ->
  Evo.at_ ev xpar targets params coal_only lin = inl RuntimeError.
Proof.
  intros H. unfold Evo.at_, Evo._at__inputs, Evo._check_evolved.
  rewrite H. reflexivity.
Qed.

Lemma modify_unevolved ev mods :
  Evo._evolved ev = false -> Evo.modify cfg ev mods = inl RuntimeError.
Proof.
  intros H. unfold Evo.modify, Evo._check_evolved. rewrite H. reflexivity.
Qed.

(** C10.  On an instance that has not been evolved, and on every state
    that the evolution passes through before [_finalize], however many
    steps have been taken, [at] and [modify] raise [RuntimeError]; a
    completed [evolve] has set the flag in [_finalize], after the last
    step. *)
Theorem unevolved_raises pop nsteps debug :
  let ev0 := Evo.__init__ pop nsteps debug in
  (forall xpar targets params coal_only lin mods,
     Evo.at_ ev0 xpar targets params coal_only lin = inl RuntimeError
     /\ Evo.modify cfg ev0 mods = inl RuntimeError)
  /\ (forall ev1 steps ev2 xpar targets params coal_only lin mods,
        Evo._init_step_zero cfg ev0 = inr ev1 ->
        Evo.take_steps cfg ev1 steps = inr ev2 ->
        Evo._evolved ev2 = false
        /\ Evo.at_ ev2 xpar targets params coal_only lin = inl RuntimeError
        /\ Evo.modify cfg ev2 mods = inl RuntimeError)
  /\ (forall ev',
        Evo.evolve cfg ev0 = inr ev' ->
        exists ev1 ev2,
          Evo._init_step_zero cfg ev0 = inr ev1
          /\ Evo.take_steps cfg ev1 (seq 1 (nsteps - 1)) = inr ev2
          /\ Evo._evolved ev2 = false
          /\ Evo._finalize cfg ev2 = inr ev').
Proof.
  intros ev0.
  assert (H0 : Evo._evolved ev0 = false) by reflexivity.
  assert (Hsteps : forall ev1 steps ev2,
            Evo._init_step_zero cfg ev0 = inr ev1 ->
            Evo.take_steps cfg ev1 steps = inr ev2 ->
            Evo._evolved ev2 = false).
  { intros ev1 steps ev2 Hinit Hrun.
    apply init_step_zero_inv in Hinit.
    destruct Hinit as (_ & _ & _ & _ & He1 & _).
    apply take_steps_frame in Hrun. destruct Hrun as (He2 & _).
    congruence. }
  split; [|split].
  - intros. split; [apply at_unevolved|apply modify_unevolved]; exact H0.
  - intros ev1 steps ev2 xpar targets params coal_only lin mods Hinit Hrun.
    pose proof (Hsteps _ _ _ Hinit Hrun) as He.
    split; [exact He|].
    split; [apply at_unevolved|apply modify_unevolved]; exact He.
  - intros ev' Hrun. unfold Evo.evolve in Hrun.
    destruct (Evo._init_step_zero cfg ev0) as [e|ev1] eqn:Hinit; [discriminate Hrun|].
    cbn [bind] in Hrun.
    destruct (Evo.take_steps cfg ev1 (seq 1 (snd (Evo._shape ev1) - 1)))
      as [e|ev2] eqn:Hst; [discriminate Hrun|].
    cbn [bind] in Hrun.
    exists ev1, ev2.
    pose proof (init_step_zero_inv _ _ _ Hinit) as (_ & Hshape & _).
    rewrite Hshape in Hst. cbn [Evo.__init__ Evo._shape snd] in Hst.
    repeat split; try assumption.
    eapply Hsteps; [reflexivity|exact Hst].
Qed.

End NotEvolved.

(** ** The errors of a step *)

Lemma any_negative_Exists dt :
  Evo.any_negative dt = true <-> Exists (fun d => d < 0) dt.
Proof.
  unfold Evo.any_negative. rewrite existsb_exists, Exists_exists.
  split; intros (d & Hin & Hd); exists d; (split; [exact Hin|]); apply Rltb_true; exact Hd.
Qed.

Section StepErrors.

Context {consts : Constants} {cosmo : Evo.Cosmology} {quad : Evo.Quadrature}.
Variable cfg : Evo.Config.

(** Without debugging, the rates are always computed. *)
Lemma hardening_rate_nodebug ev step store_debug :
  Evo._debug ev = false ->
  exists dadt_ dedt_,
    Evo._hardening_rate cfg ev step store_debug = inr (dadt_, dedt_).
Proof.
  intros Hd. unfold Evo._hardening_rate.
  assert (H : forall hs init, exists r,
            fold_left (Evo.add_hardening ev step) hs (inr init) = inr r).
  { induction hs as [|h hs IH]; intros [l o]; cbn [fold_left].
    - eauto.
    - unfold Evo.add_hardening at 2. unfold ret. cbn [bind].
      destruct (Evo.dadt_dedt h ev step) as [hd he]. rewrite Hd. cbn [andb].
      destruct o as [de|]; [destruct he as [e|]|]; apply IH. }
  destruct (H (Evo._hard cfg)
              (Np.zeros (fst (Evo._shape ev)),
               match Evo.eccen ev with
               | Some _ => Some (Np.zeros (fst (Evo._shape ev)))
               | None => None
               end)) as [[da de] E].
  exists da, de. exact E.
Qed.

Lemma fold_steps_error steps e :
  fold_left (fun acc step => ev <- acc ;; Evo._take_next_step cfg ev step) steps (inl e)
  = inl e.
Proof. induction steps; simpl; auto. Qed.

Lemma take_steps_app ev l1 l2 :
  Evo.take_steps cfg ev (l1 ++ l2)
  = (ev1 <- Evo.take_steps cfg ev l1 ;; Evo.take_steps cfg ev1 l2).
Proof.
  unfold Evo.take_steps. rewrite fold_left_app.
  destruct (fold_left _ l1 (ret ev)) as [e|ev1]; cbn [bind].
  - apply fold_steps_error.
  - reflexivity.
Qed.

Lemma take_steps_cons ev step l :
  Evo.take_steps cfg ev (step :: l)
  = (ev1 <- Evo._take_next_step cfg ev step ;; Evo.take_steps cfg ev1 l).
Proof.
  unfold Evo.take_steps. cbn [fold_left]. unfold ret at 1. cbn [bind].
  destruct (Evo._take_next_step cfg ev step) as [e|ev1]; cbn [bind].
  - apply fold_steps_error.
  - reflexivity.
Qed.

(** The errors of the two halves of a step, without debugging. *)
Lemma step_left_edge_error ev l r e :
  Evo._debug ev = false ->
  Evo.step_left_edge cfg ev l r = inl e ->
  (e = ValueError
   /\ exists dadt_l dedt_l,
        Evo._hardening_rate cfg ev l false = inr (dadt_l, dedt_l)
        /\ Evo.any_negative (Evo.dt_provisional ev l r dadt_l) = true)
  \/ e = TypeError.
Proof.
  intros Hd H. unfold Evo.step_left_edge in H.
  destruct (hardening_rate_nodebug ev l false Hd) as (dl & el & E).
  rewrite E in H. cbn [bind] in H.
  destruct (Evo.any_negative (Evo.dt_provisional ev l r dl)) eqn:Eneg.
  - left. injection H as <-. split; [reflexivity|]. exists dl, el. auto.
  - right.
    destruct (Evo.eccen_provisional ev l r el (Evo.dt_provisional ev l r dl))
      as [e1|ev1] eqn:E1; cbn [bind] in H.
    + injection H as <-. unfold Evo.eccen_provisional in E1.
      unfold ret, raise in E1.
      destruct (Evo.eccen ev); [destruct el|]; try discriminate E1.
      injection E1 as <-. reflexivity.
    + apply eccen_provisional_frame in E1. destruct E1 as (_ & _ & Hd1 & _).
      set (ev2 := Evo.update_time ev1 l r (Evo.dt_provisional ev l r dl)) in *.
      assert (Hd2 : Evo._debug ev2 = false) by (rewrite <- Hd, <- Hd1; reflexivity).
      destruct (hardening_rate_nodebug ev2 r true Hd2) as (dr & er & E2).
      rewrite E2 in H. cbn [bind] in H. evo_simpl.
      unfold ret, raise in H.
      destruct (Evo.eccen ev2); [|discriminate H].
      destruct (Evo.dedt ev2); [destruct er|]; try discriminate H.
      all: injection H as <-; reflexivity.
Qed.

Lemma step_right_edge_error ev l r e :
  Evo._debug ev = false ->
  Evo.step_right_edge cfg ev l r = inl e ->
  (e = ValueError /\ Evo.any_negative (Evo.dt_trapz ev l r) = true)
  \/ e = TypeError.
Proof.
  intros Hd H. unfold Evo.step_right_edge in H.
  destruct (Evo.any_negative (Evo.dt_trapz ev l r)) eqn:Eneg.
  - left. injection H as <-. auto.
  - right.
    destruct (Evo.eccen_corrected (Evo.update_time ev l r (Evo.dt_trapz ev l r)) l r)
      as [e1|ev1] eqn:E1; cbn [bind] in H; [|discriminate H].
    injection H as <-. unfold Evo.eccen_corrected, Evo.update_time in E1. evo_simpl.
    unfold ret, raise in E1.
    destruct (Evo.eccen ev); [|discriminate E1].
    destruct (Evo.dedt ev); [|injection E1 as <-; reflexivity].
    rewrite Hd in E1. cbn [andb] in E1. discriminate E1.
Qed.


End StepErrors.

Arguments Np.zeros : simpl never.
Arguments Np.zeros2 : simpl never.
Arguments repeat : simpl never.

Lemma zeros_1000 : Np.zeros 1000 = 0 :: 0 :: 0 :: Np.zeros 997.
Proof. reflexivity. Qed.
Lemma zeros2_1000 : Np.zeros2 0 1000 1 = [0] :: [0] :: [0] :: Np.zeros2 0 997 1.
Proof. reflexivity. Qed.
Lemma repeat_1000 : repeat (0, 0) 1000 = (0, 0) :: (0, 0) :: (0, 0) :: repeat (0, 0) 997.
Proof. reflexivity. Qed.

Lemma while_loop_unfold {consts : Constants} tlbk hard acc init fuel bin l :
  @NewEvo.while_loop consts tlbk hard acc init (S fuel) bin l
  = if NewEvo.continues l
    then (l' <- @NewEvo.iteration consts tlbk hard acc init bin l ;;
          @NewEvo.while_loop consts tlbk hard acc init fuel bin l')
    else ret l.
Proof. reflexivity. Qed.

Arguments NewEvo.while_loop : simpl never.

(** Evaluate [Rabs] and [Rmin] on concrete reals. *)
Ltac Reval :=
  repeat match goal with
    | |- context [Rabs ?x] =>
        first [ rewrite (Rabs_left x) by lra
              | rewrite (Rabs_right x) by lra
              | progress (Rnorm x) ]
    | |- context [Rmin ?x ?y] =>
        first [ rewrite (Rmin_left x y) by lra
              | rewrite (Rmin_right x y) by lra
              | progress (Rnorm x) | progress (Rnorm y) ]
    end.

(** C4.  A binary of masses 1 and 1 that starts at separation 7: its
    second step starts at separation 6.37, above the ISCO radius 6.00378 of
    its masses there, and the averaged step leads to 5.7967, below it.  The
    guard leaves the step as it is, and 5.7967 is what is stored. *)
Lemma new_evolution_undershoots_isco :
  exists l,
    @NewEvo.evolve_binary Ex.consts ExNew.tlbk_to_z [ExNew.hard] (Some ExNew.acc) ExNew.init 0
      (@NewEvo.start [ExNew.hard] (Some ExNew.acc) ExNew.init) = inr l
    /\ NewEvo.my_steps l = 2%nat
    /\ nth 1 (NewEvo.sepa (NewEvo.evo l)) 0 = 637 / 100
    /\ @Utils.rad_isco Ex.consts (fst (nth 1 (NewEvo.mass (NewEvo.evo l)) (0, 0)))
         (snd (nth 1 (NewEvo.mass (NewEvo.evo l)) (0, 0))) = 300189 / 50000
    /\ nth 2 (NewEvo.sepa (NewEvo.evo l)) 0 = 57967 / 10000
    /\ nth 2 (NewEvo.sepa (NewEvo.evo l)) 0
       < @Utils.rad_isco Ex.consts (fst (nth 1 (NewEvo.mass (NewEvo.evo l)) (0, 0)))
           (snd (nth 1 (NewEvo.mass (NewEvo.evo l)) (0, 0))).
Proof.
  unfold NewEvo.evolve_binary, NewEvo.start.
  cbn [NewEvo.evo NewEvo.idx NewEvo.arr_size NewEvo.right NewEvo.sepa NewEvo.mass NewEvo.tlook
       NewEvo.redz NewEvo.eccen NewEvo.dadt NewEvo.dedt NewEvo.mdot ExNew.init NewEvo._size
       NewEvo._eccen_init NewEvo._sepa_init NewEvo._mass_init NewEvo._tlook_init length Nat.mul Nat.add].
  change (NewEvo._NSTEPS * 1)%nat with 1000%nat.
  rewrite zeros_1000, zeros2_1000, repeat_1000.
  simpl.
  unfold Utils.rad_isco, Utils.rad_isco_factor, Utils.schwarzschild_radius, ExNew.tlbk_to_z.
  simpl.
  (* first iteration *)
  rewrite while_loop_unfold.
  unfold NewEvo.continues. simpl. Rdecide. simpl.
  unfold NewEvo.iteration. simpl.
  unfold NewEvo._TIME_STEP_MAX, NewEvo.CFL, NewEvo.min_timestep. simpl.
  Reval.
  unfold NewEvo.increment_sepa. Rdecide. cbv iota beta. Rdecide. simpl.
  unfold NewEvo.store_rates. simpl. unfold ret. cbn [bind].
  unfold Utils.rad_isco, Utils.rad_isco_factor, Utils.schwarzschild_radius. simpl.
  (* second iteration *)
  rewrite while_loop_unfold.
  unfold NewEvo.continues. simpl. Rdecide. simpl.
  unfold NewEvo.iteration. simpl.
  unfold NewEvo._TIME_STEP_MAX, NewEvo.CFL, NewEvo.min_timestep. simpl.
  Reval.
  unfold NewEvo.increment_sepa. Rdecide. cbv iota beta. Rdecide. simpl.
  unfold NewEvo.store_rates. simpl. unfold ret. cbn [bind].
  unfold Utils.rad_isco, Utils.rad_isco_factor, Utils.schwarzschild_radius. simpl.
  (* the loop ends *)
  rewrite while_loop_unfold.
  unfold NewEvo.continues. simpl. Rdecide. simpl.
  eexists. split; [reflexivity|]. simpl.
  repeat split; lra.
Qed.

Ltac Reval ::=
  repeat match goal with
    | |- context [Rabs ?x] =>
        first [ rewrite (Rabs_left x) by lra
              | rewrite (Rabs_right x) by lra
              | progress (Rnorm x) ]
    | |- context [Rmin ?x ?y] =>
        first [ rewrite (Rmin_left x y) by lra
              | rewrite (Rmin_right x y) by lra
              | progress (Rnorm x) | progress (Rnorm y) ]
    | |- context [Rmax ?x ?y] =>
        first [ rewrite (Rmax_left x y) by lra
              | rewrite (Rmax_right x y) by lra
              | progress (Rnorm x) | progress (Rnorm y) ]
    end.

(** Equality of two concrete states, field by field. *)
Ltac Rfields :=
  repeat match goal with
    | |- @eq R _ _ => first [ reflexivity | lra | field; lra ]
    | |- _ => progress f_equal
    end.

(** Normal form of a concrete state: the record updates and the example's
    constructors unfolded, nothing else. *)
Ltac Rstate :=
  cbv [Evo.with_dedt Evo.with_dadt Evo.with_mass Evo.with_tlook Evo.with_scafa
    Evo.with_eccen Evo.with_sepa Evo.with_mdot Evo.with_evolved Evo.__init__
    Utils.a_to_z Utils.z_to_a
    repeat Np.zeros2 Np.zeros
    Evo._pop Evo._debug Evo._nsteps Evo._sample_volume Evo._shape Evo.scafa Evo.tlook
    Evo.sepa Evo.mass Evo.mdot Evo.dadt Evo.eccen Evo.dedt Evo._evolved
    Evo.p_size Evo.p_sample_volume Ex.pop
    ret Ex2.ev_init Ex2.ev_stepped Ex2.ev_init_softening Ex2.ev_left_softening
    Ex2.ev_stepped_softening Ex2.mk].

Lemma example_init :
  @Evo._init_step_zero Ex.consts Ex.cosmo Ex.cfg (Evo.__init__ Ex.pop 2 false)
  = inr Ex2.ev_init.
Proof.
  unfold Evo._init_step_zero. simpl.
  unfold Np.logspace. simpl.
  rewrite example_rad_isco.
  replace (0 * ((Np.log10 6 - Np.log10 60) / 1) + Np.log10 60) with (Np.log10 60) by lra.
  rewrite !pow10_log10 by lra.
  change (Evo.p_size Ex.pop) with 1%nat.
  Rstate. Rfields.
Qed.

Lemma example_left_edge :
  @Evo.step_left_edge Ex.cosmo Ex.cfg Ex2.ev_init 0 1 = inr (Ex2.ev_stepped false).
Proof.
  unfold Evo.step_left_edge. simpl.
  unfold Evo.any_negative, Evo.dt_provisional. simpl.
  Rdecide. simpl.
  unfold Evo.update_time. simpl. Rdecide.
  unfold Evo.clip_eccen, Np.clip, Evo._MAX_ECCEN_ONE_MINUS. Reval.
  Rstate. Rfields.
Qed.

Lemma example_right_edge :
  @Evo.step_right_edge Ex.cosmo Ex.quad Ex.cfg (Ex2.ev_stepped false) 0 1
  = inr (Ex2.ev_stepped false).
Proof.
  unfold Evo.step_right_edge. simpl.
  unfold Evo.any_negative, Evo.dt_trapz. simpl.
  Rdecide. simpl.
  unfold Evo.update_time. simpl. Rdecide.
  unfold Evo.eccen_corrected. simpl.
  unfold Evo.accrete. simpl.
  unfold Evo.clip_eccen, Np.clip, Evo._MAX_ECCEN_ONE_MINUS. Reval.
  Rstate. Rfields.
Qed.

Lemma example_finalize :
  @Evo._finalize Ex.cfg (Ex2.ev_stepped false) = inr (Ex2.ev_stepped true).
Proof. unfold Evo._finalize, Evo.modify. simpl. reflexivity. Qed.

Lemma example_evolve :
  @Evo.evolve Ex.consts Ex.cosmo Ex.quad Ex.cfg (Evo.__init__ Ex.pop 2 false)
  = inr (Ex2.ev_stepped true).
Proof.
  unfold Evo.evolve. rewrite example_init. cbn [bind].
  change (snd (Evo._shape Ex2.ev_init) - 1)%nat with 1%nat.
  unfold Evo.take_steps. cbn [seq fold_left]. unfold ret at 1. cbn [bind].
  unfold Evo._take_next_step.
  change (negb (1 <? snd (Evo._shape Ex2.ev_init))%nat) with false. cbv iota.
  change (1 - 1)%nat with 0%nat.
  rewrite example_left_edge. cbn [bind].
  rewrite example_right_edge. cbn [bind].
  apply example_finalize.
Qed.

Lemma example_valid_sources :
  Gw.valid_sources [1; 2]%Z Ex3.dh = [Ex3.source 1; Ex3.source 2].
Proof.
  unfold Gw.valid_sources. simpl. unfold Utils.a_to_z, isfinite. Rdecide. reflexivity.
Qed.

Lemma gne_near_zero_eccentricity_witness :
  Gw.gne_of Ex3.bessel (Ex3.source 2) = 1 /\ Gw.gne_of Ex3.bessel (Ex3.source 1) = 0.
Proof.
  split.
  - apply (gne_near_zero_eccentricity Ex3.bessel [1; 2]%Z Ex3.dh (Ex3.source 2) 0).
    + rewrite example_valid_sources. right. left. reflexivity.
    + reflexivity.
    + lra.
  - apply (gne_near_zero_eccentricity Ex3.bessel [1; 2]%Z Ex3.dh (Ex3.source 1) 0).
    + rewrite example_valid_sources. left. reflexivity.
    + reflexivity.
    + lra.
Defined.

Lemma evolve_eccen_bounds_witness :
  Evo.eccen (Ex2.ev_stepped true) = Some [[1 / 2; 223 / 500]]
  /\ 0 <= nth 1 (nth 0 [[1 / 2; 223 / 500]] []) 0 <= 1 - Evo._MAX_ECCEN_ONE_MINUS.
Proof.
  split; [reflexivity|].
  eapply evolve_eccen_bounds with (cfg := Ex.cfg) (pop := Ex.pop) (nsteps := 2%nat)
    (debug := false) (pe := [1 / 2]) (i := 0%nat).
  - intros ms m ev1 ev2 H. discriminate H.
  - exact example_evolve.
  - reflexivity.
  - unfold Evo._MAX_ECCEN_ONE_MINUS. simpl. lra.
  - reflexivity.
Defined.

Lemma unevolved_raises_witness :
  Evo._evolved Ex2.ev_init = false
  /\ @Evo.at_ Ex.cosmo Ex.quad Ex2.ev_init XPar.sepa [10] None false Evo.LI_None
     = inl RuntimeError
  /\ Evo.modify Ex.cfg Ex2.ev_init None = inl RuntimeError.
Proof.
  apply (proj1 (proj2 (@unevolved_raises Ex.consts Ex.cosmo Ex.quad Ex.cfg Ex.pop 2 false))
           Ex2.ev_init [] Ex2.ev_init XPar.sepa [10] None false Evo.LI_None None).
  - exact example_init.
  - reflexivity.
Defined.

Lemma example_init_outward :
  @Evo._init_step_zero Ex.consts Ex.cosmo Ex3.cfg_outward (Evo.__init__ Ex.pop 2 false)
  = inr Ex3.ev_init_outward.
Proof.
  unfold Evo._init_step_zero. simpl.
  unfold Np.logspace. simpl.
  rewrite example_rad_isco.
  replace (0 * ((Np.log10 6 - Np.log10 60) / 1) + Np.log10 60) with (Np.log10 60) by lra.
  rewrite !pow10_log10 by lra.
  change (Evo.p_size Ex.pop) with 1%nat.
  unfold Ex3.ev_init_outward.
  Rstate. Rfields.
Qed.


Lemma example_init_softening (debug : bool) :
  @Evo._init_step_zero Ex.consts Ex.cosmo Ex2.cfg_softening (Evo.__init__ Ex.pop 2 debug)
  = inr (Ex2.ev_init_softening debug).
Proof.
  unfold Evo._init_step_zero. simpl.
  unfold Np.logspace. simpl.
  rewrite example_rad_isco.
  replace (0 * ((Np.log10 6 - Np.log10 60) / 1) + Np.log10 60) with (Np.log10 60) by lra.
  rewrite !pow10_log10 by lra.
  unfold Evo._hardening_rate. simpl. unfold Evo.add_hardening. simpl.
  unfold isfinite. Rdecide. rewrite !Bool.andb_false_r. simpl.
  change (Evo.p_size Ex.pop) with 1%nat.
  Rstate. Rfields.
Qed.

Lemma example_softening_rate_left (debug : bool) :
  @Evo._hardening_rate Ex2.cfg_softening (Ex2.ev_init_softening debug) 0 false
  = inr ([0 + -1 + -3], Some [0 + 0 + 0]).
Proof.
  unfold Evo._hardening_rate. simpl. unfold Evo.add_hardening. simpl.
  unfold isfinite. Rdecide. rewrite !Bool.andb_false_r. reflexivity.
Qed.

Lemma example_softening_left_edge_debug :
  @Evo.step_left_edge Ex.cosmo Ex2.cfg_softening (Ex2.ev_init_softening true) 0 1
  = inl ValueError.
Proof.
  unfold Evo.step_left_edge. rewrite example_softening_rate_left. cbn [bind].
  unfold Evo.any_negative, Evo.dt_provisional. simpl.
  Rdecide. simpl.
  unfold Evo._hardening_rate. simpl. unfold Evo.add_hardening. simpl.
  unfold isfinite. Rdecide. reflexivity.
Qed.

Lemma example_softening_left_edge :
  @Evo.step_left_edge Ex.cosmo Ex2.cfg_softening (Ex2.ev_init_softening false) 0 1
  = inr Ex2.ev_left_softening.
Proof.
  unfold Evo.step_left_edge. rewrite example_softening_rate_left. cbn [bind].
  unfold Evo.any_negative, Evo.dt_provisional. simpl.
  Rdecide. simpl.
  unfold Evo.update_time. simpl. Rdecide.
  unfold Evo.clip_eccen, Np.clip, Evo._MAX_ECCEN_ONE_MINUS. Reval.
  Rstate. Rfields.
Qed.

Lemma example_softening_right_edge :
  @Evo.step_right_edge Ex.cosmo Ex.quad Ex2.cfg_softening Ex2.ev_left_softening 0 1
  = inr Ex2.ev_stepped_softening.
Proof.
  unfold Evo.step_right_edge. simpl.
  unfold Evo.any_negative, Evo.dt_trapz. simpl.
  Rdecide. simpl.
  unfold Evo.update_time. simpl. Rdecide.
  unfold Evo.eccen_corrected. simpl.
  unfold Evo.accrete. simpl.
  unfold Evo.clip_eccen, Np.clip, Evo._MAX_ECCEN_ONE_MINUS. Reval.
  Rstate. Rfields.
Qed.


(** ** When [at] returns *)

Lemma fold_Rmin_le (l : list R) (x : R) :
  fold_left Rmin l x <= x /\ forall y, In y l -> fold_left Rmin l x <= y.
Proof.
  revert x. induction l as [|a l IH]; intros x; simpl.
  - split; [lra|intros y []].
  - destruct (IH (Rmin x a)) as [H1 H2].
    pose proof (Rmin_l x a). pose proof (Rmin_r x a).
    split; [lra|]. intros y [<-|Hy]; [lra|apply H2, Hy].
Qed.

Lemma fold_Rmax_ge (l : list R) (x : R) :
  x <= fold_left Rmax l x /\ forall y, In y l -> y <= fold_left Rmax l x.
Proof.
  revert x. induction l as [|a l IH]; intros x; simpl.
  - split; [lra|intros y []].
  - destruct (IH (Rmax x a)) as [H1 H2].
    pose proof (Rmax_l x a). pose proof (Rmax_r x a).
    split; [lra|]. intros y [<-|Hy]; [lra|apply H2, Hy].
Qed.

Lemma minmax_spec (l : list R) (x0 : R) :
  In x0 l ->
  exists lo hi, Utils.minmax l = inr (lo, hi) /\ forall x, In x l -> lo <= x <= hi.
Proof.
  intros H0. destruct l as [|a l]; [destruct H0|].
  unfold Utils.minmax, Np.amin, Np.amax, ret. cbn [bind].
  eexists. eexists. split; [reflexivity|].
  destruct (fold_Rmin_le l a) as [H1 H2]. destruct (fold_Rmax_ge l a) as [H3 H4].
  intros x [<-|Hx]; split; auto.
Qed.

Section AtRuns.

Context {cosmo : Evo.Cosmology} {quad : Evo.Quadrature}.

(** [at] returns when the instance is evolved, the arguments are valid
    and some target lies between two stored values of the independent
    variable. *)
Lemma at_runs ev xpar targets params coal_only lin X t x1 x2 :
  Evo._evolved ev = true ->
  String.eqb xpar XPar.sepa || String.eqb xpar XPar.fobs = true ->
  Evo.xtracks ev xpar = inr X ->
  match lin with
  | Evo.LI_List l =>
      forallb (fun ll => Evo.par_in ll
                 match params with None => Evo._EVO_PARS | Some ps => ps end) l = true
  | _ => True
  end ->
  In t targets -> In x1 (concat X) -> In x2 (concat X) ->
  Np.log10 x1 <= Np.log10 t <= Np.log10 x2 ->
  exists res, Evo.at_ ev xpar targets params coal_only lin = inr res.
Proof.
  intros Hev Hx HX Hlin Ht H1 H2 Hle.
  assert (Hin : exists xnew xold ps lil rev,
             Evo._at__inputs ev xpar targets params lin = inr (xnew, xold, ps, lil, rev)).
  { unfold Evo._at__inputs, Evo._check_evolved. rewrite Hev. cbn [bind ret].
    rewrite Hx. cbn [negb].
    assert (Hl : exists lil,
               match lin with
               | Evo.LI_None => ret Evo._LIN_INTERP_PARS
               | Evo.LI_List l =>
                   if forallb (fun ll => Evo.par_in ll
                                 match params with None => Evo._EVO_PARS | Some l0 => l0 end) l
                   then ret l else raise ValueError
               | Evo.LI_Bool true => ret match params with None => Evo._EVO_PARS | Some l => l end
               | Evo.LI_Bool false => ret []
               end = inr lil).
    { destruct lin as [|l|[|]]; try (eexists; reflexivity).
      rewrite Hlin. eexists; reflexivity. }
    destruct Hl as (lil & ->). cbn [bind].
    assert (Hold : exists xold rev,
               (if String.eqb xpar XPar.fobs
                then fobs <- Evo.freq_orb_obs ev ;;
                     ret (map Np.log10 targets, map (map Np.log10) fobs, false)
                else ret (map Np.log10 targets,
                          map (fun row => List.rev (map Np.log10 row)) (Evo.sepa ev), true))
               = inr (map Np.log10 targets, xold, rev)
               /\ In (Np.log10 x1) (concat xold) /\ In (Np.log10 x2) (concat xold)).
    { assert (Hc : forall x, In x (concat X) ->
                In (Np.log10 x) (concat (map (map Np.log10) X))).
      { intros x Hxin. rewrite <- concat_map. apply in_map, Hxin. }
      unfold Evo.xtracks in HX. destruct (String.eqb xpar XPar.fobs).
      - rewrite HX. cbn [bind]. eexists. eexists. split; [reflexivity|]. auto.
      - injection HX as <-. eexists. eexists. split; [reflexivity|].
        replace (map (fun row => List.rev (map Np.log10 row)) (Evo.sepa ev))
          with (map (map Np.log10) (map (@List.rev R) (Evo.sepa ev))).
        + auto.
        + rewrite map_map. apply map_ext. intros row. apply map_rev. }
    destruct Hold as (xold & rev & -> & Ho1 & Ho2). cbn [bind].
    destruct (minmax_spec (map Np.log10 targets) (Np.log10 t) (in_map _ _ _ Ht))
      as (lo1 & hi1 & -> & Hb1).
    destruct (minmax_spec (concat xold) _ Ho1) as (lo2 & hi2 & -> & Hb2).
    cbn [bind fst snd].
    pose proof (Hb1 _ (in_map Np.log10 _ _ Ht)) as B1.
    pose proof (Hb2 _ Ho1) as B2. pose proof (Hb2 _ Ho2) as B3.
    replace (Rltb hi1 lo2) with false by (symmetry; apply Rltb_false; lra).
    replace (Rltb hi2 lo1) with false by (symmetry; apply Rltb_false; lra).
    cbn [orb]. do 5 eexists. reflexivity. }
  destruct Hin as (xnew & xold & ps & lil & rev & E).
  unfold Evo.at_. rewrite E. cbn [bind]. eexists. reflexivity.
Qed.

End AtRuns.

Section AtResult.

Context {cosmo : Evo.Cosmology} {quad : Evo.Quadrature}.

(** The result of [at] has an item for every requested parameter that is
    stored. *)
Lemma at_result_in ev xpar targets ps coal_only lin res par y :
  Evo.at_ ev xpar targets (Some ps) coal_only lin = inr res ->
  In par ps -> Evo.getattr ev par = Some y ->
  exists I, In (par, Some I) res.
Proof.
  intros Hat Hin Hy.
  apply at_inv in Hat. destruct Hat as (xnew & xold & ps' & lil & rev & Hinp & ->).
  apply at_inputs_inv in Hinp. destruct Hinp as (_ & _ & -> & _).
  eexists. apply in_map_iff. exists par. split; [|exact Hin].
  rewrite Hy. reflexivity.
Qed.

End AtResult.

(** *** The evolved example *)

Lemma example_well_shaped : Evo.well_shaped (Ex2.ev_stepped true).
Proof.
  unfold Evo.well_shaped, Evo.has_shape. simpl.
  repeat match goal with
    | |- _ /\ _ => split
    | |- forall _, Some _ = Some _ -> _ => intros ? E; injection E as <-
    | |- @eq nat _ _ => reflexivity
    | |- Forall _ _ => constructor
    end.
Qed.

Lemma example_freq_orb_obs :
  @Evo.freq_orb_obs Ex.cosmo Ex.quad (Ex2.ev_stepped true) = inr [[1 / 60; 1 / 3]].
Proof.
  unfold Evo.freq_orb_obs, Evo.freq_orb_rest. simpl. unfold Utils.a_to_z, ret.
  Rfields.
Qed.

Lemma example_fobs_positive : Forall (Rlt 0) [1 / 60; 1 / 3].
Proof. repeat constructor; lra. Qed.

Lemma example_fobs_sorted : StronglySorted Rlt [1 / 60; 1 / 3].
Proof. repeat constructor; lra. Qed.

Lemma example_fobs_sorted_le : StronglySorted Rle [1 / 60; 1 / 3].
Proof. repeat constructor; lra. Qed.

(** [at] on the evolved example for the eccentricity at one frequency
    between the stored ones. *)
Lemma example_at_runs (t : R) :
  1 / 60 <= t <= 1 / 3 ->
  exists res I,
    @Evo.at_ Ex.cosmo Ex.quad (Ex2.ev_stepped true) XPar.fobs [t] (Some [Evo.Eccen])
      false Evo.LI_None = inr res
    /\ In (Evo.Eccen, Some I) res.
Proof.
  intros Ht.
  destruct (@at_runs Ex.cosmo Ex.quad (Ex2.ev_stepped true) XPar.fobs [t]
              (Some [Evo.Eccen]) false Evo.LI_None [[1 / 60; 1 / 3]] t (1 / 60) (1 / 3))
    as (res & Hres).
  - reflexivity.
  - reflexivity.
  - exact example_freq_orb_obs.
  - exact I.
  - left. reflexivity.
  - simpl. auto.
  - simpl. auto.
  - split; apply log10_le_iff; lra.
  - destruct (at_result_in _ _ _ _ _ _ _ Evo.Eccen _ Hres (or_introl eq_refl) eq_refl)
      as (I & HI).
    exists res, I. split; assumption.
Qed.


Lemma example_at_runs_log :
  exists res I,
    @Evo.at_ Ex.cosmo Ex.quad (Ex2.ev_stepped true) XPar.fobs [1 / 3] (Some [Evo.Eccen])
      false (Evo.LI_Bool false) = inr res
    /\ In (Evo.Eccen, Some I) res.
Proof.
  destruct (@at_runs Ex.cosmo Ex.quad (Ex2.ev_stepped true) XPar.fobs [1 / 3]
              (Some [Evo.Eccen]) false (Evo.LI_Bool false) [[1 / 60; 1 / 3]]
              (1 / 3) (1 / 60) (1 / 3))
    as (res & Hres).
  - reflexivity.
  - reflexivity.
  - exact example_freq_orb_obs.
  - exact I.
  - left. reflexivity.
  - simpl. auto.
  - simpl. auto.
  - split; apply log10_le_iff; lra.
  - destruct (at_result_in _ _ _ _ _ _ _ Evo.Eccen _ Hres (or_introl eq_refl) eq_refl)
      as (I & HI).
    exists res, I. split; assumption.
Qed.

Lemma at_round_trip_witness :
  (exists res I,
     @Evo.at_ Ex.cosmo Ex.quad (Ex2.ev_stepped true) XPar.fobs [1 / 3] (Some [Evo.Eccen])
       false Evo.LI_None = inr res
     /\ In (Evo.Eccen, Some I) res
     /\ Evo.scalar_entry I 0 0 = Some (223 / 500))
  /\ (exists res I,
        @Evo.at_ Ex.cosmo Ex.quad (Ex2.ev_stepped true) XPar.fobs [1 / 3]
          (Some [Evo.Eccen]) false (Evo.LI_Bool false) = inr res
        /\ In (Evo.Eccen, Some I) res
        /\ Evo.scalar_entry I 0 0 = Some (223 / 500)).
Proof.
  assert (Hs : (1 <= 1 < length [1 / 60; 1 / 3])%nat) by (simpl; lia).
  split.
  - destruct (example_at_runs (1 / 3)) as (res & I & Hres & HI); [lra|].
    exists res, I. split; [exact Hres|]. split; [exact HI|].
    pose proof (proj1 (@at_round_trip Ex.cosmo Ex.quad (Ex2.ev_stepped true) [1 / 3]
                         (Some [Evo.Eccen]) Evo.LI_None 0 0 1 example_well_shaped
                         (le_n 1) (le_n 1))
                  [[1 / 60; 1 / 3]] res Evo.Eccen I example_freq_orb_obs) as H.
    cbv zeta in H. cbn [nth] in H.
    destruct (H example_fobs_positive example_fobs_sorted Hs eq_refl Hres HI) as (H1 & _).
    apply (H1 [[1 / 2; 223 / 500]] eq_refl). left. reflexivity.
  - destruct example_at_runs_log as (res & I & Hres & HI).
    exists res, I. split; [exact Hres|]. split; [exact HI|].
    pose proof (proj1 (@at_round_trip Ex.cosmo Ex.quad (Ex2.ev_stepped true) [1 / 3]
                         (Some [Evo.Eccen]) (Evo.LI_Bool false) 0 0 1 example_well_shaped
                         (le_n 1) (le_n 1))
                  [[1 / 60; 1 / 3]] res Evo.Eccen I example_freq_orb_obs) as H.
    cbv zeta in H. cbn [nth] in H.
    destruct (H example_fobs_positive example_fobs_sorted Hs eq_refl Hres HI) as (H1 & _).
    apply (H1 [[1 / 2; 223 / 500]] eq_refl). right.
    unfold Evo.stored. cbn [nth Nat.sub]. split; lra.
Defined.

(** C2, as the specification states it, fails at step 0 of the frequency:
    on the evolved example, whose stored frequencies are 1/60 and 1/3 and
    whose stored eccentricity at step 0 is 1/2, [at] with the target 1/60
    returns, and its entry for the eccentricity is [np.nan]. *)
Lemma at_step_zero_is_nan :
  @Evo.freq_orb_obs Ex.cosmo Ex.quad (Ex2.ev_stepped true) = inr [[1 / 60; 1 / 3]]
  /\ Evo.getattr (Ex2.ev_stepped true) Evo.Eccen
     = Some (Evo.Scalar [[1 / 2; 223 / 500]])
  /\ (exists res I,
        @Evo.at_ Ex.cosmo Ex.quad (Ex2.ev_stepped true) XPar.fobs [1 / 60]
          (Some [Evo.Eccen]) false Evo.LI_None = inr res
        /\ In (Evo.Eccen, Some I) res)
  /\ (forall res I,
        @Evo.at_ Ex.cosmo Ex.quad (Ex2.ev_stepped true) XPar.fobs [1 / 60]
          (Some [Evo.Eccen]) false Evo.LI_None = inr res ->
        In (Evo.Eccen, Some I) res ->
        Evo.scalar_entry I 0 0 = None
        /\ Evo.scalar_entry I 0 0 <> Some (Evo.stored [[1 / 2; 223 / 500]] 0 0)).
Proof.
  split; [exact example_freq_orb_obs|]. split; [reflexivity|].
  split; [apply example_at_runs; lra|].
  intros res I Hres HI.
  assert (E : Evo.scalar_entry I 0 0 = None).
  { destruct (@at_entry Ex.cosmo Ex.quad (Ex2.ev_stepped true) XPar.fobs [1 / 60]
                (Some [Evo.Eccen]) Evo.LI_None res [[1 / 60; 1 / 3]] 0 0 Evo.Eccen I
                Hres example_freq_orb_obs example_well_shaped (le_n 1) (le_n 1) HI)
      as (lil & _ & [(y & a & _ & -> & Ha)|(a & Hm & _)]); [|discriminate Hm].
    cbn [nth] in Ha. cbn [Evo.scalar_entry]. rewrite Ha.
    assert (Hpos : 0 < 1 / 60) by lra.
    assert (Hne : [1 / 60; 1 / 3] <> []) by discriminate.
    pose proof (@log10_track_valid (1 / 60) [1 / 60; 1 / 3] Hpos example_fobs_positive
                  example_fobs_sorted_le Hne) as Hv.
    destruct (Evo.valid _); [|reflexivity].
    destruct Hv as [Hv _]. specialize (Hv eq_refl). simpl in Hv. lra. }
  split; [exact E|]. rewrite E. discriminate.
Qed.
(** ** Masses, orbits and gravitational-wave rates *)

(** X1.  Redshift and scale factor are inverse to each other: [z_to_a]
    undoes [a_to_z] on a non-zero scale factor, and [a_to_z] undoes
    [z_to_a] on a redshift other than -1. *)
Theorem a_to_z_round_trip (scfa redz : R) :
  scfa <> 0 -> redz <> -1 ->
  Utils.z_to_a (Utils.a_to_z scfa) = scfa
  /\ Utils.a_to_z (Utils.z_to_a redz) = redz.
Proof.
  intros Ha Hz. unfold Utils.z_to_a, Utils.a_to_z. split; field; lra.
Qed.

Lemma a_to_z_round_trip_witness :
  Utils.z_to_a (Utils.a_to_z (1 / 2)) = 1 / 2
  /\ Utils.a_to_z (Utils.z_to_a 1) = 1.
Proof.
  apply (a_to_z_round_trip (1 / 2) 1); lra.
Defined.

(** X2.  Total mass and mass ratio determine the masses: for a positive
    total mass and a mass ratio in (0, 1], [mtmr_from_m1m2] gives back
    what [m1m2_from_mtmr] was given, and the first mass it returns is the
    larger one. *)
Theorem m1m2_mtmr_round_trip (mt mr : R) :
  0 < mt -> 0 < mr <= 1 ->
  let m := Utils2.m1m2_from_mtmr mt mr in
  Utils2.mtmr_from_m1m2 (fst m) (snd m) = (mt, mr)
  /\ 0 < snd m <= fst m.
Proof.
  intros Hmt Hmr. unfold Utils2.m1m2_from_mtmr, Utils2.mtmr_from_m1m2. cbn [fst snd].
  assert (H1 : 0 < mt / (1 + mr)) by (apply Rdiv_lt_0_compat; lra).
  assert (E2 : mt - mt / (1 + mr) = mr * (mt / (1 + mr))) by (field; lra).
  assert (H2 : 0 < mt - mt / (1 + mr)) by (rewrite E2; apply Rmult_lt_0_compat; lra).
  assert (H3 : mt - mt / (1 + mr) <= mt / (1 + mr)) by (rewrite E2; nra).
  split; [|lra].
  rewrite Rmin_right by exact H3. rewrite Rmax_left by exact H3.
  f_equal; [lra|]. rewrite E2. field. lra.
Qed.

Lemma m1m2_mtmr_round_trip_witness :
  let m := Utils2.m1m2_from_mtmr 3 (1 / 2) in
  Utils2.mtmr_from_m1m2 (fst m) (snd m) = (3, 1 / 2)
  /\ 0 < snd m <= fst m.
Proof.
  apply (m1m2_mtmr_round_trip 3 (1 / 2)); lra.
Defined.

(** X3.  From two positive masses, in either order, [mtmr_from_m1m2]
    followed by [m1m2_from_mtmr] returns the larger mass first and the
    smaller one second; the mass ratio lies in (0, 1]. *)
Theorem mtmr_m1m2_sorts (m1 m2 : R) :
  0 < m1 -> 0 < m2 ->
  let tr := Utils2.mtmr_from_m1m2 m1 m2 in
  Utils2.m1m2_from_mtmr (fst tr) (snd tr) = (Rmax m1 m2, Rmin m1 m2)
  /\ 0 < snd tr <= 1
  /\ Utils2.mtmr_from_m1m2 m2 m1 = tr.
Proof.
  intros H1 H2. unfold Utils2.m1m2_from_mtmr, Utils2.mtmr_from_m1m2. cbn [fst snd].
  assert (Hmax : 0 < Rmax m1 m2) by (apply Rmax_case; assumption).
  assert (Hmin : 0 < Rmin m1 m2) by (apply Rmin_case; assumption).
  assert (Hle : Rmin m1 m2 <= Rmax m1 m2)
    by (pose proof (Rmin_l m1 m2); pose proof (Rmax_l m1 m2); lra).
  assert (Hsum : m1 + m2 = Rmax m1 m2 + Rmin m1 m2).
  { unfold Rmax, Rmin. destruct (Rle_dec m1 m2); lra. }
  assert (E : (m1 + m2) / (1 + Rmin m1 m2 / Rmax m1 m2) = Rmax m1 m2).
  { rewrite Hsum. field. lra. }
  split; [|split].
  - rewrite E. f_equal. lra.
  - split.
    + apply Rdiv_lt_0_compat; assumption.
    + apply (Rmult_le_reg_r (Rmax m1 m2)); [exact Hmax|].
      replace (Rmin m1 m2 / Rmax m1 m2 * Rmax m1 m2) with (Rmin m1 m2) by (field; lra).
      lra.
  - rewrite (Rmin_comm m2 m1), (Rmax_comm m2 m1). f_equal. lra.
Qed.

Lemma mtmr_m1m2_sorts_witness :
  let tr := Utils2.mtmr_from_m1m2 1 2 in
  Utils2.m1m2_from_mtmr (fst tr) (snd tr) = (Rmax 1 2, Rmin 1 2)
  /\ 0 < snd tr <= 1
  /\ Utils2.mtmr_from_m1m2 2 1 = tr.
Proof.
  apply (mtmr_m1m2_sorts 1 2); lra.
Defined.

(** Powers of a positive base. *)
Lemma Rpower_pos (x y : R) : 0 < Rpower x y.
Proof. unfold Rpower. apply exp_pos. Qed.

Lemma Rpower_inv_exp (x y : R) : 0 < x -> y <> 0 -> Rpower (Rpower x y) (1 / y) = x.
Proof.
  intros Hx Hy. rewrite Rpower_mult.
  replace (y * (1 / y)) with 1 by (field; exact Hy).
  apply Rpower_1, Hx.
Qed.

Lemma Rpower_inv_base (x y : R) : 0 < x -> y <> 0 -> Rpower (Rpower x (1 / y)) y = x.
Proof.
  intros Hx Hy. rewrite Rpower_mult.
  replace (1 / y * y) with 1 by (field; exact Hy).
  apply Rpower_1, Hx.
Qed.

Lemma Rpower_half_sqr (x y : R) : Rsqr (Rpower x (y / 2)) = Rpower x y.
Proof.
  unfold Rsqr. rewrite <- Rpower_plus. f_equal. lra.
Qed.

Section Kepler.

Context {consts : Constants}.
Hypothesis NWTG_pos : 0 < NWTG.

Lemma kepler_sep_of_freq (mass sep : R) :
  0 < mass -> 0 < sep ->
  Utils2.kepler_sep_from_freq mass (Utils2.kepler_freq_from_sep mass sep) = sep.
Proof.
  intros Hm Ha.
  assert (Hgm : 0 < NWTG * mass) by (apply Rmult_lt_0_compat; assumption).
  pose proof PI_RGT_0 as Hpi.
  unfold Utils2.kepler_sep_from_freq, Utils2.kepler_freq_from_sep.
  pose proof (Rpower_pos sep (3 / 2)) as Hp.
  replace (2 * PI * (1 / (2 * PI) * sqrt (NWTG * mass) / Rpower sep (3 / 2)))
    with (sqrt (NWTG * mass) / Rpower sep (3 / 2)) by (field; lra).
  replace (Rsqr (sqrt (NWTG * mass) / Rpower sep (3 / 2)))
    with (Rsqr (sqrt (NWTG * mass)) / Rsqr (Rpower sep (3 / 2)))
    by (unfold Rsqr; field; lra).
  rewrite Rsqr_sqrt by lra. rewrite Rpower_half_sqr.
  pose proof (Rpower_pos sep 3) as Hp3.
  replace (NWTG * mass / (NWTG * mass / Rpower sep 3)) with (Rpower sep 3)
    by (field; lra).
  apply Rpower_inv_exp; lra.
Qed.

Lemma kepler_sep_from_freq_pos (mass freq : R) :
  0 < Utils2.kepler_sep_from_freq mass freq.
Proof. apply Rpower_pos. Qed.

Lemma kepler_freq_of_sep (mass freq : R) :
  0 < mass -> 0 < freq ->
  Utils2.kepler_freq_from_sep mass (Utils2.kepler_sep_from_freq mass freq) = freq.
Proof.
  intros Hm Hf.
  assert (Hgm : 0 < NWTG * mass) by (apply Rmult_lt_0_compat; assumption).
  pose proof PI_RGT_0 as Hpi.
  unfold Utils2.kepler_sep_from_freq, Utils2.kepler_freq_from_sep.
  assert (Hq : 0 < Rsqr (2 * PI * freq)).
  { apply Rsqr_pos_lt. apply Rgt_not_eq. apply Rmult_lt_0_compat; lra. }
  assert (Hx : 0 < NWTG * mass / Rsqr (2 * PI * freq))
    by (apply Rdiv_lt_0_compat; assumption).
  rewrite Rpower_mult.
  replace (1 / 3 * (3 / 2)) with (/ 2) by lra.
  rewrite Rpower_sqrt by exact Hx.
  rewrite sqrt_div_alt by exact Hq.
  rewrite sqrt_Rsqr by (apply Rlt_le, Rmult_lt_0_compat; lra).
  assert (Hs : 0 < sqrt (NWTG * mass)) by (apply sqrt_lt_R0; exact Hgm).
  field. lra.
Qed.

End Kepler.

(** X4.  Kepler's law both ways: for a positive mass (and a positive
    constant of gravitation), the separation of the orbital frequency of a
    positive separation is that separation, and the frequency of the
    separation of a positive frequency is that frequency. *)
Theorem kepler_round_trip {consts : Constants} (mass sep freq : R) :
  0 < NWTG -> 0 < mass -> 0 < sep -> 0 < freq ->
  Utils2.kepler_sep_from_freq mass (Utils2.kepler_freq_from_sep mass sep) = sep
  /\ Utils2.kepler_freq_from_sep mass (Utils2.kepler_sep_from_freq mass freq) = freq.
Proof.
  intros HG Hm Ha Hf. split.
  - apply kepler_sep_of_freq; assumption.
  - apply kepler_freq_of_sep; assumption.
Qed.

Lemma kepler_round_trip_witness :
  @Utils2.kepler_sep_from_freq Ex.consts 2 (@Utils2.kepler_freq_from_sep Ex.consts 2 5) = 5
  /\ @Utils2.kepler_freq_from_sep Ex.consts 2 (@Utils2.kepler_sep_from_freq Ex.consts 2 3) = 3.
Proof.
  apply (@kepler_round_trip Ex.consts 2 5 3); simpl; lra.
Defined.

Section GwRates.

Context {consts : Constants}.

Lemma gw_dadt_const_neg : Utils2._GW_DADT_SEP_CONST < 0.
Proof.
  unfold Utils2._GW_DADT_SEP_CONST.
  pose proof (Rpower_pos NWTG 3) as HX. pose proof (Rpower_pos SPLC 5) as HY.
  assert (H : 0 < 64 * Rpower NWTG 3 / 5 / Rpower SPLC 5).
  { apply Rdiv_lt_0_compat; [|exact HY]. lra. }
  replace (- 64 * Rpower NWTG 3 / 5 / Rpower SPLC 5)
    with (- (64 * Rpower NWTG 3 / 5 / Rpower SPLC 5)) by (field; lra).
  lra.
Qed.

Lemma gw_dedt_const_neg : Utils2._GW_DEDT_ECC_CONST < 0.
Proof.
  unfold Utils2._GW_DEDT_ECC_CONST.
  pose proof (Rpower_pos NWTG 3) as HX. pose proof (Rpower_pos SPLC 5) as HY.
  assert (H : 0 < 304 * Rpower NWTG 3 / 15 / Rpower SPLC 5).
  { apply Rdiv_lt_0_compat; [|exact HY]. lra. }
  replace (- 304 * Rpower NWTG 3 / 15 / Rpower SPLC 5)
    with (- (304 * Rpower NWTG 3 / 15 / Rpower SPLC 5)) by (field; lra).
  lra.
Qed.

Lemma Rpower_succ (x y : R) : 0 < x -> Rpower x (y + 1) = Rpower x y * x.
Proof. intros Hx. rewrite Rpower_plus, Rpower_1 by exact Hx. reflexivity. Qed.

Lemma Rpower_one_base (y : R) : Rpower 1 y = 1.
Proof. unfold Rpower. rewrite ln_1, Rmult_0_r. apply exp_0. Qed.

Lemma circular_rate_neg (m1 m2 sepa : R) :
  0 < m1 -> 0 < m2 ->
  Utils2._GW_DADT_SEP_CONST * m1 * m2 * (m1 + m2) / Rpower sepa 3 < 0.
Proof.
  intros H1 H2. pose proof gw_dadt_const_neg as Hc.
  pose proof (Rpower_pos sepa 3) as Hp.
  assert (Hm : 0 < m1 * m2 * (m1 + m2)).
  { apply Rmult_lt_0_compat; [apply Rmult_lt_0_compat; assumption|lra]. }
  replace (Utils2._GW_DADT_SEP_CONST * m1 * m2 * (m1 + m2) / Rpower sepa 3)
    with (- ((- Utils2._GW_DADT_SEP_CONST) * (m1 * m2 * (m1 + m2)) / Rpower sepa 3))
    by (field; lra).
  assert (0 < - Utils2._GW_DADT_SEP_CONST * (m1 * m2 * (m1 + m2)) / Rpower sepa 3).
  { apply Rdiv_lt_0_compat; [|exact Hp]. apply Rmult_lt_0_compat; lra. }
  lra.
Qed.

Lemma gw_ecc_func_ge_1 (e : R) : 0 <= e < 1 -> 1 <= Utils2._gw_ecc_func e.
Proof.
  intros He. unfold Utils2._gw_ecc_func.
  assert (He2 : 0 <= e * e < 1) by nra.
  pose proof (Rpower_pos (1 - e * e) (7 / 2)) as Hp.
  assert (Hle : Rpower (1 - e * e) (7 / 2) <= 1).
  { apply Rle_trans with (Rpower 1 (7 / 2));
      [apply Rle_Rpower_l; lra|rewrite Rpower_one_base; lra]. }
  assert (Hnum : 1 <= 1 + 73 / 24 * (e * e) + 37 / 96 * (e * e) * (e * e)) by nra.
  apply (Rmult_le_reg_r (Rpower (1 - e * e) (7 / 2))); [exact Hp|].
  replace ((1 + 73 / 24 * (e * e) + 37 / 96 * (e * e) * (e * e))
           / Rpower (1 - e * e) (7 / 2) * Rpower (1 - e * e) (7 / 2))
    with (1 + 73 / 24 * (e * e) + 37 / 96 * (e * e) * (e * e)) by (field; lra).
  lra.
Qed.

End GwRates.

(** X5.  The hardening rate of gravitational-wave emission is negative,
    eccentricity only makes it faster, and a zero eccentricity gives the
    circular rate: for positive constants, masses and separation,
    da/dt(e) <= da/dt(circular) < 0 when 0 <= e < 1. *)
Theorem gw_hardening_rate_dadt_negative {consts : Constants} (m1 m2 sepa e : R) :
  0 < NWTG -> 0 < SPLC ->
  0 < m1 -> 0 < m2 -> 0 < sepa -> 0 <= e < 1 ->
  Utils2.gw_hardening_rate_dadt m1 m2 sepa None < 0
  /\ Utils2.gw_hardening_rate_dadt m1 m2 sepa (Some e)
     <= Utils2.gw_hardening_rate_dadt m1 m2 sepa None
  /\ Utils2.gw_hardening_rate_dadt m1 m2 sepa (Some 0)
     = Utils2.gw_hardening_rate_dadt m1 m2 sepa None.
Proof.
  intros _ _ H1 H2 _ He. unfold Utils2.gw_hardening_rate_dadt.
  pose proof (circular_rate_neg m1 m2 sepa H1 H2) as Hneg.
  pose proof (gw_ecc_func_ge_1 e He) as HF.
  split; [exact Hneg|]. split.
  - nra.
  - unfold Utils2._gw_ecc_func.
    replace (1 - 0 * 0) with 1 by lra. rewrite Rpower_one_base. field.
    apply Rgt_not_eq, Rpower_pos.
Qed.

Lemma gw_hardening_rate_dadt_negative_witness :
  @Utils2.gw_hardening_rate_dadt Ex.consts 1 1 10 None < 0
  /\ @Utils2.gw_hardening_rate_dadt Ex.consts 1 1 10 (Some (1 / 2))
     <= @Utils2.gw_hardening_rate_dadt Ex.consts 1 1 10 None
  /\ @Utils2.gw_hardening_rate_dadt Ex.consts 1 1 10 (Some 0)
     = @Utils2.gw_hardening_rate_dadt Ex.consts 1 1 10 None.
Proof.
  apply (@gw_hardening_rate_dadt_negative Ex.consts 1 1 10 (1 / 2)); simpl; lra.
Defined.

(** X6.  The rate of change of the eccentricity under gravitational-wave
    emission is never positive: for positive constants, masses and
    separation it is zero for a circular orbit and negative for
    0 < e < 1. *)
Theorem gw_dedt_sign {consts : Constants} (m1 m2 sepa e : R) :
  0 < NWTG -> 0 < SPLC ->
  0 < m1 -> 0 < m2 -> 0 < sepa -> 0 <= e < 1 ->
  Utils2.gw_dedt m1 m2 sepa e <= 0
  /\ Utils2.gw_dedt m1 m2 sepa 0 = 0
  /\ (0 < e -> Utils2.gw_dedt m1 m2 sepa e < 0).
Proof.
  intros _ _ H1 H2 _ He. unfold Utils2.gw_dedt.
  pose proof gw_dedt_const_neg as Hc.
  pose proof (Rpower_pos sepa 4) as Hp.
  assert (Hm : 0 < m1 * m2 * (m1 + m2)).
  { apply Rmult_lt_0_compat; [apply Rmult_lt_0_compat; assumption|lra]. }
  set (base := Utils2._GW_DEDT_ECC_CONST * m1 * m2 * (m1 + m2) / Rpower sepa 4).
  assert (Hb : base < 0).
  { unfold base.
    replace (Utils2._GW_DEDT_ECC_CONST * m1 * m2 * (m1 + m2) / Rpower sepa 4)
      with (- ((- Utils2._GW_DEDT_ECC_CONST) * (m1 * m2 * (m1 + m2)) / Rpower sepa 4))
      by (field; lra).
    assert (0 < - Utils2._GW_DEDT_ECC_CONST * (m1 * m2 * (m1 + m2)) / Rpower sepa 4).
    { apply Rdiv_lt_0_compat; [|exact Hp]. apply Rmult_lt_0_compat; lra. }
    lra. }
  pose proof (Rpower_pos (1 - e ^ 2) (5 / 2)) as Hq.
  assert (He2 : 0 <= e ^ 2) by (simpl; nra).
  assert (Hfac : forall x, 0 <= x ->
            0 <= (1 + e ^ 2 * 121 / 304) * x / Rpower (1 - e ^ 2) (5 / 2)).
  { intros x Hx. apply Rmult_le_pos; [|apply Rlt_le, Rinv_0_lt_compat, Hq].
    apply Rmult_le_pos; lra. }
  split; [|split].
  - pose proof (Hfac e (proj1 He)). nra.
  - unfold Rdiv. ring.
  - intros Hpos.
    assert (0 < (1 + e ^ 2 * 121 / 304) * e / Rpower (1 - e ^ 2) (5 / 2)).
    { apply Rdiv_lt_0_compat; [|exact Hq]. apply Rmult_lt_0_compat; lra. }
    nra.
Qed.

Lemma gw_dedt_sign_witness :
  @Utils2.gw_dedt Ex.consts 1 1 10 (1 / 2) <= 0
  /\ @Utils2.gw_dedt Ex.consts 1 1 10 0 = 0
  /\ (0 < 1 / 2 -> @Utils2.gw_dedt Ex.consts 1 1 10 (1 / 2) < 0).
Proof.
  apply (@gw_dedt_sign Ex.consts 1 1 10 (1 / 2)); simpl; lra.
Defined.

(** X7.  [gw_dade] is the ratio of the two rates: for positive constants
    and masses, a positive separation and 0 < e < 1,
    da/de = (da/dt) / (de/dt). *)
Theorem gw_dade_is_ratio {consts : Constants} (m1 m2 sepa e : R) :
  0 < NWTG -> 0 < SPLC ->
  0 < m1 -> 0 < m2 -> 0 < sepa -> 0 < e < 1 ->
  Utils2.gw_hardening_rate_dadt m1 m2 sepa (Some e) / Utils2.gw_dedt m1 m2 sepa e
  = Utils2.gw_dade m1 m2 sepa e.
Proof.
  intros _ _ H1 H2 Ha He.
  unfold Utils2.gw_hardening_rate_dadt, Utils2.gw_dedt, Utils2.gw_dade,
    Utils2._gw_ecc_func, Utils2._GW_DADT_SEP_CONST, Utils2._GW_DEDT_ECC_CONST.
  assert (He2 : 0 < 1 - e * e) by nra.
  replace (e ^ 2) with (e * e) by (simpl; ring).
  replace (Rpower sepa 4) with (Rpower sepa 3 * sepa)
    by (rewrite <- Rpower_succ by exact Ha; f_equal; lra).
  replace (Rpower (1 - e * e) (7 / 2)) with (Rpower (1 - e * e) (5 / 2) * (1 - e * e))
    by (rewrite <- Rpower_succ by exact He2; f_equal; lra).
  pose proof (Rpower_pos NWTG 3). pose proof (Rpower_pos SPLC 5).
  pose proof (Rpower_pos sepa 3). pose proof (Rpower_pos (1 - e * e) (5 / 2)).
  assert (0 < 1 + e * e * 121 / 304) by nra.
  assert (0 < 1 + 121 / 304 * (e * e)) by nra.
  field. repeat split; lra.
Qed.

Lemma gw_dade_is_ratio_witness :
  @Utils2.gw_hardening_rate_dadt Ex.consts 1 1 10 (Some (1 / 2))
  / @Utils2.gw_dedt Ex.consts 1 1 10 (1 / 2)
  = Utils2.gw_dade 1 1 10 (1 / 2).
Proof.
  apply (@gw_dade_is_ratio Ex.consts 1 1 10 (1 / 2)); simpl; lra.
Defined.

Section MergeTime.

Context {consts : Constants}.

Lemma gw_const_pos : 0 < 64 * Rpower NWTG 3 / (5 * Rpower SPLC 5).
Proof.
  pose proof (Rpower_pos NWTG 3). pose proof (Rpower_pos SPLC 5).
  apply Rdiv_lt_0_compat; lra.
Qed.

Lemma merge_rate_pos (m1 m2 : R) :
  0 < m1 -> 0 < m2 ->
  0 < 64 * Rpower NWTG 3 / (5 * Rpower SPLC 5) * m1 * m2 * (m1 + m2).
Proof.
  intros H1 H2. pose proof gw_const_pos as HK.
  apply Rmult_lt_0_compat; [|lra].
  apply Rmult_lt_0_compat; [|exact H2].
  apply Rmult_lt_0_compat; [exact HK|exact H1].
Qed.

End MergeTime.

(** X8.  The time to merge is counted from the ISCO: for positive
    constants and masses it is zero at the ISCO radius and grows strictly
    with the separation. *)
Theorem time_to_merge_at_sep_monotone {consts : Constants} (m1 m2 sep1 sep2 : R) :
  0 < SCHW -> 0 < NWTG -> 0 < SPLC ->
  0 < m1 -> 0 < m2 -> 0 < sep1 < sep2 ->
  Utils2.time_to_merge_at_sep m1 m2 (Utils.rad_isco m1 m2) = 0
  /\ Utils2.time_to_merge_at_sep m1 m2 sep1 < Utils2.time_to_merge_at_sep m1 m2 sep2.
Proof.
  intros _ _ _ H1 H2 Hs. unfold Utils2.time_to_merge_at_sep.
  pose proof (merge_rate_pos m1 m2 H1 H2) as HK.
  split.
  - unfold Rdiv. ring.
  - apply Rmult_lt_compat_r; [apply Rinv_0_lt_compat, HK|].
    assert (Rpower sep1 4 < Rpower sep2 4) by (apply Rlt_Rpower_l; lra).
    lra.
Qed.

Lemma time_to_merge_at_sep_monotone_witness :
  @Utils2.time_to_merge_at_sep Ex.consts 1 1 (@Utils.rad_isco Ex.consts 1 1) = 0
  /\ @Utils2.time_to_merge_at_sep Ex.consts 1 1 7
     < @Utils2.time_to_merge_at_sep Ex.consts 1 1 8.
Proof.
  apply (@time_to_merge_at_sep_monotone Ex.consts 1 1 7 8); simpl; lra.
Defined.

(** X9.  [sep_to_merge_in_time] subtracts the ISCO term that
    [time_to_merge_at_sep] subtracts again: for positive constants and
    masses and a time long enough for the separation to be defined, the
    time to merge from the separation computed for a time t is t less
    twice the fourth power of the ISCO radius over the rate constant. *)
Theorem sep_to_merge_then_time {consts : Constants} (m1 m2 time : R) :
  let rate := 64 * Rpower NWTG 3 / (5 * Rpower SPLC 5) * m1 * m2 * (m1 + m2) in
  let a1 := Utils.rad_isco m1 m2 in
  0 < SCHW -> 0 < NWTG -> 0 < SPLC ->
  0 < m1 -> 0 < m2 -> Rpower a1 4 < rate * time ->
  Utils2.time_to_merge_at_sep m1 m2 (Utils2.sep_to_merge_in_time m1 m2 time)
  = time - 2 * Rpower a1 4 / rate.
Proof.
  intros rate a1 _ _ _ H1 H2 Ht.
  unfold Utils2.time_to_merge_at_sep, Utils2.sep_to_merge_in_time.
  fold a1. fold rate.
  pose proof (merge_rate_pos m1 m2 H1 H2) as HK. fold rate in HK.
  rewrite Rpower_inv_base by lra.
  field. lra.
Qed.

Lemma sep_to_merge_then_time_witness :
  let rate := 64 * Rpower (@NWTG Ex.consts) 3 / (5 * Rpower (@SPLC Ex.consts) 5)
              * 1 * 1 * (1 + 1) in
  let a1 := @Utils.rad_isco Ex.consts 1 1 in
  @Utils2.time_to_merge_at_sep Ex.consts 1 1 (@Utils2.sep_to_merge_in_time Ex.consts 1 1 1000)
  = 1000 - 2 * Rpower a1 4 / rate.
Proof.
  intros rate a1.
  apply (@sep_to_merge_then_time Ex.consts 1 1 1000); try (simpl; lra).
  rewrite example_rad_isco. simpl.
  rewrite !Rpower_one_base.
  replace 4 with (INR 4) at 1 by (simpl; lra).
  rewrite Rpower_pow by lra. simpl. lra.
Defined.

Section FrequencyRates.

Context {consts : Constants}.
Hypothesis NWTG_pos : 0 < NWTG.

Lemma kepler_freq_from_sep_pos (mass sep : R) :
  0 < mass -> 0 < Utils2.kepler_freq_from_sep mass sep.
Proof.
  intros Hm. unfold Utils2.kepler_freq_from_sep.
  pose proof PI_RGT_0 as Hpi. pose proof (Rpower_pos sep (3 / 2)) as Hp.
  assert (Hs : 0 < sqrt (NWTG * mass)).
  { apply sqrt_lt_R0. apply Rmult_lt_0_compat; assumption. }
  apply Rdiv_lt_0_compat; [|exact Hp].
  apply Rmult_lt_0_compat; [|exact Hs].
  apply Rdiv_lt_0_compat; lra.
Qed.

Lemma dfda_times_neg (f sepa dadt : R) :
  0 < f -> 0 < sepa -> dadt < 0 -> 0 < - (3 / 2) * (f / sepa) * dadt.
Proof.
  intros Hf Ha Hd.
  assert (0 < f / sepa) by (apply Rdiv_lt_0_compat; assumption).
  nra.
Qed.

End FrequencyRates.

(** X10.  [dfdt_from_dadt] needs the total mass or the orbital frequency
    and raises [ValueError] without both; with either one, a shrinking
    orbit (da/dt < 0 at a positive separation) has a rising frequency, and
    a frequency that is given is used as it is, whatever the mass. *)
Theorem dfdt_from_dadt_hardening {consts : Constants} (dadt sepa m f : R) :
  0 < NWTG -> 0 < sepa -> dadt < 0 -> 0 < m -> 0 < f ->
  Utils2.dfdt_from_dadt dadt sepa None None = inl ValueError
  /\ (exists v, Utils2.dfdt_from_dadt dadt sepa (Some m) None = inr v /\ 0 < v)
  /\ (forall mtot,
        Utils2.dfdt_from_dadt dadt sepa mtot (Some f)
        = inr (- (3 / 2) * (f / sepa) * dadt)
        /\ 0 < - (3 / 2) * (f / sepa) * dadt).
Proof.
  intros HG Ha Hd Hm Hf. split; [reflexivity|]. split.
  - eexists. split; [reflexivity|].
    apply dfda_times_neg; try assumption.
    apply kepler_freq_from_sep_pos; assumption.
  - intros mtot. split.
    + destruct mtot; reflexivity.
    + apply dfda_times_neg; assumption.
Qed.

Lemma dfdt_from_dadt_hardening_witness :
  @Utils2.dfdt_from_dadt Ex.consts (-1) 10 None None = inl ValueError
  /\ (exists v, @Utils2.dfdt_from_dadt Ex.consts (-1) 10 (Some 2) None = inr v /\ 0 < v)
  /\ (forall mtot,
        @Utils2.dfdt_from_dadt Ex.consts (-1) 10 mtot (Some 3)
        = inr (- (3 / 2) * (3 / 10) * -1)
        /\ 0 < - (3 / 2) * (3 / 10) * -1).
Proof.
  apply (@dfdt_from_dadt_hardening Ex.consts (-1) 10 2 3); simpl; lra.
Defined.

(** X11.  The hardening rate in frequency is the rate in separation
    carried over at the separation of that frequency: for positive
    constants, masses and a positive frequency (and an eccentricity in [0, 1) if one is
    given), [gw_hardening_rate_dfdt] returns -(3/2) (f/a) da/dt with
    a = [kepler_sep_from_freq(m1 + m2, f)], and that is positive. *)
Theorem gw_hardening_rate_dfdt_positive {consts : Constants}
    (m1 m2 freq : R) (eccen : option R) :
  0 < NWTG -> 0 < SPLC -> 0 < m1 -> 0 < m2 -> 0 < freq ->
  (forall e, eccen = Some e -> 0 <= e < 1) ->
  let sepa := Utils2.kepler_sep_from_freq (m1 + m2) freq in
  let dfdt := - (3 / 2) * (freq / sepa) * Utils2.gw_hardening_rate_dadt m1 m2 sepa eccen in
  Utils2.gw_hardening_rate_dfdt m1 m2 freq eccen = inr dfdt /\ 0 < dfdt.
Proof.
  intros HG _ H1 H2 Hf He sepa dfdt.
  assert (Hm : 0 < m1 + m2) by lra.
  assert (Ha : 0 < sepa) by apply kepler_sep_from_freq_pos.
  split.
  - unfold Utils2.gw_hardening_rate_dfdt, Utils2.dfdt_from_dadt. fold sepa.
    cbn [bind ret]. unfold sepa at 1.
    rewrite (kepler_freq_of_sep HG) by assumption. reflexivity.
  - unfold dfdt. apply dfda_times_neg; try assumption.
    unfold Utils2.gw_hardening_rate_dadt.
    pose proof (circular_rate_neg m1 m2 sepa H1 H2) as Hneg.
    destruct eccen as [e|]; [|exact Hneg].
    pose proof (gw_ecc_func_ge_1 e (He e eq_refl)). nra.
Qed.

Lemma gw_hardening_rate_dfdt_positive_witness :
  let sepa := @Utils2.kepler_sep_from_freq Ex.consts (1 + 1) 3 in
  let dfdt := - (3 / 2) * (3 / sepa)
              * @Utils2.gw_hardening_rate_dadt Ex.consts 1 1 sepa (Some (1 / 2)) in
  @Utils2.gw_hardening_rate_dfdt Ex.consts 1 1 3 (Some (1 / 2)) = inr dfdt /\ 0 < dfdt.
Proof.
  apply (@gw_hardening_rate_dfdt_positive Ex.consts 1 1 3 (Some (1 / 2))); simpl; try lra.
  intros e E. injection E as <-. lra.
Defined.

(** X12.  The characteristic strain is capped by the observation: for a
    non-negative strain amplitude and a rising frequency, it is at most
    the amplitude times the square root of the number of cycles in the
    band and at most the amplitude times the square root of the number
    of cycles observed, and it is one of the two. *)
Theorem gw_char_strain_capped (hs dur_obs freq_orb_obs freq_orb_rst dfdt : R) :
  0 <= hs -> 0 < dfdt -> 0 <= dur_obs * freq_orb_obs ->
  let hc := Utils2.gw_char_strain hs dur_obs freq_orb_obs freq_orb_rst dfdt in
  0 <= hc
  /\ hc <= hs * sqrt (dur_obs * freq_orb_obs)
  /\ hc <= hs * sqrt (freq_orb_rst ^ 2 / dfdt)
  /\ (hc = hs * sqrt (dur_obs * freq_orb_obs) \/ hc = hs * sqrt (freq_orb_rst ^ 2 / dfdt)).
Proof.
  intros Hhs Hd Hobs hc. unfold hc, Utils2.gw_char_strain.
  set (n := freq_orb_rst ^ 2 / dfdt). set (cap := dur_obs * freq_orb_obs).
  pose proof (sqrt_pos (Rmin n cap)) as H0.
  pose proof (sqrt_le_1_alt _ _ (Rmin_r n cap)) as H1.
  pose proof (sqrt_le_1_alt _ _ (Rmin_l n cap)) as H2.
  repeat split.
  - apply Rmult_le_pos; assumption.
  - apply Rmult_le_compat_l; assumption.
  - apply Rmult_le_compat_l; assumption.
  - unfold Rmin. destruct (Rle_dec n cap); [right|left]; reflexivity.
Qed.

Lemma gw_char_strain_capped_witness :
  let hc := Utils2.gw_char_strain 2 10 3 6 4 in
  0 <= hc
  /\ hc <= 2 * sqrt (10 * 3)
  /\ hc <= 2 * sqrt (6 ^ 2 / 4)
  /\ (hc = 2 * sqrt (10 * 3) \/ hc = 2 * sqrt (6 ^ 2 / 4)).
Proof.
  apply (gw_char_strain_capped 2 10 3 6 4); lra.
Defined.

(** X13.  The chirp mass does not depend on the order of the masses and
    scales with them: for positive masses and a positive factor k,
    chirp_mass(k m1, k m2) = k chirp_mass(m1, m2). *)
Theorem chirp_mass_scales (m1 m2 k : R) :
  0 < m1 -> 0 < m2 -> 0 < k ->
  Utils.chirp_mass m2 m1 = Utils.chirp_mass m1 m2
  /\ Utils.chirp_mass (k * m1) (k * m2) = k * Utils.chirp_mass m1 m2
  /\ 0 < Utils.chirp_mass m1 m2.
Proof.
  intros H1 H2 Hk. unfold Utils.chirp_mass. split; [|split].
  - rewrite (Rmult_comm m2 m1), (Rplus_comm m2 m1). reflexivity.
  - assert (Hp : 0 < m1 * m2) by (apply Rmult_lt_0_compat; assumption).
    replace (k * m1 * (k * m2)) with (Rpower k 2 * (m1 * m2)).
    2:{ replace 2 with (INR 2) by (simpl; lra). rewrite Rpower_pow by exact Hk.
        simpl. ring. }
    replace (k * m1 + k * m2) with (k * (m1 + m2)) by ring.
    rewrite <- !Rpower_mult_distr by (try apply Rpower_pos; lra).
    rewrite Rpower_mult.
    replace (2 * (3 / 5)) with (1 / 5 + 1) by lra.
    rewrite Rpower_succ by exact Hk.
    pose proof (Rpower_pos k (1 / 5)). pose proof (Rpower_pos (m1 + m2) (1 / 5)).
    field. lra.
  - apply Rdiv_lt_0_compat; apply Rpower_pos.
Qed.

Lemma chirp_mass_scales_witness :
  Utils.chirp_mass 2 1 = Utils.chirp_mass 1 2
  /\ Utils.chirp_mass (3 * 1) (3 * 2) = 3 * Utils.chirp_mass 1 2
  /\ 0 < Utils.chirp_mass 1 2.
Proof.
  apply (chirp_mass_scales 1 2 3); lra.
Defined.

(** X14.  [minmax] returns the smallest and the largest element of a
    non-empty array, in that order: both are elements and bound every
    element; on an empty array it raises [ValueError]. *)
Theorem minmax_extrema (vals : list R) :
  vals <> [] ->
  Utils.minmax [] = inl ValueError
  /\ exists lo hi,
       Utils.minmax vals = inr (lo, hi)
       /\ In lo vals /\ In hi vals
       /\ forall x, In x vals -> lo <= x <= hi.
Proof.
  intros Hne. split; [reflexivity|].
  destruct vals as [|a l]; [congruence|].
  unfold Utils.minmax, Np.amin, Np.amax, ret. cbn [bind].
  eexists. eexists. split; [reflexivity|].
  assert (Hmin : forall l x, In (fold_left Rmin l x) (x :: l)).
  { clear. induction l as [|b l IH]; intros x; simpl; [auto|].
    destruct (IH (Rmin x b)) as [E|E]; [|auto].
    rewrite <- E. unfold Rmin. destruct (Rle_dec x b); auto. }
  assert (Hmax : forall l x, In (fold_left Rmax l x) (x :: l)).
  { clear. induction l as [|b l IH]; intros x; simpl; [auto|].
    destruct (IH (Rmax x b)) as [E|E]; [|auto].
    rewrite <- E. unfold Rmax. destruct (Rle_dec x b); auto. }
  split; [apply Hmin|]. split; [apply Hmax|].
  destruct (fold_Rmin_le l a) as [A1 A2]. destruct (fold_Rmax_ge l a) as [B1 B2].
  intros x [<-|Hx]; split; auto.
Qed.

Lemma minmax_extrema_witness :
  Utils.minmax [] = inl ValueError
  /\ exists lo hi,
       Utils.minmax [3; 1; 2] = inr (lo, hi)
       /\ In lo [3; 1; 2] /\ In hi [3; 1; 2]
       /\ forall x, In x [3; 1; 2] -> lo <= x <= hi.
Proof.
  apply (minmax_extrema [3; 1; 2]). discriminate.
Defined.

(** ** Locating and interpolating *)

Section Bracket.

Context {cosmo : Evo.Cosmology} {quad : Evo.Quadrature}.

(** Where [np.argmax] finds the first stored value that is not below the
    target. *)
Lemma argmax_select xn xo k :
  Np.first_true (map (fun x => Rleb xn x) xo) = Some k ->
  (k < length xo)%nat /\ xn <= nth k xo 0
  /\ forall k', (k' < k)%nat -> nth k' xo 0 < xn.
Proof.
  intros E. pose proof (first_true_spec (map (fun x => Rleb xn x) xo)) as H.
  rewrite E in H. destruct H as [Hk Hlt].
  assert (Hlen : (k < length xo)%nat).
  { destruct (Nat.lt_ge_cases k (length xo)) as [L|G]; [exact L|].
    rewrite nth_overflow in Hk by (rewrite length_map; exact G). discriminate Hk. }
  split; [exact Hlen|]. split.
  - rewrite (nth_map_in (fun x => Rleb xn x) _ _ _ 0) in Hk by exact Hlen.
    apply Rleb_true, Hk.
  - intros k' Hk'. specialize (Hlt k' Hk').
    rewrite (nth_map_in (fun x => Rleb xn x) _ _ _ 0) in Hlt by lia.
    apply Rleb_false, Hlt.
Qed.

Lemma index_frac_cases xn xo :
  let c := Evo.index_frac xn xo in
  (Evo.valid c = true
   /\ (0 < Evo.aft c < length xo)%nat /\ Evo.bef c = (Evo.aft c - 1)%nat
   /\ (forall k, (k < Evo.aft c)%nat -> nth k xo 0 < xn)
   /\ xn <= nth (Evo.aft c) xo 0
   /\ Evo.interp_frac c
      = (xn - nth (Evo.bef c) xo 0) / (nth (Evo.aft c) xo 0 - nth (Evo.bef c) xo 0))
  \/ (Evo.valid c = false /\ Evo.aft c = 0%nat /\ Evo.bef c = 0%nat
      /\ Evo.interp_frac c = 0).
Proof.
  cbv zeta. unfold Evo.index_frac, Np.argmax. cbn [Evo.valid Evo.aft Evo.bef Evo.interp_frac].
  destruct (Np.first_true (map (fun x => Rleb xn x) xo)) as [k|] eqn:E.
  - destruct k as [|k].
    + right. cbn. replace (Reqb (nth 0 xo 0 - nth 0 xo 0) 0) with true
        by (symmetry; apply Reqb_true; lra).
      auto.
    + left. destruct (argmax_select _ _ _ E) as (Hlen & Hle & Hlt).
      replace (0 <? S k)%nat with true by reflexivity.
      cbv iota. replace (S k - 1)%nat with k by lia.
      assert (Hb : nth k xo 0 < xn) by (apply Hlt; lia).
      replace (Reqb (nth (S k) xo 0 - nth k xo 0) 0) with false
        by (symmetry; apply Reqb_false; lra).
      repeat split; try assumption; lia.
  - right. cbn. replace (Reqb (nth 0 xo 0 - nth 0 xo 0) 0) with true
      by (symmetry; apply Reqb_true; lra).
    auto.
Qed.

End Bracket.

Lemma index_frac_valid_facts (xn : R) (xo : list R) :
  let c := Evo.index_frac xn xo in
  Evo.valid c = true ->
  (0 < Evo.aft c < length xo)%nat /\ Evo.bef c = (Evo.aft c - 1)%nat
  /\ nth (Evo.bef c) xo 0 < xn <= nth (Evo.aft c) xo 0
  /\ (forall k, (k < Evo.aft c)%nat -> nth k xo 0 < xn)
  /\ 0 < Evo.interp_frac c <= 1.
Proof.
  intros c Hv'. destruct (index_frac_cases xn xo) as [H|H]; fold c in H.
  - destruct H as (Hv & Ha & Hb & Hlt & Hle & Hf).
    assert (Hbef : nth (Evo.bef c) xo 0 < xn) by (apply Hlt; lia).
    repeat split; try assumption; try lia; try lra.
    + rewrite Hf. apply Rdiv_lt_0_compat; lra.
    + rewrite Hf.
      apply (Rmult_le_reg_r (nth (Evo.aft c) xo 0 - nth (Evo.bef c) xo 0)); [lra|].
      unfold Rdiv. rewrite Rmult_assoc, Rinv_l by lra. lra.
  - destruct H as (Hv & _). congruence.
Qed.

(** X15.  [_at__index_frac] brackets every valid target: the step [bef]
    is the step before [aft], the stored value at [bef] is below the
    target, the one at [aft] is not, every earlier stored value is below
    the target, and the fraction lies in (0, 1].  For a target that is not
    valid both indices are 0 and the fraction is 0. *)
Theorem index_frac_brackets (xn : R) (xo : list R) :
  let c := Evo.index_frac xn xo in
  (Evo.valid c = true ->
     (0 < Evo.aft c < length xo)%nat /\ Evo.bef c = (Evo.aft c - 1)%nat
     /\ nth (Evo.bef c) xo 0 < xn <= nth (Evo.aft c) xo 0
     /\ (forall k, (k < Evo.aft c)%nat -> nth k xo 0 < xn)
     /\ 0 < Evo.interp_frac c <= 1)
  /\ (Evo.valid c = false ->
      Evo.aft c = 0%nat /\ Evo.bef c = 0%nat /\ Evo.interp_frac c = 0).
Proof.
  intros c. split.
  - apply index_frac_valid_facts.
  - intros Hv. destruct (index_frac_cases xn xo) as [H|H]; fold c in H.
    + destruct H as (Hv' & _). congruence.
    + destruct H as (_ & Ha & Hb & Hf). auto.
Qed.

Lemma index_frac_brackets_witness :
  let c := Evo.index_frac 5 [1; 4; 8] in
  (0 < Evo.aft c < 3)%nat /\ Evo.bef c = (Evo.aft c - 1)%nat
  /\ nth (Evo.bef c) [1; 4; 8] 0 < 5 <= nth (Evo.aft c) [1; 4; 8] 0
  /\ (forall k, (k < Evo.aft c)%nat -> nth k [1; 4; 8] 0 < 5)
  /\ 0 < Evo.interp_frac c <= 1.
Proof.
  apply (proj1 (index_frac_brackets 5 [1; 4; 8])).
  unfold Evo.index_frac. simpl. Rdecide. reflexivity.
Defined.

Lemma pow10_le (x y : R) : x <= y -> Np.pow10 x <= Np.pow10 y.
Proof. intros H. unfold Np.pow10. apply Rle_Rpower; lra. Qed.

Lemma convex_between (a b f : R) :
  0 <= f <= 1 -> Rmin a b <= a + (b - a) * f <= Rmax a b.
Proof.
  intros Hf. unfold Rmin, Rmax. destruct (Rle_dec a b); split; nra.
Qed.

Lemma interpolate_bounds (lin_interp_flag : bool) (y_aft y_bef frac : R) :
  0 <= frac <= 1 ->
  lin_interp_flag = true \/ (0 < y_aft /\ 0 < y_bef) ->
  Rmin y_bef y_aft <= Evo.interpolate lin_interp_flag y_aft y_bef frac <= Rmax y_bef y_aft.
Proof.
  intros Hf Hflag. unfold Evo.interpolate.
  destruct lin_interp_flag.
  - apply convex_between, Hf.
  - destruct Hflag as [E|[Ha Hb]]; [discriminate E|].
    pose proof (convex_between (Np.log10 y_bef) (Np.log10 y_aft) frac Hf) as [H1 H2].
    assert (Hlo : Rmin y_bef y_aft = Np.pow10 (Rmin (Np.log10 y_bef) (Np.log10 y_aft))).
    { unfold Rmin. destruct (Rle_dec y_bef y_aft) as [L|G].
      - destruct (Rle_dec (Np.log10 y_bef) (Np.log10 y_aft)) as [L'|G'].
        + rewrite pow10_log10 by exact Hb. reflexivity.
        + exfalso. apply G'. apply (proj2 (log10_le_iff y_bef y_aft Hb Ha)). exact L.
      - destruct (Rle_dec (Np.log10 y_bef) (Np.log10 y_aft)) as [L'|G'].
        + exfalso. apply G. apply (proj1 (log10_le_iff y_bef y_aft Hb Ha)). exact L'.
        + rewrite pow10_log10 by exact Ha. reflexivity. }
    assert (Hhi : Rmax y_bef y_aft = Np.pow10 (Rmax (Np.log10 y_bef) (Np.log10 y_aft))).
    { unfold Rmax. destruct (Rle_dec y_bef y_aft) as [L|G].
      - destruct (Rle_dec (Np.log10 y_bef) (Np.log10 y_aft)) as [L'|G'].
        + rewrite pow10_log10 by exact Ha. reflexivity.
        + exfalso. apply G'. apply (proj2 (log10_le_iff y_bef y_aft Hb Ha)). exact L.
      - destruct (Rle_dec (Np.log10 y_bef) (Np.log10 y_aft)) as [L'|G'].
        + exfalso. apply G. apply (proj1 (log10_le_iff y_bef y_aft Hb Ha)). exact L'.
        + rewrite pow10_log10 by exact Hb. reflexivity. }
    rewrite Hlo, Hhi. split; apply pow10_le; assumption.
Qed.

(** X16.  [_at__interpolate_array] stays between the two stored values:
    for a fraction in [0, 1] the interpolated value lies between the value
    before and the value after, in linear space always and in log-log
    space when both values are positive. *)
Theorem interpolate_between (lin_interp_flag : bool) (y_aft y_bef frac : R) :
  0 <= frac <= 1 ->
  lin_interp_flag = true \/ (0 < y_aft /\ 0 < y_bef) ->
  Rmin y_bef y_aft <= Evo.interpolate lin_interp_flag y_aft y_bef frac <= Rmax y_bef y_aft.
Proof. apply interpolate_bounds. Qed.

Lemma interpolate_between_witness :
  Rmin 2 8 <= Evo.interpolate false 8 2 (1 / 2) <= Rmax 2 8.
Proof.
  apply (interpolate_between false 8 2 (1 / 2)); [lra|right; lra].
Defined.

Section AtBetween.

Context {cosmo : Evo.Cosmology} {quad : Evo.Quadrature}.

Lemma xtracks_row_length ev xpar X i :
  Evo.well_shaped ev -> Evo.xtracks ev xpar = inr X ->
  (i < fst (Evo._shape ev))%nat ->
  length (nth i X []) = snd (Evo._shape ev).
Proof.
  intros (Hsc & _ & Hse & Hm & _) H Hi. unfold Evo.xtracks in H.
  pose proof (has_shape_row _ _ _ i Hsc Hi) as Rsc.
  pose proof (has_shape_row _ _ _ i Hse Hi) as Rse.
  pose proof (has_shape_row _ _ _ i Hm Hi) as Rm.
  destruct Hsc as [Hsc _], Hse as [Hse _], Hm as [Hm _].
  destruct (String.eqb xpar XPar.fobs).
  - unfold Evo.freq_orb_obs, Evo.freq_orb_rest in H. minv H. subst.
    minv E. subst.
    rewrite (map2_nth _ _ _ _ [] [])
      by (rewrite ?map2_length, ?length_map; lia).
    rewrite (map2_nth _ _ _ _ [] [])
      by (rewrite ?map2_length, ?length_map; lia).
    rewrite !map2_length.
    rewrite (nth_map_in _ _ _ _ []) by lia.
    rewrite (nth_map_in _ (Evo.scafa ev) _ _ []) by lia.
    rewrite !length_map. lia.
  - injection H as <-.
    rewrite (nth_map_in _ _ _ _ []) by lia.
    rewrite length_rev. exact Rse.
Qed.

(** X17.  Every value that [at] returns for a stored (N, S) parameter
    lies between the stored values of that parameter at two consecutive
    steps of the binary: for a parameter interpolated in linear space
    always, for one interpolated in log-log space when its stored values
    are positive. *)
Theorem at_entry_between_stored ev xpar targets params lin res X i j par I y v :
  Evo.at_ ev xpar targets params false lin = inr res ->
  Evo.xtracks ev xpar = inr X ->
  Evo.well_shaped ev ->
  (i < fst (Evo._shape ev))%nat -> (j < length targets)%nat ->
  In (par, Some I) res ->
  Evo.getattr ev par = Some (Evo.Scalar y) ->
  Evo.scalar_entry I i j = Some v ->
  Evo.lin_interp_flag params lin par = true \/ Forall (Rlt 0) (nth i y []) ->
  exists s,
    (S s < snd (Evo._shape ev))%nat
    /\ Rmin (Evo.stored y i s) (Evo.stored y i (S s)) <= v
       <= Rmax (Evo.stored y i s) (Evo.stored y i (S s)).
Proof.
  intros Hat HX Hws Hi Hj Hin Hy Hv Hflag.
  destruct (at_entry _ _ _ _ _ _ _ _ _ _ _ Hat HX Hws Hi Hj Hin)
    as (lil & Hlil & [(y' & a & Hy' & -> & Ha)|(a & -> & _)]);
    [|discriminate Hy].
  rewrite Hy in Hy'. injection Hy' as <-.
  cbn [Evo.scalar_entry] in Hv. rewrite Hv in Ha.
  set (c := Evo.index_frac (Np.log10 (nth j targets 0)) (map Np.log10 (nth i X []))) in *.
  destruct (Evo.valid c) eqn:Hvalid; [|discriminate Ha].
  injection Ha as ->.
  destruct (index_frac_valid_facts _ _ Hvalid) as (Haft & Hbef & _ & _ & Hfrac).
  fold c in Haft, Hbef, Hfrac.
  rewrite length_map, (xtracks_row_length _ _ _ _ Hws HX Hi) in Haft.
  pose proof (has_shape_row _ _ _ i (getattr_scalar_shape _ _ _ Hws Hy) Hi) as Hrow.
  assert (Hfl : Evo.par_in par lil = Evo.lin_interp_flag params lin par).
  { rewrite Hlil. reflexivity. }
  assert (Hpos : forall k, (k < snd (Evo._shape ev))%nat ->
            Evo.par_in par lil = true \/ 0 < nth k (nth i y []) 0).
  { intros k Hk. destruct Hflag as [E|F]; [left; congruence|right].
    rewrite Forall_forall in F. apply F, nth_In. lia. }
  assert (Hf01 : 0 <= Evo.interp_frac c <= 1) by lra.
  unfold scalar_value, Evo.stored.
  destruct (negb (String.eqb xpar XPar.fobs)).
  - exists (snd (Evo._shape ev) - S (Evo.aft c))%nat. split; [lia|].
    rewrite !rev_nth by lia. rewrite Hrow.
    replace (snd (Evo._shape ev) - S (Evo.bef c))%nat
      with (S (snd (Evo._shape ev) - S (Evo.aft c))) by lia.
    rewrite Rmin_comm, Rmax_comm.
    apply interpolate_bounds; [exact Hf01|].
    destruct (Hpos (snd (Evo._shape ev) - S (Evo.aft c))%nat) as [E|P1]; [lia|auto|].
    destruct (Hpos (S (snd (Evo._shape ev) - S (Evo.aft c)))) as [E|P2]; [lia|auto|].
    right. split; assumption.
  - exists (Evo.bef c). split; [lia|].
    replace (S (Evo.bef c)) with (Evo.aft c) by lia.
    apply interpolate_bounds; [exact Hf01|].
    destruct (Hpos (Evo.aft c)) as [E|P1]; [lia|auto|].
    destruct (Hpos (Evo.bef c)) as [E|P2]; [lia|auto|].
    right. split; assumption.
Qed.

End AtBetween.

Lemma at_entry_between_stored_witness :
  exists res I v s,
    @Evo.at_ Ex.cosmo Ex.quad (Ex2.ev_stepped true) XPar.fobs [1 / 10] (Some [Evo.Eccen])
      false Evo.LI_None = inr res
    /\ In (Evo.Eccen, Some I) res
    /\ Evo.scalar_entry I 0 0 = Some v
    /\ (S s < 2)%nat
    /\ Rmin (Evo.stored [[1 / 2; 223 / 500]] 0 s) (Evo.stored [[1 / 2; 223 / 500]] 0 (S s))
       <= v
       <= Rmax (Evo.stored [[1 / 2; 223 / 500]] 0 s) (Evo.stored [[1 / 2; 223 / 500]] 0 (S s)).
Proof.
  destruct (example_at_runs (1 / 10)) as (res & I & Hres & HI); [lra|].
  assert (Hv : exists v, Evo.scalar_entry I 0 0 = Some v).
  { destruct (@at_entry Ex.cosmo Ex.quad (Ex2.ev_stepped true) XPar.fobs [1 / 10]
                (Some [Evo.Eccen]) Evo.LI_None res [[1 / 60; 1 / 3]] 0 0 Evo.Eccen I
                Hres example_freq_orb_obs example_well_shaped (le_n 1) (le_n 1) HI)
      as (lil & _ & [(y & a & _ & -> & Ha)|(a & Hm & _)]); [|discriminate Hm].
    cbn [nth] in Ha. cbn [Evo.scalar_entry]. rewrite Ha.
    assert (Hpos : 0 < 1 / 10) by lra.
    assert (Hne : [1 / 60; 1 / 3] <> []) by discriminate.
    pose proof (@log10_track_valid (1 / 10) [1 / 60; 1 / 3] Hpos example_fobs_positive
                  example_fobs_sorted_le Hne) as Hval.
    destruct (Evo.valid _); [eexists; reflexivity|].
    destruct Hval as [_ Hval]. simpl in Hval.
    assert (Hin : 1 / 60 < 1 / 10 <= 1 / 3) by lra.
    specialize (Hval Hin). discriminate Hval. }
  destruct Hv as (v & Hv).
  destruct (@at_entry_between_stored Ex.cosmo Ex.quad (Ex2.ev_stepped true) XPar.fobs
              [1 / 10] (Some [Evo.Eccen]) Evo.LI_None res [[1 / 60; 1 / 3]] 0 0
              Evo.Eccen I [[1 / 2; 223 / 500]] v
              Hres example_freq_orb_obs example_well_shaped (le_n 1) (le_n 1) HI
              eq_refl Hv (or_introl eq_refl)) as (s & Hs & Hb).
  exists res, I, v, s. repeat split; try assumption; apply Hb.
Defined.

(** ** The errors of [at] *)

Lemma fold_Rmin_In (l : list R) (x : R) : In (fold_left Rmin l x) (x :: l).
Proof.
  revert x. induction l as [|b l IH]; intros x; simpl; [auto|].
  destruct (IH (Rmin x b)) as [E|E]; [|auto].
  rewrite <- E. unfold Rmin. destruct (Rle_dec x b); auto.
Qed.

Lemma fold_Rmax_In (l : list R) (x : R) : In (fold_left Rmax l x) (x :: l).
Proof.
  revert x. induction l as [|b l IH]; intros x; simpl; [auto|].
  destruct (IH (Rmax x b)) as [E|E]; [|auto].
  rewrite <- E. unfold Rmax. destruct (Rle_dec x b); auto.
Qed.

Lemma minmax_cases (l : list R) :
  (l = [] /\ Utils.minmax l = inl ValueError)
  \/ (exists lo hi, Utils.minmax l = inr (lo, hi) /\ In lo l /\ In hi l).
Proof.
  destruct l as [|a l]; [left; split; reflexivity|right].
  unfold Utils.minmax, Np.amin, Np.amax, ret. cbn [bind].
  eexists. eexists. split; [reflexivity|].
  split; [apply fold_Rmin_In|apply fold_Rmax_In].
Qed.

Section AtErrors.

Context {cosmo : Evo.Cosmology} {quad : Evo.Quadrature}.

(** The tracks that [_at__inputs] compares the targets with. *)
Lemma at_inputs_tracks ev xpar targets X :
  Evo.xtracks ev xpar = inr X ->
  (if String.eqb xpar XPar.fobs
   then fobs <- Evo.freq_orb_obs ev ;;
        ret (map Np.log10 targets, map (map Np.log10) fobs, false)
   else ret (map Np.log10 targets,
             map (fun row => List.rev (map Np.log10 row)) (Evo.sepa ev), true))
  = inr (map Np.log10 targets, map (map Np.log10) X, negb (String.eqb xpar XPar.fobs)).
Proof.
  intros HX. unfold Evo.xtracks in HX. destruct (String.eqb xpar XPar.fobs).
  - rewrite HX. reflexivity.
  - injection HX as <-. unfold ret. rewrite map_map.
    replace (map (fun x : list R => map Np.log10 (List.rev x)) (Evo.sepa ev))
      with (map (fun row => List.rev (map Np.log10 row)) (Evo.sepa ev));
      [reflexivity|].
    apply map_ext. intros row. symmetry. apply map_rev.
Qed.

Lemma lin_interp_list_ok params lin :
  match lin with
  | Evo.LI_List l =>
      forallb (fun ll => Evo.par_in ll
                 match params with None => Evo._EVO_PARS | Some ps => ps end) l = true
  | _ => True
  end ->
  exists lil,
    match lin with
    | Evo.LI_None => ret Evo._LIN_INTERP_PARS
    | Evo.LI_List l =>
        if forallb (fun ll => Evo.par_in ll
                      match params with None => Evo._EVO_PARS | Some l0 => l0 end) l
        then ret l else raise ValueError
    | Evo.LI_Bool true => ret match params with None => Evo._EVO_PARS | Some l => l end
    | Evo.LI_Bool false => ret []
    end = inr lil.
Proof.
  intros Hlin. destruct lin as [|l|[|]]; try (eexists; reflexivity).
  rewrite Hlin. eexists; reflexivity.
Qed.

(** X18.  On an evolved instance [at] raises [ValueError] for an
    independent variable other than ['sepa'] and ['fobs'], and for a list
    [lin_interp] that names a parameter that is not requested. *)
Theorem at_bad_arguments ev xpar targets params coal_only (l : list Evo.Par) ll :
  Evo._evolved ev = true ->
  (String.eqb xpar XPar.sepa || String.eqb xpar XPar.fobs = false ->
   forall lin, Evo.at_ ev xpar targets params coal_only lin = inl ValueError)
  /\ (In ll l ->
      Evo.par_in ll match params with None => Evo._EVO_PARS | Some ps => ps end = false ->
      Evo.at_ ev xpar targets params coal_only (Evo.LI_List l) = inl ValueError).
Proof.
  intros Hev. split.
  - intros Hx lin. unfold Evo.at_, Evo._at__inputs, Evo._check_evolved.
    rewrite Hev. cbn [bind ret]. rewrite Hx. reflexivity.
  - intros Hin Hll. unfold Evo.at_, Evo._at__inputs, Evo._check_evolved.
    rewrite Hev. cbn [bind ret].
    destruct (negb (String.eqb xpar XPar.sepa || String.eqb xpar XPar.fobs));
      [reflexivity|].
    replace (forallb (fun ll0 => Evo.par_in ll0
                        match params with None => Evo._EVO_PARS | Some l0 => l0 end) l)
      with false; [reflexivity|].
    symmetry. apply Bool.not_true_is_false. intros H.
    rewrite forallb_forall in H. specialize (H ll Hin). congruence.
Qed.

(** X19.  On an evolved instance [at] raises [ValueError] when no target
    can lie on any track: when there is no target, and when every target
    is below every stored value of the independent variable of every
    binary, or every target above every stored value. *)
Theorem at_targets_out_of_range ev xpar targets params coal_only lin X :
  Evo._evolved ev = true ->
  String.eqb xpar XPar.sepa || String.eqb xpar XPar.fobs = true ->
  Evo.xtracks ev xpar = inr X ->
  Forall (Rlt 0) targets -> Forall (Rlt 0) (concat X) ->
  (forall t x, In t targets -> In x (concat X) -> t < x)
  \/ (forall t x, In t targets -> In x (concat X) -> x < t) ->
  Evo.at_ ev xpar targets params coal_only lin = inl ValueError.
Proof.
  intros Hev Hx HX Htp HXp Hout.
  unfold Evo.at_, Evo._at__inputs, Evo._check_evolved.
  rewrite Hev. cbn [bind ret]. rewrite Hx. cbn [negb].
  match goal with
  | |- bind (bind ?m _) _ = _ => destruct m as [e|lil] eqn:El
  end.
  { assert (e = ValueError) as ->; [|reflexivity].
    destruct lin as [|l|[|]]; try discriminate El.
    destruct (forallb _ l); [discriminate El|]. injection El as <-. reflexivity. }
  cbn [bind]. rewrite (at_inputs_tracks _ _ _ _ HX). cbn [bind].
  rewrite <- concat_map.
  destruct (minmax_cases (map Np.log10 targets)) as [[_ ->]|(lo1 & hi1 & -> & Hlo1 & Hhi1)];
    [reflexivity|].
  cbn [bind].
  destruct (minmax_cases (map Np.log10 (concat X)))
    as [[_ ->]|(lo2 & hi2 & -> & Hlo2 & Hhi2)]; [reflexivity|].
  cbn [bind fst snd].
  rewrite Forall_forall in Htp, HXp.
  apply in_map_iff in Hlo1, Hhi1, Hlo2, Hhi2.
  destruct Hlo1 as (t1 & <- & Ht1), Hhi1 as (t2 & <- & Ht2).
  destruct Hlo2 as (x1 & <- & Hx1), Hhi2 as (x2 & <- & Hx2).
  destruct Hout as [Hb|Ha].
  - replace (Rltb (Np.log10 t2) (Np.log10 x1)) with true; [reflexivity|].
    symmetry. apply Rltb_true. apply log10_lt_iff; auto.
  - replace (Rltb (Np.log10 x2) (Np.log10 t1)) with true;
      [rewrite Bool.orb_true_r; reflexivity|].
    symmetry. apply Rltb_true. apply log10_lt_iff; auto.
Qed.

End AtErrors.

Lemma at_bad_arguments_witness :
  @Evo.at_ Ex.cosmo Ex.quad (Ex2.ev_stepped true) XPar.fobs [1 / 10] (Some [Evo.Eccen])
    false (Evo.LI_List [Evo.Sepa]) = inl ValueError.
Proof.
  apply (proj2 (@at_bad_arguments Ex.cosmo Ex.quad (Ex2.ev_stepped true) XPar.fobs
                  [1 / 10] (Some [Evo.Eccen]) false [Evo.Sepa] Evo.Sepa eq_refl)).
  - left. reflexivity.
  - reflexivity.
Defined.

Lemma at_targets_out_of_range_witness :
  @Evo.at_ Ex.cosmo Ex.quad (Ex2.ev_stepped true) XPar.fobs [1 / 100; 1 / 80]
    (Some [Evo.Eccen]) false Evo.LI_None = inl ValueError.
Proof.
  apply (@at_targets_out_of_range Ex.cosmo Ex.quad (Ex2.ev_stepped true) XPar.fobs
           [1 / 100; 1 / 80] (Some [Evo.Eccen]) false Evo.LI_None [[1 / 60; 1 / 3]]).
  - reflexivity.
  - reflexivity.
  - exact example_freq_orb_obs.
  - repeat constructor; lra.
  - simpl. repeat constructor; lra.
  - left. intros t x Ht Hx. simpl in Ht, Hx.
    destruct Ht as [<-|[<-|[]]]; destruct Hx as [<-|[<-|[]]]; lra.
Defined.

(** ** Coalescing binaries only *)

Section AtCoal.

Context {cosmo : Evo.Cosmology} {quad : Evo.Quadrature}.

Lemma coal_length ev : length (Evo.coal ev) = length (Evo.scafa ev).
Proof. unfold Evo.coal. apply length_map. Qed.

Lemma valid_mask_length_gen ev coal_only scafa xnew xold :
  (length xold <= length scafa)%nat -> (length xold <= length (Evo.scafa ev))%nat ->
  length (Evo.valid_mask ev coal_only scafa (Evo._at__index_frac xnew xold)) = length xold.
Proof.
  intros H H'. unfold Evo.valid_mask.
  destruct coal_only;
    rewrite !map2_length, ?length_map, ?index_frac_length, ?coal_length; lia.
Qed.

Lemma valid_mask_row_gen ev coal_only scafa xnew xold i :
  (i < length xold)%nat -> (i < length scafa)%nat -> (i < length (Evo.scafa ev))%nat ->
  nth i (Evo.valid_mask ev coal_only scafa (Evo._at__index_frac xnew xold)) []
  = map (fun xn => Evo.valid (Evo.index_frac xn (nth i xold []))
                   && (negb coal_only || nth i (Evo.coal ev) false)) xnew.
Proof.
  intros Hi Hs Hs'. unfold Evo.valid_mask.
  assert (Hf : forall pick,
    nth i (Np.map2 (fun srow crow =>
                      map (fun c => isfinite (nth (pick c) srow 0)) crow)
             scafa (Evo._at__index_frac xnew xold)) []
    = map (fun _ => true) (nth i (Evo._at__index_frac xnew xold) [])).
  { intros pick. rewrite (map2_nth _ _ _ _ [] []) by (rewrite ?index_frac_length; lia).
    reflexivity. }
  assert (Hv : nth i (if coal_only
                      then Np.map2 (fun row (c : bool) => map (fun v => v && c) row)
                             (map (map Evo.valid) (Evo._at__index_frac xnew xold))
                             (Evo.coal ev)
                      else map (map Evo.valid) (Evo._at__index_frac xnew xold)) []
               = map (fun xn => Evo.valid (Evo.index_frac xn (nth i xold []))
                                && (negb coal_only || nth i (Evo.coal ev) false)) xnew).
  { destruct coal_only.
    - rewrite (map2_nth _ _ _ _ [] false)
        by (rewrite ?length_map, ?index_frac_length, ?coal_length; lia).
      rewrite (nth_map_in (map Evo.valid) _ _ _ []) by (rewrite index_frac_length; lia).
      rewrite index_frac_row by exact Hi. rewrite !map_map. reflexivity.
    - rewrite (nth_map_in (map Evo.valid) _ _ _ []) by (rewrite index_frac_length; lia).
      rewrite index_frac_row by exact Hi. rewrite !map_map.
      apply map_ext. intros xn. cbn [negb orb]. rewrite andb_true_r. reflexivity. }
  assert (Hlen : (i < length (if coal_only
                              then Np.map2 (fun row (c : bool) => map (fun v => v && c) row)
                                     (map (map Evo.valid) (Evo._at__index_frac xnew xold))
                                     (Evo.coal ev)
                              else map (map Evo.valid) (Evo._at__index_frac xnew xold)))%nat).
  { destruct coal_only;
      rewrite ?map2_length, ?length_map, ?index_frac_length, ?coal_length; lia. }
  rewrite (map2_nth _ _ _ _ [] [])
    by (rewrite ?map2_length, ?index_frac_length; lia).
  rewrite (map2_nth _ _ _ _ [] [])
    by (rewrite ?map2_length, ?index_frac_length; lia).
  rewrite !Hf, Hv.
  rewrite index_frac_row by exact Hi. rewrite !map_map.
  rewrite !map2_map_map.
  apply map_ext. intros xn. rewrite !andb_true_r. reflexivity.
Qed.

Lemma fill_rows_gen {A B} (f : list A -> list Evo.IndexFrac -> list B)
    (g : list A -> Evo.IndexFrac -> B)
    ev coal_only scafa xnew xold (y : list (list A)) i :
  (forall row cf, f row cf = map (g row) cf) ->
  (i < length xold)%nat -> (i < length scafa)%nat -> (i < length y)%nat ->
  (length xold <= length scafa)%nat -> (length xold <= length (Evo.scafa ev))%nat ->
  nth i (Np.map2 Evo.fill_invalid
           (Evo.valid_mask ev coal_only scafa (Evo._at__index_frac xnew xold))
           (Np.map2 f y (Evo._at__index_frac xnew xold))) []
  = map (fun xn =>
           let c := Evo.index_frac xn (nth i xold []) in
           if Evo.valid c && (negb coal_only || nth i (Evo.coal ev) false)
           then Some (g (nth i y []) c) else None) xnew.
Proof.
  intros Hf Hi Hs Hy Hle Hle'.
  rewrite (map2_nth _ _ _ _ [] [])
    by (rewrite ?valid_mask_length_gen, ?map2_length, ?index_frac_length; lia).
  rewrite valid_mask_row_gen by (assumption || lia).
  rewrite (map2_nth _ _ _ _ [] []) by (rewrite ?index_frac_length; lia).
  rewrite Hf, index_frac_row by exact Hi.
  unfold Evo.fill_invalid. rewrite map_map, map2_map_map. reflexivity.
Qed.

(** The entries of the result of [at], with or without [coal]. *)
Lemma at_entry_gen ev xpar targets params coal_only lin res X i j par I :
  Evo.at_ ev xpar targets params coal_only lin = inr res ->
  Evo.xtracks ev xpar = inr X ->
  Evo.well_shaped ev ->
  (i < fst (Evo._shape ev))%nat -> (j < length targets)%nat ->
  In (par, Some I) res ->
  let c := Evo.index_frac (Np.log10 (nth j targets 0)) (map Np.log10 (nth i X [])) in
  let rev := negb (String.eqb xpar XPar.fobs) in
  let keep := Evo.valid c && (negb coal_only || nth i (Evo.coal ev) false) in
  exists lil,
    lil = match lin with
          | Evo.LI_None => Evo._LIN_INTERP_PARS
          | Evo.LI_List l => l
          | Evo.LI_Bool true => match params with None => Evo._EVO_PARS | Some l => l end
          | Evo.LI_Bool false => []
          end
    /\ ((exists y a, Evo.getattr ev par = Some (Evo.Scalar y) /\ I = Evo.IScalar a
          /\ nth j (nth i a []) None
             = if keep then Some (scalar_value rev (Evo.par_in par lil) (nth i y []) c)
               else None)
        \/ (exists a, par = Evo.Mass /\ I = Evo.IDouble a
              /\ nth j (nth i a []) None
                 = if keep
                   then Some (double_value rev (Evo.par_in par lil)
                                (nth i (Evo.mass ev) []) c)
                   else None)).
Proof.
  intros Hat HX Hws Hi Hj Hin c rev keep.
  apply at_inv in Hat. destruct Hat as (xnew & xold & ps & lil & rev' & Hinp & ->).
  apply at_inputs_inv in Hinp.
  destruct Hinp as (_ & -> & -> & -> & -> & X' & HX' & ->).
  rewrite HX in HX'. injection HX' as <-.
  pose proof (xtracks_length _ _ _ Hws HX) as HlenX.
  eexists. split; [reflexivity|].
  apply in_map_iff in Hin. destruct Hin as (par' & E & _).
  injection E as -> E.
  destruct (Evo.getattr ev par) as [[y|m]|] eqn:Eg; [| |discriminate E].
  - left. cbn [option_map] in E. injection E as <-.
    exists y. eexists. split; [reflexivity|]. split; [reflexivity|].
    pose proof (getattr_scalar_length _ _ _ Hws Eg) as Hly.
    destruct Hws as ((Hsc & _) & _).
    set (flag := Evo.par_in par _).
    rewrite (fill_rows_gen _ (fun row c' => Evo.interpolate flag
               (nth (Evo.aft c') row 0) (nth (Evo.bef c') row 0) (Evo.interp_frac c')));
      try (rewrite ?length_map; destruct (negb _); rewrite ?length_map; lia);
      [|intros; reflexivity].
    rewrite (nth_map_in _ _ _ _ 0) by (rewrite length_map; exact Hj).
    rewrite (nth_map_in Np.log10 _ _ _ 0) by exact Hj.
    rewrite (nth_map_in (map Np.log10) _ _ _ []) by lia.
    cbv zeta. fold c. fold keep. destruct keep; [|reflexivity].
    f_equal. unfold scalar_value. fold rev.
    destruct rev; [|reflexivity].
    rewrite (nth_map_in (@List.rev R) _ _ _ []) by lia. reflexivity.
  - right. apply getattr_double in Eg. destruct Eg as [-> ->].
    cbn [option_map] in E. injection E as <-.
    eexists. split; [reflexivity|]. split; [reflexivity|].
    destruct Hws as ((Hsc & _) & _ & _ & (Hm & _) & _).
    set (flag := Evo.par_in Evo.Mass _).
    rewrite (fill_rows_gen _ (fun row c' =>
               (Evo.interpolate flag
                  (fst (nth (Evo.aft c') row (0, 0))) (fst (nth (Evo.bef c') row (0, 0)))
                  (Evo.interp_frac c'),
                Evo.interpolate flag
                  (snd (nth (Evo.aft c') row (0, 0))) (snd (nth (Evo.bef c') row (0, 0)))
                  (Evo.interp_frac c'))));
      try (rewrite ?length_map; destruct (negb _); rewrite ?length_map; lia);
      [|intros; reflexivity].
    rewrite (nth_map_in _ _ _ _ 0) by (rewrite length_map; exact Hj).
    rewrite (nth_map_in Np.log10 _ _ _ 0) by exact Hj.
    rewrite (nth_map_in (map Np.log10) _ _ _ []) by lia.
    cbv zeta. fold c. fold keep. destruct keep; [|reflexivity].
    f_equal. unfold double_value. fold rev.
    destruct rev; [|reflexivity].
    rewrite (nth_map_in (map (fun m : R * R => (snd m, fst m))) _ _ _ []) by lia.
    reflexivity.
Qed.

(** X20.  With [coal=True], a binary whose scale factor at the last step
    is not below 1 gets [np.nan] in every returned array at every target,
    and a binary that coalesces before redshift zero gets what [at]
    returns for it without [coal]. *)
Theorem at_coal_only ev xpar targets params lin res res' X i j par I I' :
  Evo.at_ ev xpar targets params true lin = inr res ->
  Evo.at_ ev xpar targets params false lin = inr res' ->
  Evo.xtracks ev xpar = inr X ->
  Evo.well_shaped ev ->
  (i < fst (Evo._shape ev))%nat -> (j < length targets)%nat ->
  In (par, Some I) res -> In (par, Some I') res' ->
  (1 <= last (nth i (Evo.scafa ev) []) 0 -> Evo.entry_is_nan I i j)
  /\ (last (nth i (Evo.scafa ev) []) 0 < 1 ->
      Evo.scalar_entry I i j = Evo.scalar_entry I' i j
      /\ Evo.double_entry I i j = Evo.double_entry I' i j).
Proof.
  intros Hat Hat' HX Hws Hi Hj Hin Hin'.
  destruct (at_entry_gen _ _ _ _ _ _ _ _ _ _ _ _ Hat HX Hws Hi Hj Hin) as (lil & El & H).
  destruct (at_entry_gen _ _ _ _ _ _ _ _ _ _ _ _ Hat' HX Hws Hi Hj Hin')
    as (lil' & El' & H').
  rewrite <- El in El'. subst lil'. clear El.
  assert (Hc : nth i (Evo.coal ev) false = Rltb (last (nth i (Evo.scafa ev) []) 0) 1).
  { unfold Evo.coal. destruct Hws as ((Hsc & _) & _).
    apply (nth_map_in (fun row => Rltb (last row 0) 1)). lia. }
  cbn [negb orb] in H, H'. rewrite andb_true_r in H'. rewrite Hc in H.
  split.
  - intros Hge. replace (Rltb _ 1) with false in H by (symmetry; apply Rltb_false; lra).
    rewrite andb_false_r in H.
    destruct H as [(y & a & _ & -> & E)|(a & _ & -> & E)]; exact E.
  - intros Hlt. replace (Rltb _ 1) with true in H by (symmetry; apply Rltb_true; lra).
    rewrite andb_true_r in H.
    destruct H as [(y & a & Hy & -> & E)|(a & Hm & -> & E)];
      destruct H' as [(y' & a' & Hy' & -> & E')|(a' & Hm' & -> & E')];
      cbn [Evo.scalar_entry Evo.double_entry]; subst.
    + rewrite Hy in Hy'. injection Hy' as <-. rewrite E, E'. split; reflexivity.
    + discriminate Hy.
    + discriminate Hy'.
    + rewrite E, E'. split; reflexivity.
Qed.

End AtCoal.

Lemma example_at_runs_coal (coal_only : bool) (t : R) :
  1 / 60 <= t <= 1 / 3 ->
  exists res I,
    @Evo.at_ Ex.cosmo Ex.quad (Ex2.ev_stepped true) XPar.fobs [t] (Some [Evo.Eccen])
      coal_only Evo.LI_None = inr res
    /\ In (Evo.Eccen, Some I) res.
Proof.
  intros Ht.
  destruct (@at_runs Ex.cosmo Ex.quad (Ex2.ev_stepped true) XPar.fobs [t]
              (Some [Evo.Eccen]) coal_only Evo.LI_None [[1 / 60; 1 / 3]] t (1 / 60) (1 / 3))
    as (res & Hres).
  - reflexivity.
  - reflexivity.
  - exact example_freq_orb_obs.
  - exact I.
  - left. reflexivity.
  - simpl. auto.
  - simpl. auto.
  - split; apply log10_le_iff; lra.
  - destruct (at_result_in _ _ _ _ _ _ _ Evo.Eccen _ Hres (or_introl eq_refl) eq_refl)
      as (I & HI).
    exists res, I. split; assumption.
Qed.

Lemma at_coal_only_witness :
  exists res I,
    @Evo.at_ Ex.cosmo Ex.quad (Ex2.ev_stepped true) XPar.fobs [1 / 10] (Some [Evo.Eccen])
      true Evo.LI_None = inr res
    /\ In (Evo.Eccen, Some I) res
    /\ Evo.entry_is_nan I 0 0.
Proof.
  destruct (example_at_runs_coal true (1 / 10)) as (res & I & Hres & HI); [lra|].
  destruct (example_at_runs_coal false (1 / 10)) as (res' & I' & Hres' & HI'); [lra|].
  exists res, I. split; [exact Hres|]. split; [exact HI|].
  apply (proj1 (@at_coal_only Ex.cosmo Ex.quad (Ex2.ev_stepped true) XPar.fobs [1 / 10]
                  (Some [Evo.Eccen]) Evo.LI_None res res' [[1 / 60; 1 / 3]] 0 0
                  Evo.Eccen I I' Hres Hres' example_freq_orb_obs example_well_shaped
                  (le_n 1) (le_n 1) HI HI')).
  simpl. lra.
Defined.
(** ** The shape of the result of [at] *)

Lemma Par_eqb_eq (a b : Evo.Par) : Evo.Par_eqb a b = true <-> a = b.
Proof. destruct a, b; simpl; split; intros H; try reflexivity; discriminate H. Qed.

Section Dict.

Context {V : Type}.
Variable f : Evo.Par -> V.

Lemma dict_set_keys k (v : V) d k' :
  In k' (map fst (At.dict_set k v d)) <-> k' = k \/ In k' (map fst d).
Proof.
  induction d as [|[k0 v0] d IH]; simpl.
  - intuition congruence.
  - destruct (Evo.Par_eqb k k0) eqn:E; simpl.
    + apply Par_eqb_eq in E. subst k0. intuition congruence.
    + rewrite IH. intuition congruence.
Qed.

Lemma dict_set_good k d : At.dict_by f d -> At.dict_by f (At.dict_set k (f k) d).
Proof.
  unfold At.dict_by. induction d as [|[k0 v0] d IH]; simpl; intros [Hnd Hf].
  - split; [repeat constructor; intros []|].
    intros kv [<-|[]]. reflexivity.
  - inversion Hnd as [|? ? Hnot Hnd']; subst.
    destruct (Evo.Par_eqb k k0) eqn:E; simpl.
    + apply Par_eqb_eq in E. subst k0. split; [constructor; assumption|].
      intros kv [<-|H]; [reflexivity|]. apply Hf. right. exact H.
    + destruct IH as [IH1 IH2].
      { split; [exact Hnd'|]. intros kv H. apply Hf. right. exact H. }
      split.
      * constructor; [|exact IH1].
        rewrite dict_set_keys. intros [->|H]; [|exact (Hnot H)].
        assert (Evo.Par_eqb k k = true) by (apply Par_eqb_eq; reflexivity).
        congruence.
      * intros kv [<-|H]; [apply (Hf (k0, v0)); left; reflexivity|apply IH2, H].
Qed.

Lemma dict_fold_good ps d :
  At.dict_by f d ->
  let d' := fold_left (fun d kv => At.dict_set (fst kv) (snd kv) d)
              (map (fun p => (p, f p)) ps) d in
  At.dict_by f d' /\ forall k, In k (map fst d') <-> In k (map fst d) \/ In k ps.
Proof.
  revert d. induction ps as [|p ps IH]; intros d Hd; simpl.
  - split; [exact Hd|]. intros k. tauto.
  - destruct (IH (At.dict_set p (f p) d) (dict_set_good p d Hd)) as [H1 H2].
    split; [exact H1|]. intros k. rewrite H2, dict_set_keys.
    split; intros H; intuition auto.
Qed.

(** The dictionary built from one assignment per requested name: its keys
    are distinct, they are the requested names, and the value of a key
    is its value under [f]. *)
Lemma dict_of_items ps :
  let d := At.dict_of (map (fun p => (p, f p)) ps) in
  NoDup (map fst d)
  /\ (forall k, In k (map fst d) <-> In k ps)
  /\ (forall k v, In (k, v) d <-> In k ps /\ v = f k).
Proof.
  intros d.
  destruct (dict_fold_good ps []) as [[Hnd Hf] Hk].
  { split; [constructor|intros kv []]. }
  fold (At.dict_of (map (fun p => (p, f p)) ps)) in Hnd, Hf, Hk. fold d in Hnd, Hf, Hk.
  assert (Hkeys : forall k, In k (map fst d) <-> In k ps).
  { intros k. rewrite Hk. simpl. tauto. }
  split; [exact Hnd|]. split; [exact Hkeys|].
  intros k v. split.
  - intros Hin. split.
    + apply Hkeys. apply in_map_iff. exists (k, v). split; [reflexivity|exact Hin].
    + apply (Hf (k, v) Hin).
  - intros [Hin ->]. apply Hkeys in Hin. apply in_map_iff in Hin.
    destruct Hin as ([k' v'] & E & Hin). simpl in E. subst k'.
    pose proof (Hf (k, v') Hin) as E. cbn [fst snd] in E. rewrite <- E. exact Hin.
Qed.

End Dict.

Section AtShape.

Context {cosmo : Evo.Cosmology} {quad : Evo.Quadrature}.

Lemma filled_shape {A B} (f : list A -> list Evo.IndexFrac -> list B)
    ev coal_only scafa xnew xold (y : list (list A)) :
  (forall row cf, length (f row cf) = length cf) ->
  length scafa = length xold -> length y = length xold ->
  length (Evo.scafa ev) = length xold ->
  Evo.has_shape (length xold) (length xnew)
    (Np.map2 Evo.fill_invalid
       (Evo.valid_mask ev coal_only scafa (Evo._at__index_frac xnew xold))
       (Np.map2 f y (Evo._at__index_frac xnew xold))).
Proof.
  intros Hf Hs Hy Hs'. split.
  - rewrite !map2_length, valid_mask_length_gen, index_frac_length by lia. lia.
  - apply Forall_forall. intros row Hrow.
    apply (map2_In _ _ _ _ [] []) in Hrow. destruct Hrow as (i & Hi1 & Hi2 & ->).
    rewrite valid_mask_length_gen in Hi1 by lia.
    rewrite valid_mask_row_gen by lia.
    rewrite (map2_nth _ _ _ _ [] []) by (rewrite ?index_frac_length; lia).
    unfold Evo.fill_invalid. rewrite map2_length, length_map, Hf.
    rewrite index_frac_row by exact Hi1. rewrite length_map. lia.
Qed.

(** The assignments of [at]: one for each requested name in turn, of
    [None] for a parameter that is not stored and of an array of one row
    per binary and one column per target for one that is. *)
Lemma at_assignments ev xpar targets params coal_only lin res :
  Evo.at_ ev xpar targets params coal_only lin = inr res ->
  Evo.well_shaped ev ->
  exists g : Evo.Par -> option Evo.Interp,
    res = map (fun p => (p, g p))
            match params with None => Evo._EVO_PARS | Some l => l end
    /\ (forall par, g par = None <-> Evo.getattr ev par = None)
    /\ (forall par I, g par = Some I ->
          match I with
          | Evo.IScalar a => Evo.has_shape (fst (Evo._shape ev)) (length targets) a
          | Evo.IDouble a => Evo.has_shape (fst (Evo._shape ev)) (length targets) a
          end).
Proof.
  intros Hat Hws.
  apply at_inv in Hat. destruct Hat as (xnew & xold & ps' & lil & rev & Hinp & ->).
  apply at_inputs_inv in Hinp.
  destruct Hinp as (_ & -> & -> & _ & -> & X & HX & ->).
  pose proof (xtracks_length _ _ _ Hws HX) as HlenX.
  eexists. split; [reflexivity|]. split.
  - intros par. destruct (Evo.getattr ev par); simpl; split; intros H;
      try reflexivity; discriminate H.
  - intros par I E.
    set (n := fst (Evo._shape ev)) in *.
    assert (Hxold : length (map (map Np.log10) X) = n)
      by (rewrite length_map; exact HlenX).
    assert (Ht : length (map Np.log10 targets) = length targets) by apply length_map.
    destruct (Evo.getattr ev par) as [[y|m]|] eqn:Eg; [| |discriminate E];
      cbn [option_map] in E; injection E as <-; cbn [Evo.at_param].
    + pose proof (getattr_scalar_length _ _ _ Hws Eg) as Hly.
      destruct Hws as ((Hsc & _) & _).
      rewrite <- Hxold, <- Ht. apply filled_shape.
      * intros row cf. unfold Evo.interpolate_row. apply length_map.
      * destruct (negb _); rewrite ?length_map; lia.
      * destruct (negb _); rewrite ?length_map; lia.
      * lia.
    + apply getattr_double in Eg. destruct Eg as [-> ->].
      destruct Hws as ((Hsc & _) & _ & _ & (Hm & _) & _).
      rewrite <- Hxold, <- Ht. apply filled_shape.
      * intros row cf. unfold Evo.interpolate_row2. apply length_map.
      * destruct (negb _); rewrite ?length_map; lia.
      * destruct (negb _); rewrite ?length_map; lia.
      * lia.
Qed.

(** The shape of a squeezed array of one column. *)
Lemma squeeze_shape n I :
  match I with
  | Evo.IScalar a => Evo.has_shape n 1 a
  | Evo.IDouble a => Evo.has_shape n 1 a
  end ->
  match At.squeeze I with
  | At.SValue _ | At.SPair _ => n = 1%nat
  | At.SColumn col => length col = n /\ n <> 1%nat
  | At.SPairs col => length col = n /\ n <> 1%nat
  end.
Proof.
  destruct I as [a|a]; intros [Hn _]; simpl.
  - destruct a as [|r [|r' a]]; simpl in *; [split; lia|lia|].
    rewrite length_map. simpl. split; lia.
  - destruct a as [|r [|r' a]]; simpl in *; [split; lia|lia|].
    rewrite length_map. simpl. split; lia.
Qed.

(** X21.  The dictionary that [at] returns has each requested name as a
    key once, however often it is requested, and no other key.  Its value
    is [None] exactly for a parameter that is not stored (['eccen'] and
    ['dedt'] when the eccentricity is not evolved).  For an array of
    targets every other value is an array of one row per binary and one
    column per target; for a scalar target it is squeezed: one entry per
    binary, or with a single binary no axis of binaries at all. *)
Theorem at_result_shape ev xpar params coal_only lin :
  Evo.well_shaped ev ->
  let ps := match params with None => Evo._EVO_PARS | Some l => l end in
  let n := fst (Evo._shape ev) in
  (forall targets d,
     At.at_array ev xpar targets params coal_only lin = inr d ->
     NoDup (map fst d)
     /\ (forall par, In par (map fst d) <-> In par ps)
     /\ (forall par, In (par, None) d <-> In par ps /\ Evo.getattr ev par = None)
     /\ (forall par I, In (par, Some I) d ->
           match I with
           | Evo.IScalar a => Evo.has_shape n (length targets) a
           | Evo.IDouble a => Evo.has_shape n (length targets) a
           end))
  /\ (forall target d,
        At.at_scalar ev xpar target params coal_only lin = inr d ->
        NoDup (map fst d)
        /\ (forall par, In par (map fst d) <-> In par ps)
        /\ (forall par, In (par, None) d <-> In par ps /\ Evo.getattr ev par = None)
        /\ (forall par S, In (par, Some S) d ->
              match S with
              | At.SValue _ | At.SPair _ => n = 1%nat
              | At.SColumn col => length col = n /\ n <> 1%nat
              | At.SPairs col => length col = n /\ n <> 1%nat
              end)).
Proof.
  intros Hws ps n. split.
  - intros targets d Hd. unfold At.at_array in Hd.
    destruct (Evo.at_ ev xpar targets params coal_only lin) as [e|res] eqn:Hat;
      [discriminate Hd|].
    cbn [bind ret] in Hd. injection Hd as <-.
    destruct (at_assignments _ _ _ _ _ _ _ Hat Hws) as (g & -> & Hnone & Hshape).
    fold ps. destruct (dict_of_items g ps) as (Hnd & Hkeys & Hitems).
    split; [exact Hnd|]. split; [exact Hkeys|]. split.
    + intros par. rewrite Hitems. split.
      * intros [Hin E]. split; [exact Hin|]. apply Hnone. symmetry. exact E.
      * intros [Hin E]. split; [exact Hin|]. symmetry. apply Hnone. exact E.
    + intros par I Hin. apply Hitems in Hin. destruct Hin as [_ E].
      apply (Hshape par I). symmetry. exact E.
  - intros target d Hd. unfold At.at_scalar in Hd.
    destruct (Evo.at_ ev xpar [target] params coal_only lin) as [e|res] eqn:Hat;
      [discriminate Hd|].
    cbn [bind ret] in Hd. injection Hd as <-.
    destruct (at_assignments _ _ _ _ _ _ _ Hat Hws) as (g & -> & Hnone & Hshape).
    fold ps. rewrite map_map. cbn [fst snd].
    destruct (dict_of_items (fun p => option_map At.squeeze (g p)) ps)
      as (Hnd & Hkeys & Hitems).
    split; [exact Hnd|]. split; [exact Hkeys|]. split.
    + intros par. rewrite Hitems. split.
      * intros [Hin E]. split; [exact Hin|]. apply Hnone.
        destruct (g par); [discriminate E|reflexivity].
      * intros [Hin E]. split; [exact Hin|]. apply Hnone in E. rewrite E. reflexivity.
    + intros par S Hin. apply Hitems in Hin. destruct Hin as [_ E].
      destruct (g par) as [I|] eqn:Eg; [|discriminate E].
      cbn [option_map] in E. injection E as ->.
      apply squeeze_shape. apply (Hshape par I Eg).
Qed.

End AtShape.

Lemma example_at_runs_twice (t : R) :
  1 / 60 <= t <= 1 / 3 ->
  exists res,
    @Evo.at_ Ex.cosmo Ex.quad (Ex2.ev_stepped true) XPar.fobs [t]
      (Some [Evo.Dadt; Evo.Eccen; Evo.Dadt]) false Evo.LI_None = inr res.
Proof.
  intros Ht.
  apply (@at_runs Ex.cosmo Ex.quad (Ex2.ev_stepped true) XPar.fobs [t]
           (Some [Evo.Dadt; Evo.Eccen; Evo.Dadt]) false Evo.LI_None [[1 / 60; 1 / 3]]
           t (1 / 60) (1 / 3)).
  - reflexivity.
  - reflexivity.
  - exact example_freq_orb_obs.
  - exact I.
  - left. reflexivity.
  - simpl. auto.
  - simpl. auto.
  - split; apply log10_le_iff; lra.
Qed.

Lemma at_result_shape_witness :
  (exists d,
     @At.at_array Ex.cosmo Ex.quad (Ex2.ev_stepped true) XPar.fobs [1 / 10; 1 / 5]
       (Some [Evo.Dadt; Evo.Eccen; Evo.Dadt]) false Evo.LI_None = inr d
     /\ NoDup (map fst d)
     /\ (forall par, In par (map fst d) <-> In par [Evo.Dadt; Evo.Eccen; Evo.Dadt])
     /\ (forall par I, In (par, Some I) d ->
           match I with
           | Evo.IScalar a => Evo.has_shape 1 2 a
           | Evo.IDouble a => Evo.has_shape 1 2 a
           end))
  /\ (exists d,
        @At.at_scalar Ex.cosmo Ex.quad (Ex2.ev_stepped true) XPar.fobs (1 / 10)
          (Some [Evo.Dadt; Evo.Eccen; Evo.Dadt]) false Evo.LI_None = inr d
        /\ NoDup (map fst d)
        /\ (forall par S, In (par, Some S) d ->
              match S with
              | At.SValue _ | At.SPair _ => 1%nat = 1%nat
              | At.SColumn col => length col = 1%nat /\ 1%nat <> 1%nat
              | At.SPairs col => length col = 1%nat /\ 1%nat <> 1%nat
              end)).
Proof.
  destruct (@at_result_shape Ex.cosmo Ex.quad (Ex2.ev_stepped true) XPar.fobs
              (Some [Evo.Dadt; Evo.Eccen; Evo.Dadt]) false Evo.LI_None
              example_well_shaped) as [Harr Hsca].
  split.
  - destruct (@at_runs Ex.cosmo Ex.quad (Ex2.ev_stepped true) XPar.fobs [1 / 10; 1 / 5]
                (Some [Evo.Dadt; Evo.Eccen; Evo.Dadt]) false Evo.LI_None
                [[1 / 60; 1 / 3]] (1 / 10) (1 / 60) (1 / 3)) as (res & Hres).
    + reflexivity.
    + reflexivity.
    + exact example_freq_orb_obs.
    + exact I.
    + left. reflexivity.
    + simpl. auto.
    + simpl. auto.
    + split; apply log10_le_iff; lra.
    + exists (At.dict_of res).
      assert (Hd : @At.at_array Ex.cosmo Ex.quad (Ex2.ev_stepped true) XPar.fobs
                     [1 / 10; 1 / 5] (Some [Evo.Dadt; Evo.Eccen; Evo.Dadt]) false
                     Evo.LI_None = inr (At.dict_of res)).
      { unfold At.at_array. rewrite Hres. reflexivity. }
      split; [exact Hd|].
      destruct (Harr [1 / 10; 1 / 5] (At.dict_of res) Hd) as (H1 & H2 & _ & H4).
      split; [exact H1|]. split; [exact H2|exact H4].
  - destruct (example_at_runs_twice (1 / 10)) as (res & Hres); [lra|].
    set (d := At.dict_of (map (fun kv : Evo.Par * option Evo.Interp =>
                                 (fst kv, option_map At.squeeze (snd kv))) res)).
    exists d.
    assert (Hd : @At.at_scalar Ex.cosmo Ex.quad (Ex2.ev_stepped true) XPar.fobs (1 / 10)
                   (Some [Evo.Dadt; Evo.Eccen; Evo.Dadt]) false Evo.LI_None = inr d).
    { unfold At.at_scalar. rewrite Hres. reflexivity. }
    split; [exact Hd|].
    destruct (Hsca (1 / 10) d Hd) as (H1 & _ & _ & H4).
    split; [exact H1|exact H4].
Defined.

(** ** Time along a track *)

Lemma set_col_nth_other {A} c s (vals : list A) arr i d :
  s <> c -> nth s (nth i (Np.set_col c vals arr) []) d = nth s (nth i arr []) d.
Proof.
  intros Hs.
  destruct (Nat.lt_ge_cases i (length vals)) as [Hv|Hv].
  - destruct vals as [|v0 vals]; [simpl in Hv; lia|].
    destruct (Nat.lt_ge_cases i (length arr)) as [Ha|Ha].
    + rewrite (set_col_nth _ _ _ _ v0) by assumption. apply upd_nth_other, Hs.
    + rewrite (nth_overflow (Np.set_col c (v0 :: vals) arr)) by (rewrite set_col_length; lia).
      rewrite (nth_overflow arr) by lia. reflexivity.
  - rewrite set_col_nth_beyond by exact Hv. reflexivity.
Qed.

Lemma set_col_nth_same {A} c (vals : list A) arr i d :
  (i < length vals)%nat -> (i < length arr)%nat -> (c < length (nth i arr []))%nat ->
  nth c (nth i (Np.set_col c vals arr) []) d = nth i vals d.
Proof.
  intros Hv Ha Hc. rewrite (set_col_nth _ _ _ _ d) by assumption.
  apply upd_nth_same, Hc.
Qed.

Lemma set_col_shape {A} n s c (vals : list A) arr :
  Evo.has_shape n s arr -> Evo.has_shape n s (Np.set_col c vals arr).
Proof.
  intros [Hn Hrows]. split; [rewrite set_col_length; exact Hn|].
  clear Hn. revert vals. induction Hrows as [|row arr Hrow Hrows IH]; intros [|v vals];
    simpl; constructor; auto.
  rewrite upd_length. exact Hrow.
Qed.

Lemma any_negative_false dt i :
  Evo.any_negative dt = false -> (i < length dt)%nat -> 0 <= nth i dt 0.
Proof.
  unfold Evo.any_negative. intros H Hi.
  assert (Hi' : In (nth i dt 0) dt) by (apply nth_In; exact Hi).
  destruct (Rle_lt_dec 0 (nth i dt 0)) as [L|G]; [exact L|].
  exfalso. assert (E : existsb (fun d => Rltb d 0) dt = true).
  { apply existsb_exists. exists (nth i dt 0). split; [exact Hi'|]. apply Rltb_true, G. }
  congruence.
Qed.

Section StepTime.

Context {consts : Constants} {cosmo : Evo.Cosmology} {quad : Evo.Quadrature}.
Variable cfg : Evo.Config.

Lemma eccen_provisional_time ev l r dl dt ev' :
  Evo.eccen_provisional ev l r dl dt = inr ev' ->
  Evo.tlook ev' = Evo.tlook ev /\ Evo.scafa ev' = Evo.scafa ev
  /\ Evo.dadt ev' = Evo.dadt ev.
Proof.
  unfold Evo.eccen_provisional. intros H.
  destruct (Evo.eccen ev); [destruct dl|]; minv H; subst ev'; auto.
Qed.

Lemma eccen_corrected_time ev l r ev' :
  Evo.eccen_corrected ev l r = inr ev' ->
  Evo.tlook ev' = Evo.tlook ev /\ Evo.scafa ev' = Evo.scafa ev
  /\ Evo.dadt ev' = Evo.dadt ev.
Proof.
  unfold Evo.eccen_corrected. intros H.
  destruct (Evo.eccen ev); [destruct (Evo.dedt ev)|]; minv H; subst ev'; auto.
Qed.

Lemma accrete_time ev step dt :
  Evo.tlook (Evo.accrete cfg ev step dt) = Evo.tlook ev
  /\ Evo.scafa (Evo.accrete cfg ev step dt) = Evo.scafa ev
  /\ Evo.dadt (Evo.accrete cfg ev step dt) = Evo.dadt ev.
Proof. unfold Evo.accrete. destruct (Evo._acc cfg); auto. Qed.

Lemma step_left_edge_time ev l r ev' :
  Evo.step_left_edge cfg ev l r = inr ev' ->
  exists dt dadt_r,
    Evo.tlook ev' = Np.set_col r (Np.map2 Rminus (Np.col 0 l (Evo.tlook ev)) dt) (Evo.tlook ev)
    /\ Evo.scafa ev'
       = Np.set_col r (scafa_of (Np.map2 Rminus (Np.col 0 l (Evo.tlook ev)) dt))
           (Evo.scafa ev)
    /\ Evo.dadt ev' = Np.set_col r dadt_r (Evo.dadt ev).
Proof.
  unfold Evo.step_left_edge. intros H. minv H; subst ev'.
  all: apply eccen_provisional_time in E1; destruct E1 as (Et & Es & Ed).
  all: unfold Evo.update_time; evo_simpl; rewrite Et, Es, Ed.
  all: eexists; eexists; repeat split; reflexivity.
Qed.

Lemma step_right_edge_time ev l r ev' :
  Evo.step_right_edge cfg ev l r = inr ev' ->
  let dt := Evo.dt_trapz ev l r in
  Evo.any_negative dt = false
  /\ Evo.tlook ev' = Np.set_col r (Np.map2 Rminus (Np.col 0 l (Evo.tlook ev)) dt) (Evo.tlook ev)
  /\ Evo.scafa ev'
     = Np.set_col r (scafa_of (Np.map2 Rminus (Np.col 0 l (Evo.tlook ev)) dt)) (Evo.scafa ev)
  /\ Evo.dadt ev' = Evo.dadt ev.
Proof.
  intros H. cbv zeta. unfold Evo.step_right_edge in H.
  set (dt := Evo.dt_trapz ev l r) in *. cbv zeta in H.
  destruct (Evo.any_negative dt) eqn:Hneg; [discriminate H|].
  minv H. subst ev'.
  destruct (accrete_time e r dt) as (At & As & Ad). rewrite At, As, Ad.
  apply eccen_corrected_time in E. destruct E as (Et & Es & Ed). rewrite Et, Es, Ed.
  unfold Evo.update_time. evo_simpl. repeat split; reflexivity.
Qed.

End StepTime.

Section TrackTime.

Context {consts : Constants} {cosmo : Evo.Cosmology} {quad : Evo.Quadrature}.
Variable cfg : Evo.Config.

Lemma take_next_step_time ev step ev' :
  time_shaped ev -> (1 <= step < snd (Evo._shape ev))%nat ->
  Evo._take_next_step cfg ev step = inr ev' ->
  time_shaped ev' /\ Evo._shape ev' = Evo._shape ev
  /\ forall i, (i < fst (Evo._shape ev))%nat ->
       (forall c, c <> step ->
          Evo.stored (Evo.tlook ev') i c = Evo.stored (Evo.tlook ev) i c
          /\ Evo.stored (Evo.scafa ev') i c = Evo.stored (Evo.scafa ev) i c)
       /\ Evo.stored (Evo.tlook ev') i step <= Evo.stored (Evo.tlook ev) i (step - 1)
       /\ Evo.stored (Evo.scafa ev') i step
          = if Rltb 0 (Evo.stored (Evo.tlook ev') i step)
            then Evo.cosmo_z_to_a (Evo.cosmo_tlbk_to_z (Evo.stored (Evo.tlook ev') i step))
            else 1.
Proof.
  intros (Htl & Hsc & Hda & Hse) Hstep H.
  unfold Evo._take_next_step in H. minv H. rename e into ev1.
  pose proof (step_left_edge_frame _ _ _ _ _ E0) as (_ & Hsh1 & _ & _ & Hse1 & _).
  pose proof (step_right_edge_frame _ _ _ _ _ H) as (_ & Hsh2 & _ & _ & Hse2 & _).
  destruct (step_left_edge_time _ _ _ _ _ E0) as (dt1 & dadt_r & Et1 & Es1 & Ed1).
  destruct (step_right_edge_time _ _ _ _ _ H) as (Hneg & Et2 & Es2 & Ed2).
  set (dt := Evo.dt_trapz ev1 (step - 1) step) in *.
  set (n := fst (Evo._shape ev)) in *. set (s := snd (Evo._shape ev)) in *.
  assert (Htl1 : Evo.has_shape n s (Evo.tlook ev1)) by (rewrite Et1; apply set_col_shape, Htl).
  assert (Hsc1 : Evo.has_shape n s (Evo.scafa ev1)) by (rewrite Es1; apply set_col_shape, Hsc).
  assert (Hda1 : Evo.has_shape n s (Evo.dadt ev1)) by (rewrite Ed1; apply set_col_shape, Hda).
  assert (Hse1' : Evo.has_shape n s (Evo.sepa ev1)) by (rewrite Hse1; exact Hse).
  assert (Hshape : Evo._shape ev' = Evo._shape ev) by congruence.
  split; [|split; [exact Hshape|]].
  - unfold time_shaped. rewrite Hshape. fold n s.
    rewrite Et2, Es2, Ed2, Hse2.
    split; [apply set_col_shape, Htl1|].
    split; [apply set_col_shape, Hsc1|].
    split; [exact Hda1|exact Hse1'].
  - intros i Hi.
    assert (Hdt : length dt = n).
    { unfold dt, Evo.dt_trapz. rewrite map2_length.
      destruct Hda1 as [-> _], Hse1' as [-> _]. lia. }
    set (V := Np.map2 Rminus (Np.col 0 (step - 1) (Evo.tlook ev1)) dt) in *.
    assert (HV : length V = n).
    { unfold V. rewrite map2_length, col_length. destruct Htl1 as [-> _]. lia. }
    assert (Hrow1 : length (nth i (Evo.tlook ev1) []) = s)
      by (apply (has_shape_row n s); assumption).
    assert (Hrow1s : length (nth i (Evo.scafa ev1) []) = s)
      by (apply (has_shape_row n s); assumption).
    assert (Hlen1 : length (Evo.tlook ev1) = n) by apply Htl1.
    assert (Hlen1s : length (Evo.scafa ev1) = n) by apply Hsc1.
    assert (Hright : Evo.stored (Evo.tlook ev') i step = nth i V 0).
    { unfold Evo.stored. rewrite Et2. apply set_col_nth_same; lia. }
    assert (HVi : nth i V 0 = Evo.stored (Evo.tlook ev) i (step - 1) - nth i dt 0).
    { unfold V. rewrite (map2_nth _ _ _ _ 0 0) by (rewrite ?col_length; lia).
      rewrite col_nth. f_equal. unfold Evo.stored. rewrite Et1.
      apply set_col_nth_other. lia. }
    split; [|split].
    + intros c Hc. unfold Evo.stored. split.
      * rewrite Et2, set_col_nth_other by exact Hc.
        rewrite Et1. apply set_col_nth_other, Hc.
      * rewrite Es2, set_col_nth_other by exact Hc.
        rewrite Es1. apply set_col_nth_other, Hc.
    + rewrite Hright, HVi.
      pose proof (any_negative_false dt i Hneg ltac:(lia)). lra.
    + rewrite Hright. unfold Evo.stored. rewrite Es2.
      rewrite set_col_nth_same by (unfold scafa_of; rewrite ?length_map; lia).
      unfold scafa_of.
      rewrite (nth_map_in _ _ _ _ 0) by lia. reflexivity.
Qed.

Lemma take_steps_time n : forall a ev ev',
  time_shaped ev -> (1 <= a)%nat -> (a + n <= snd (Evo._shape ev))%nat ->
  Evo.take_steps cfg ev (seq a n) = inr ev' ->
  time_shaped ev' /\ Evo._shape ev' = Evo._shape ev
  /\ forall i, (i < fst (Evo._shape ev))%nat ->
       (forall c, (c < a)%nat ->
          Evo.stored (Evo.tlook ev') i c = Evo.stored (Evo.tlook ev) i c
          /\ Evo.stored (Evo.scafa ev') i c = Evo.stored (Evo.scafa ev) i c)
       /\ (forall c, (a <= S c)%nat -> (S c < a + n)%nat ->
             Evo.stored (Evo.tlook ev') i (S c) <= Evo.stored (Evo.tlook ev') i c)
       /\ (forall c, (a <= c)%nat -> (c < a + n)%nat ->
             Evo.stored (Evo.scafa ev') i c
             = if Rltb 0 (Evo.stored (Evo.tlook ev') i c)
               then Evo.cosmo_z_to_a (Evo.cosmo_tlbk_to_z (Evo.stored (Evo.tlook ev') i c))
               else 1).
Proof.
  induction n as [|n IH]; intros a ev ev' Hsh Ha Hn H.
  - cbn in H. injection H as <-.
    split; [exact Hsh|]. split; [reflexivity|]. intros i Hi.
    repeat split; intros; try reflexivity; lia.
  - cbn [seq] in H. rewrite take_steps_cons in H.
    destruct (Evo._take_next_step cfg ev a) as [e|ev1] eqn:E1; [discriminate H|].
    cbn [bind] in H.
    destruct (take_next_step_time ev a ev1 Hsh ltac:(lia) E1) as (Hsh1 & Hshape1 & Hstep).
    destruct (IH (S a) ev1 ev' Hsh1 ltac:(lia) ltac:(rewrite Hshape1; lia) H)
      as (Hsh' & Hshape' & Hrest).
    split; [exact Hsh'|]. split; [congruence|].
    intros i Hi.
    destruct (Hstep i Hi) as (Hother & Hle & Hsc).
    destruct (Hrest i ltac:(rewrite Hshape1; exact Hi)) as (Hkeep & Hmono & Hsca).
    split; [|split].
    + intros c Hc.
      destruct (Hkeep c ltac:(lia)) as [K1 K2]. destruct (Hother c ltac:(lia)) as [O1 O2].
      split; congruence.
    + intros c Hc1 Hc2.
      destruct (Nat.eq_dec (S c) a) as [Eq|Ne].
      * destruct (Hkeep (S c) ltac:(lia)) as [K1 _]. destruct (Hkeep c ltac:(lia)) as [K2 _].
        destruct (Hother c ltac:(lia)) as [O1 _].
        rewrite K1, K2, O1. rewrite Eq. replace c with (a - 1)%nat by lia. exact Hle.
      * apply Hmono; lia.
    + intros c Hc1 Hc2.
      destruct (Nat.eq_dec c a) as [->|Ne].
      * destruct (Hkeep a ltac:(lia)) as [K1 K2]. rewrite K1, K2. exact Hsc.
      * apply Hsca; lia.
Qed.

End TrackTime.

Section EvolveResult.

Context {consts : Constants} {cosmo : Evo.Cosmology} {quad : Evo.Quadrature}.
Variable cfg : Evo.Config.

Lemma init_step_zero_time ev ev' :
  Evo._init_step_zero cfg ev = inr ev' ->
  exists tl da,
    Evo.tlook ev' = Np.set_col 0 tl (Evo.tlook ev)
    /\ Evo.dadt ev' = Np.set_col 0 da (Evo.dadt ev).
Proof.
  unfold Evo._init_step_zero, Evo.write_col. intros H.
  unfold ret, raise in H. evo_simpl.
  destruct (0 <? snd (Evo._shape ev))%nat eqn:Hs.
  2:{ destruct (Evo.p_eccen (Evo._pop ev)), (Evo.eccen ev);
      cbn [bind] in H; evo_simpl; try rewrite Hs in H; discriminate H. }
  destruct (Evo.p_eccen (Evo._pop ev)) as [pe|] eqn:Epe.
  - destruct (Evo.eccen ev) as [e|] eqn:Ee; [|cbn in H; discriminate H].
    cbn [bind] in H. evo_simpl. rewrite Hs in H. cbn [bind] in H. evo_simpl.
    minv H. subst ev'. evo_simpl. eexists. eexists. split; reflexivity.
  - cbn [bind] in H. evo_simpl. rewrite Hs in H. cbn [bind] in H. evo_simpl.
    minv H. subst ev'. evo_simpl. eexists. eexists. split; reflexivity.
Qed.

Lemma zeros2_shape {A} (z : A) n s : Evo.has_shape n s (Np.zeros2 z n s).
Proof.
  unfold Np.zeros2. split; [apply repeat_length|].
  apply Forall_forall. intros row Hrow. apply repeat_spec in Hrow. subst.
  apply repeat_length.
Qed.

Lemma finalize_no_mods ev ev' :
  Evo._mods cfg = None -> Evo._finalize cfg ev = inr ev' ->
  ev' = Evo.with_evolved true ev.
Proof.
  intros Hm H. unfold Evo._finalize, Evo.modify, Evo._check_evolved in H.
  evo_simpl. rewrite Hm in H. cbn [fold_left bind ret] in H.
  minv H. subst. reflexivity.
Qed.

Lemma evolve_stages pop nsteps debug ev' :
  Evo._mods cfg = None ->
  Evo.evolve cfg (Evo.__init__ pop nsteps debug) = inr ev' ->
  exists ev1 ev2,
    Evo._init_step_zero cfg (Evo.__init__ pop nsteps debug) = inr ev1
    /\ Evo.take_steps cfg ev1 (seq 1 (nsteps - 1)) = inr ev2
    /\ ev' = Evo.with_evolved true ev2
    /\ Evo._shape ev1 = (Evo.p_size pop, nsteps).
Proof.
  intros Hm H. unfold Evo.evolve in H. minv H.
  pose proof (init_step_zero_inv _ _ _ E) as (_ & Hshape & _).
  cbn [Evo.__init__ Evo._shape] in Hshape.
  rewrite Hshape in E0. cbn [snd] in E0.
  exists e, e0. repeat split; try assumption.
  apply finalize_no_mods; assumption.
Qed.

End EvolveResult.

(** X22.  A completed [evolve] (without modifiers) leaves the grid of
    separations as [_init_step_zero] laid it out: log-spaced from the
    initial separation to the ISCO radius of the initial masses.  The
    instance is then flagged as evolved, has at least one step, and [at]
    no longer raises [RuntimeError]. *)
Theorem evolve_keeps_grid {consts : Constants} {cosmo : Evo.Cosmology}
    {quad : Evo.Quadrature} (cfg : Evo.Config) pop nsteps debug ev' :
  Evo._mods cfg = None ->
  Evo.evolve cfg (Evo.__init__ pop nsteps debug) = inr ev' ->
  Evo._evolved ev' = true
  /\ Evo._shape ev' = (Evo.p_size pop, nsteps) /\ (0 < nsteps)%nat
  /\ Evo.sepa ev'
     = Np.map2 (fun a r => Np.logspace (Np.log10 a) (Np.log10 r) nsteps)
         (Evo.p_sepa pop)
         (map (fun m => Utils.rad_isco (fst m) (snd m)) (Evo.p_mass pop))
  /\ forall xpar targets params coal_only lin,
       Evo.at_ ev' xpar targets params coal_only lin <> inl RuntimeError.
Proof.
  intros Hm H.
  destruct (evolve_stages cfg pop nsteps debug ev' Hm H) as (ev1 & ev2 & E1 & E2 & -> & Hsh).
  pose proof (init_step_zero_inv _ _ _ E1) as (Hpos & _ & _ & _ & _ & Hsepa & _).
  pose proof (take_steps_frame _ _ _ _ E2) as (_ & Hsh2 & _ & _ & Hsepa2 & _).
  cbn [Evo.__init__ Evo._shape Evo._pop snd] in Hpos, Hsepa.
  evo_simpl.
  split; [reflexivity|]. split; [congruence|]. split; [exact Hpos|].
  split; [congruence|].
  intros xpar targets params coal_only lin.
  unfold Evo.at_, Evo._at__inputs, Evo._check_evolved. evo_simpl. cbn [bind ret].
  destruct (negb _); [discriminate|].
  match goal with
  | |- bind (bind ?m _) _ <> _ => destruct m as [e|lil] eqn:El
  end.
  { cbn [bind]. destruct lin as [|l|[|]]; try discriminate El.
    destruct (forallb _ l); [discriminate El|]. injection El as <-. discriminate. }
  cbn [bind].
  match goal with
  | |- bind (bind ?m _) _ <> _ => destruct m as [e|[[xnew xold] rev]] eqn:Ex
  end.
  { cbn [bind]. destruct (String.eqb xpar XPar.fobs); [|discriminate Ex].
    unfold Evo.freq_orb_obs, Evo.freq_orb_rest, Evo._check_evolved in Ex.
    evo_simpl. cbn [bind ret] in Ex. discriminate Ex. }
  cbn [bind].
  destruct (minmax_cases xnew) as [[_ ->]|(lo1 & hi1 & -> & _)]; [discriminate|].
  cbn [bind].
  destruct (minmax_cases (concat xold)) as [[_ ->]|(lo2 & hi2 & -> & _)]; [discriminate|].
  cbn [bind]. destruct (_ || _); discriminate.
Qed.

Lemma evolve_keeps_grid_witness :
  Evo._evolved (Ex2.ev_stepped true) = true
  /\ Evo._shape (Ex2.ev_stepped true) = (Evo.p_size Ex.pop, 2%nat) /\ (0 < 2)%nat
  /\ Evo.sepa (Ex2.ev_stepped true)
     = Np.map2 (fun a r => Np.logspace (Np.log10 a) (Np.log10 r) 2)
         (Evo.p_sepa Ex.pop)
         (map (fun m => @Utils.rad_isco Ex.consts (fst m) (snd m)) (Evo.p_mass Ex.pop))
  /\ forall xpar targets params coal_only lin,
       @Evo.at_ Ex.cosmo Ex.quad (Ex2.ev_stepped true) xpar targets params coal_only lin
       <> inl RuntimeError.
Proof.
  apply (@evolve_keeps_grid Ex.consts Ex.cosmo Ex.quad Ex.cfg Ex.pop 2 false
           (Ex2.ev_stepped true) eq_refl example_evolve).
Defined.

(** X23.  Time runs forward along every track of a completed [evolve]
    (without modifiers, for a population whose arrays have one entry per
    binary): the lookback time never increases from one step to the next,
    and at every step after the first the scale factor is the one of that
    lookback time while it is positive, and exactly 1 once it is not. *)
Theorem evolve_lookback_monotone {consts : Constants} {cosmo : Evo.Cosmology}
    {quad : Evo.Quadrature} (cfg : Evo.Config) pop nsteps debug ev' i s :
  Evo._mods cfg = None ->
  length (Evo.p_sepa pop) = Evo.p_size pop ->
  length (Evo.p_mass pop) = Evo.p_size pop ->
  Evo.evolve cfg (Evo.__init__ pop nsteps debug) = inr ev' ->
  (i < Evo.p_size pop)%nat -> (S s < nsteps)%nat ->
  Evo.stored (Evo.tlook ev') i (S s) <= Evo.stored (Evo.tlook ev') i s
  /\ Evo.stored (Evo.scafa ev') i (S s)
     = if Rltb 0 (Evo.stored (Evo.tlook ev') i (S s))
       then Evo.cosmo_z_to_a (Evo.cosmo_tlbk_to_z (Evo.stored (Evo.tlook ev') i (S s)))
       else 1.
Proof.
  intros Hm Hls Hlm H Hi Hs.
  destruct (evolve_stages cfg pop nsteps debug ev' Hm H) as (ev1 & ev2 & E1 & E2 & -> & Hsh).
  pose proof (init_step_zero_inv _ _ _ E1) as (_ & _ & _ & _ & _ & Hsepa & Hscafa & _).
  destruct (init_step_zero_time _ _ _ E1) as (tl & da & Htl & Hda).
  cbn [Evo.__init__ Evo._shape Evo._pop Evo.scafa Evo.tlook Evo.dadt snd]
    in Hsepa, Hscafa, Htl, Hda.
  assert (Hshaped : time_shaped ev1).
  { unfold time_shaped. rewrite Hsh. cbn [fst snd].
    rewrite Htl, Hda, Hscafa, Hsepa.
    split; [apply set_col_shape, zeros2_shape|].
    split; [apply set_col_shape, zeros2_shape|].
    split; [apply set_col_shape, zeros2_shape|].
    split.
    - rewrite map2_length, length_map. lia.
    - apply Forall_forall. intros row Hrow.
      apply (map2_In _ _ _ _ 0 0) in Hrow. destruct Hrow as (k & _ & _ & ->).
      apply logspace_length. }
  destruct (take_steps_time cfg (nsteps - 1) 1 ev1 ev2 Hshaped (le_n 1)
              ltac:(rewrite Hsh; cbn [snd]; lia) E2) as (_ & _ & Hall).
  destruct (Hall i ltac:(rewrite Hsh; exact Hi)) as (_ & Hmono & Hsca).
  evo_simpl. split.
  - apply Hmono; lia.
  - apply Hsca; lia.
Qed.

Lemma evolve_lookback_monotone_witness :
  Evo.stored (Evo.tlook (Ex2.ev_stepped true)) 0 1
  <= Evo.stored (Evo.tlook (Ex2.ev_stepped true)) 0 0
  /\ Evo.stored (Evo.scafa (Ex2.ev_stepped true)) 0 1
     = if Rltb 0 (Evo.stored (Evo.tlook (Ex2.ev_stepped true)) 0 1)
       then @Evo.cosmo_z_to_a Ex.cosmo
              (@Evo.cosmo_tlbk_to_z Ex.cosmo (Evo.stored (Evo.tlook (Ex2.ev_stepped true)) 0 1))
       else 1.
Proof.
  apply (@evolve_lookback_monotone Ex.consts Ex.cosmo Ex.quad Ex.cfg Ex.pop 2 false
           (Ex2.ev_stepped true) 0 0 eq_refl eq_refl eq_refl example_evolve);
    simpl; lia.
Defined.

(** ** The adaptive integrator *)

Lemma increment_sepa_value (sepa_left risco dadt dt : R) :
  dadt <> 0 ->
  NewEvo.increment_sepa sepa_left risco dadt dt = (dt, sepa_left + dadt * dt).
Proof.
  intros Hd. unfold NewEvo.increment_sepa.
  destruct (Rltb (sepa_left + dadt * dt) risco); [|reflexivity].
  cbv zeta. f_equal; field; exact Hd.
Qed.

Section TimeStep.

Context {consts : Constants}.
Variable _acc : option NewEvo.Accretion.

Lemma min_timestep_le_base dts tl :
  NewEvo.min_timestep dts tl <= Rmin tl NewEvo._TIME_STEP_MAX.
Proof.
  unfold NewEvo.min_timestep. induction dts as [|[x|] dts IH]; simpl.
  - lra.
  - pose proof (Rmin_r x (fold_right
      (fun d m => match d with Some x0 => Rmin x0 m | None => m end)
      (Rmin tl NewEvo._TIME_STEP_MAX) dts)). lra.
  - exact IH.
Qed.

Lemma min_timestep_le_each dts tl x :
  In (Some x) dts -> NewEvo.min_timestep dts tl <= x.
Proof.
  unfold NewEvo.min_timestep. induction dts as [|[y|] dts IH]; simpl; intros Hin.
  - destruct Hin.
  - set (m := fold_right _ _ dts) in *.
    pose proof (Rmin_l y m). pose proof (Rmin_r y m).
    destruct Hin as [E|Hin]; [injection E as ->; lra|]. specialize (IH Hin). lra.
  - destruct Hin as [E|Hin]; [discriminate E|]. apply IH, Hin.
Qed.

End TimeStep.

(** X24.  The time step that [New_Evolution.evolve] derives from the rates
    obeys every limit: it is at most the lookback time that is left and at
    most [_TIME_STEP_MAX], and it changes the separation by at most the
    fraction CFL = 0.1 of the separation, and the eccentricity, when it is
    evolved, by at most that fraction of the eccentricity. *)
Theorem timestep_limits {consts : Constants} (_acc : option NewEvo.Accretion)
    (e : NewEvo.NewEvolution) (step : nat) (dadt : R) (dedt : option R)
    (mdot : R * R) (tl : R) :
  dadt <> 0 ->
  let dt := NewEvo.min_timestep
              (NewEvo._get_timestep_from_rates _acc e step dadt dedt mdot) tl in
  dt <= tl /\ dt <= NewEvo._TIME_STEP_MAX
  /\ Rabs dadt * dt <= NewEvo.CFL * nth step (NewEvo.sepa e) 0
  /\ (forall ecc d, NewEvo.eccen e = Some ecc -> dedt = Some d -> d <> 0 ->
        Rabs d * dt <= NewEvo.CFL * nth step ecc 0).
Proof.
  intros Hd dt.
  pose proof (min_timestep_le_base
                (NewEvo._get_timestep_from_rates _acc e step dadt dedt mdot) tl) as Hb.
  fold dt in Hb.
  pose proof (Rmin_l tl NewEvo._TIME_STEP_MAX). pose proof (Rmin_r tl NewEvo._TIME_STEP_MAX).
  split; [lra|]. split; [lra|]. split.
  - assert (Ha : dt <= NewEvo.CFL * nth step (NewEvo.sepa e) 0 / Rabs dadt).
    { apply min_timestep_le_each. unfold NewEvo._get_timestep_from_rates. left. reflexivity. }
    pose proof (Rabs_pos_lt dadt Hd) as Hp.
    apply (Rmult_le_compat_l (Rabs dadt)) in Ha; [|lra].
    replace (Rabs dadt * (NewEvo.CFL * nth step (NewEvo.sepa e) 0 / Rabs dadt))
      with (NewEvo.CFL * nth step (NewEvo.sepa e) 0) in Ha by (field; lra).
    exact Ha.
  - intros ecc d Hecc -> Hne.
    assert (Ha : dt <= NewEvo.CFL * nth step ecc 0 / Rabs d).
    { apply min_timestep_le_each. unfold NewEvo._get_timestep_from_rates.
      rewrite Hecc. right. left. reflexivity. }
    pose proof (Rabs_pos_lt d Hne) as Hp.
    apply (Rmult_le_compat_l (Rabs d)) in Ha; [|lra].
    replace (Rabs d * (NewEvo.CFL * nth step ecc 0 / Rabs d))
      with (NewEvo.CFL * nth step ecc 0) in Ha by (field; lra).
    exact Ha.
Qed.

Lemma timestep_limits_witness :
  let e := {| NewEvo.sepa := [7]; NewEvo.dadt := [[-1]]; NewEvo.mass := [(1, 1)];
              NewEvo.redz := [1000]; NewEvo.tlook := [1000];
              NewEvo.eccen := Some [1 / 2]; NewEvo.dedt := Some [[-1]];
              NewEvo.mdot := None |} in
  let dt := @NewEvo.min_timestep Ex.consts
              (NewEvo._get_timestep_from_rates None e 0 (-1) (Some (-1)) (0, 0)) 1000 in
  dt <= 1000 /\ dt <= @NewEvo._TIME_STEP_MAX Ex.consts
  /\ Rabs (-1) * dt <= NewEvo.CFL * nth 0 (NewEvo.sepa e) 0
  /\ (forall ecc d, NewEvo.eccen e = Some ecc -> Some (-1) = Some d -> d <> 0 ->
        Rabs d * dt <= NewEvo.CFL * nth 0 ecc 0).
Proof.
  intros e.
  apply (@timestep_limits Ex.consts None e 0 (-1) (Some (-1)) (0, 0) 1000). lra.
Defined.

Section AdaptiveLoop.

Context {consts : Constants}.
Variable tlbk_to_z : R -> R.
Variable _hard : list NewEvo.Hardening.
Variable _acc : option NewEvo.Accretion.
Variable init : NewEvo.Init.

Lemma set_right_fields e l r a d m dt :
  NewEvo.mdot (NewEvo.set_right tlbk_to_z e l r a d m dt) = NewEvo.mdot e
  /\ (NewEvo.eccen (NewEvo.set_right tlbk_to_z e l r a d m dt) = None
      <-> NewEvo.eccen e = None)
  /\ NewEvo.tlook (NewEvo.set_right tlbk_to_z e l r a d m dt)
     = Np.upd r (nth l (NewEvo.tlook e) 0 - dt) (NewEvo.tlook e).
Proof.
  unfold NewEvo.set_right. cbn. split; [reflexivity|]. split; [|reflexivity].
  destruct (NewEvo.eccen e), d; split; intros H; try discriminate H; reflexivity.
Qed.

Lemma expand_fields n e :
  NewEvo.mdot (NewEvo.expand _hard n e) = NewEvo.mdot e
  /\ (NewEvo.eccen (NewEvo.expand _hard n e) = None <-> NewEvo.eccen e = None)
  /\ NewEvo.tlook (NewEvo.expand _hard n e) = NewEvo.tlook e ++ Np.zeros n.
Proof.
  unfold NewEvo.expand. cbn. split; [reflexivity|]. split; [|reflexivity].
  destruct (NewEvo.eccen e); split; intros H; try discriminate H; reflexivity.
Qed.

Lemma iteration_inv bin l l' :
  NewEvo.iteration tlbk_to_z _hard _acc init bin l = inr l' ->
  let e0 := if (NewEvo.arr_size l <=? S (NewEvo.idx l))%nat
            then NewEvo.expand _hard (NewEvo._NSTEPS * NewEvo._size init) (NewEvo.evo l)
            else NewEvo.evo l in
  let tl := nth (NewEvo.left l) (NewEvo.tlook e0) 0 in
  (NewEvo.my_steps l <= NewEvo.MAX_BIN_STEPS)%nat
  /\ NewEvo.my_steps l' = S (NewEvo.my_steps l)
  /\ NewEvo.idx l' = S (NewEvo.idx l)
  /\ NewEvo.left l' = S (NewEvo.idx l)
  /\ NewEvo.eccen (NewEvo.evo l) <> None
  /\ NewEvo.mdot (NewEvo.evo l) <> None
  /\ exists dt tg,
       0 < dt <= tl
       /\ NewEvo.tlook (NewEvo.evo l')
          = Np.upd (S (NewEvo.idx l))
              (nth (NewEvo.left l) (Np.upd (S (NewEvo.idx l)) tg (NewEvo.tlook e0)) 0 - dt)
              (Np.upd (S (NewEvo.idx l)) tg (NewEvo.tlook e0)).
Proof.
  intros H e0 tl. unfold NewEvo.iteration in H.
  destruct (NewEvo.MAX_BIN_STEPS <? NewEvo.my_steps l)%nat eqn:Hmax; [discriminate H|].
  apply Nat.ltb_ge in Hmax.
  match type of H with
  | (let '(_, _) := ?p in _) = _ => destruct p as [e0' asz] eqn:Eexp
  end.
  assert (He0 : e0' = e0).
  { unfold e0. destruct (NewEvo.arr_size l <=? S (NewEvo.idx l))%nat;
      injection Eexp as <- _; reflexivity. }
  subst e0'. clear Eexp.
  set (dt_l := NewEvo.min_timestep
                 (NewEvo._get_timestep_from_rates _acc e0 (NewEvo.left l)
                    (Np.sum (NewEvo.dadt_l_list l))
                    (option_map Np.sum (NewEvo.dedt_l_list l)) (NewEvo.mdot_l l))
                 (nth (NewEvo.left l) (NewEvo.tlook e0) 0)) in *.
  set (e1 := NewEvo.set_right tlbk_to_z e0 (NewEvo.left l) (S (NewEvo.idx l))
               (nth (NewEvo.left l) (NewEvo.sepa e0) 0 + Np.sum (NewEvo.dadt_l_list l) * dt_l)
               (option_map Np.sum (NewEvo.dedt_l_list l)) (NewEvo.mdot_l l) dt_l) in *.
  destruct (NewEvo._hardening_rate _hard _acc e1 bin (S (NewEvo.idx l)))
    as [[dadt_r_list dedt_r_list] mdot_r].
  set (dt_r := NewEvo.min_timestep
                 (NewEvo._get_timestep_from_rates _acc e1 (S (NewEvo.idx l))
                    (Np.sum dadt_r_list) (option_map Np.sum dedt_r_list) mdot_r)
                 (nth (NewEvo.left l) (NewEvo.tlook e1) 0)) in *.
  set (dadt_ := Np.sum (Np.map2 (fun a b : R => 1 / 2 * (a + b))
                           (NewEvo.dadt_l_list l) dadt_r_list)) in *.
  destruct (NewEvo.increment_sepa (nth (NewEvo.left l) (NewEvo.sepa e1) 0)
              (NewEvo.risco l) dadt_ (Rmin dt_l dt_r)) as [dt a_right] eqn:Einc.
  destruct (Rleb dt 0 || negb (isfinite dt)) eqn:Hdt; [discriminate H|].
  apply orb_false_iff in Hdt. destruct Hdt as [Hdt _]. apply Rleb_false in Hdt.
  match type of H with
  | bind (NewEvo.store_rates ?e ?r ?a ?b ?c) _ = _ => set (e2 := e) in *
  end.
  unfold NewEvo.store_rates in H.
  destruct (NewEvo.mdot e2) as [md|] eqn:Emd; [|discriminate H].
  destruct (negb (S (NewEvo.idx l) <? length md)%nat); [discriminate H|].
  cbn [bind ret NewEvo.eccen] in H.
  destruct (NewEvo.eccen e2) as [ecc|] eqn:Eecc; [|discriminate H].
  match type of H with
  | match ?d with Some _ => _ | None => _ end = _ => destruct d; [|discriminate H]
  end.
  injection H as <-. cbn [NewEvo.my_steps NewEvo.idx NewEvo.left NewEvo.evo NewEvo.tlook].
  assert (Hmd0 : NewEvo.mdot (NewEvo.evo l) <> None).
  { unfold e2 in Emd. rewrite (proj1 (set_right_fields _ _ _ _ _ _ _)) in Emd.
    unfold e1 in Emd. rewrite (proj1 (set_right_fields _ _ _ _ _ _ _)) in Emd.
    unfold e0 in Emd. destruct (NewEvo.arr_size l <=? S (NewEvo.idx l))%nat.
    - rewrite (proj1 (expand_fields _ _)) in Emd. congruence.
    - congruence. }
  assert (Hecc0 : NewEvo.eccen (NewEvo.evo l) <> None).
  { intros Hn.
    assert (E0 : NewEvo.eccen e0 = None).
    { unfold e0. destruct (NewEvo.arr_size l <=? S (NewEvo.idx l))%nat; [|exact Hn].
      apply (proj1 (proj2 (expand_fields _ _))), Hn. }
    assert (E1 : NewEvo.eccen e1 = None)
      by (apply (proj1 (proj2 (set_right_fields _ _ _ _ _ _ _))), E0).
    assert (E2 : NewEvo.eccen e2 = None)
      by (apply (proj1 (proj2 (set_right_fields _ _ _ _ _ _ _))), E1).
    congruence. }
  repeat split; try assumption.
  assert (Hdt' : dt = Rmin dt_l dt_r).
  { destruct (Req_dec_T dadt_ 0) as [Z|NZ].
    - unfold NewEvo.increment_sepa in Einc. rewrite Z in Einc.
      destruct (Rltb _ (NewEvo.risco l)).
      + cbv zeta in Einc. injection Einc as <- _. exfalso.
        unfold Rdiv in Hdt. rewrite Rinv_0 in Hdt. lra.
      + injection Einc as <- _. reflexivity.
    - rewrite increment_sepa_value in Einc by exact NZ.
      injection Einc as <- _. reflexivity. }
  exists dt, (nth (NewEvo.left l) (NewEvo.tlook e0) 0 - dt_l).
  split.
  - split; [exact Hdt|].
    pose proof (min_timestep_le_base
                  (NewEvo._get_timestep_from_rates _acc e0 (NewEvo.left l)
                     (Np.sum (NewEvo.dadt_l_list l))
                     (option_map Np.sum (NewEvo.dedt_l_list l)) (NewEvo.mdot_l l))
                  (nth (NewEvo.left l) (NewEvo.tlook e0) 0)) as Hb.
    fold dt_l in Hb. fold tl in Hb.
    pose proof (Rmin_l dt_l dt_r). pose proof (Rmin_l tl NewEvo._TIME_STEP_MAX). lra.
  - reflexivity.
Qed.

Lemma while_loop_zero bin l :
  NewEvo.while_loop tlbk_to_z _hard _acc init 0 bin l
  = if NewEvo.continues l then raise RuntimeError else ret l.
Proof. reflexivity. Qed.

Lemma while_loop_inv fuel : forall bin l l',
  NewEvo.while_loop tlbk_to_z _hard _acc init fuel bin l = inr l' ->
  NewEvo.continues l' = false
  /\ (l' = l
      \/ ((NewEvo.my_steps l' <= NewEvo.MAX_BIN_STEPS + 1)%nat
          /\ (NewEvo.my_steps l < NewEvo.my_steps l')%nat
          /\ NewEvo.eccen (NewEvo.evo l) <> None
          /\ NewEvo.mdot (NewEvo.evo l) <> None)).
Proof.
  induction fuel as [|fuel IH]; intros bin l l' H.
  - rewrite while_loop_zero in H.
    destruct (NewEvo.continues l) eqn:Hc; [discriminate H|].
    injection H as <-. auto.
  - rewrite while_loop_unfold in H.
    destruct (NewEvo.continues l) eqn:Hc.
    + destruct (NewEvo.iteration tlbk_to_z _hard _acc init bin l) as [e|l1] eqn:Hit;
        [discriminate H|].
      cbn [bind] in H.
      destruct (iteration_inv _ _ _ Hit) as (Hmax & Hsteps & _ & _ & Hecc & Hmd & _).
      destruct (IH _ _ _ H) as [Hc' [->|(Hb & Hlt & _)]].
      * split; [exact Hc'|]. right. repeat split; try assumption; lia.
      * split; [exact Hc'|]. right. repeat split; try assumption; lia.
    + injection H as <-. auto.
Qed.

End AdaptiveLoop.

(** X25.  Every step that [New_Evolution.evolve] stores is later in time
    and not after the present: an iteration of the loop advances the index
    by one, leaves the lookback time of the step before as it is, and
    stores a lookback time that is strictly smaller and not negative. *)
Theorem iteration_lookback {consts : Constants} (tlbk_to_z : R -> R)
    (_hard : list NewEvo.Hardening) (_acc : option NewEvo.Accretion)
    (init : NewEvo.Init) (bin : nat) (l l' : NewEvo.Loop) :
  NewEvo.iteration tlbk_to_z _hard _acc init bin l = inr l' ->
  NewEvo.left l = NewEvo.idx l ->
  NewEvo.arr_size l = length (NewEvo.tlook (NewEvo.evo l)) ->
  (NewEvo.idx l < NewEvo.arr_size l)%nat ->
  (0 < NewEvo._size init)%nat ->
  let t := nth (NewEvo.idx l) (NewEvo.tlook (NewEvo.evo l)) 0 in
  let t' := nth (NewEvo.idx l') (NewEvo.tlook (NewEvo.evo l')) 0 in
  NewEvo.idx l' = S (NewEvo.idx l)
  /\ 0 <= t' < t
  /\ nth (NewEvo.idx l) (NewEvo.tlook (NewEvo.evo l')) 0 = t.
Proof.
  intros Hit Hleft Hsize Hidx Hn t t'.
  destruct (iteration_inv _ _ _ _ _ _ _ Hit) as (_ & _ & Hi' & _ & _ & _ & dt & tg & Hdt & Htl).
  cbv zeta in Hdt, Htl.
  set (e0 := if (NewEvo.arr_size l <=? S (NewEvo.idx l))%nat
             then NewEvo.expand _hard (NewEvo._NSTEPS * NewEvo._size init) (NewEvo.evo l)
             else NewEvo.evo l) in *.
  rewrite Hleft in Hdt, Htl.
  assert (Hlen0 : (S (NewEvo.idx l) < length (NewEvo.tlook e0))%nat).
  { unfold e0. destruct (NewEvo.arr_size l <=? S (NewEvo.idx l))%nat eqn:Hb.
    - cbn [NewEvo.expand NewEvo.tlook]. rewrite length_app. unfold Np.zeros.
      rewrite repeat_length. unfold NewEvo._NSTEPS. lia.
    - apply Nat.leb_gt in Hb. lia. }
  assert (Ht0 : nth (NewEvo.idx l) (NewEvo.tlook e0) 0 = t).
  { unfold e0, t. destruct (NewEvo.arr_size l <=? S (NewEvo.idx l))%nat; [|reflexivity].
    cbn [NewEvo.expand NewEvo.tlook]. apply app_nth1. lia. }
  assert (HU : nth (NewEvo.idx l) (Np.upd (S (NewEvo.idx l)) tg (NewEvo.tlook e0)) 0 = t).
  { rewrite upd_nth_other by lia. exact Ht0. }
  split; [exact Hi'|].
  unfold t'. rewrite Hi', Htl, HU.
  rewrite upd_nth_same by (rewrite upd_length; exact Hlen0).
  rewrite upd_nth_other by lia. rewrite HU.
  rewrite Ht0 in Hdt. split; [lra|reflexivity].
Qed.

(** X26.  When [New_Evolution.evolve] is done with a binary, the loop has
    stopped by its own test (the binary is within 1.001 ISCO radii, or at
    lookback time zero, or at a redshift of at most 1e-3) after at most
    [MAX_BIN_STEPS] + 1 steps; and unless both the eccentricity and the
    accretion rates are stored, it has taken no step at all: the first
    step would raise. *)
Theorem evolve_binary_stops {consts : Constants} (tlbk_to_z : R -> R)
    (_hard : list NewEvo.Hardening) (_acc : option NewEvo.Accretion)
    (init : NewEvo.Init) (bin : nat) (l l' : NewEvo.Loop) :
  NewEvo.evolve_binary tlbk_to_z _hard _acc init bin l = inr l' ->
  NewEvo.continues l' = false
  /\ (NewEvo.my_steps l' <= NewEvo.MAX_BIN_STEPS + 1)%nat
  /\ (NewEvo.eccen (NewEvo.evo l) = None \/ NewEvo.mdot (NewEvo.evo l) = None ->
      NewEvo.my_steps l' = 0%nat).
Proof.
  intros H. unfold NewEvo.evolve_binary in H.
  match type of H with
  | (let '(_, _) := ?p in _) = _ => destruct p as [[dl el] ml]
  end.
  apply while_loop_inv in H. destruct H as [Hc [->|(Hb & _ & Hecc & Hmd)]].
  - split; [exact Hc|]. cbn [NewEvo.my_steps]. split; [lia|]. reflexivity.
  - split; [exact Hc|]. split; [exact Hb|].
    cbn [NewEvo.evo NewEvo.eccen NewEvo.mdot] in Hecc, Hmd.
    intros [Hn|Hn]; exfalso.
    + rewrite Hn in Hecc. apply Hecc. reflexivity.
    + apply Hmd, Hn.
Qed.

Lemma example_iteration :
  exists l',
    @NewEvo.iteration Ex.consts ExNew.tlbk_to_z [ExNew.hard] (Some ExNew.acc) ExNew.init 0
      (ExLoop.loop0 1000) = inr l'.
Proof.
  unfold NewEvo.iteration, ExLoop.loop0, ExLoop.evo0. simpl.
  unfold NewEvo._TIME_STEP_MAX, NewEvo.CFL, NewEvo.min_timestep. simpl. Reval.
  unfold NewEvo.increment_sepa. Rdecide. cbv iota beta. Rdecide. simpl.
  unfold NewEvo.store_rates. simpl. unfold ret. cbn [bind].
  eexists. reflexivity.
Qed.

Lemma iteration_lookback_witness :
  exists l',
    @NewEvo.iteration Ex.consts ExNew.tlbk_to_z [ExNew.hard] (Some ExNew.acc) ExNew.init 0
      (ExLoop.loop0 1000) = inr l'
    /\ NewEvo.idx l' = 1%nat
    /\ 0 <= nth (NewEvo.idx l') (NewEvo.tlook (NewEvo.evo l')) 0 < 1000
    /\ nth 0 (NewEvo.tlook (NewEvo.evo l')) 0 = 1000.
Proof.
  destruct example_iteration as (l' & Hl').
  exists l'. split; [exact Hl'|].
  apply (@iteration_lookback Ex.consts ExNew.tlbk_to_z [ExNew.hard] (Some ExNew.acc)
           ExNew.init 0 (ExLoop.loop0 1000) l' Hl' eq_refl eq_refl); simpl; lia.
Defined.

(** The run of the adaptive integrator on the example binary of masses 1
    and 1 that starts at separation 7: two steps, then the loop ends. *)
Lemma example_evolve_binary :
  exists l',
    @NewEvo.evolve_binary Ex.consts ExNew.tlbk_to_z [ExNew.hard] (Some ExNew.acc)
      ExNew.init 0 (@NewEvo.start [ExNew.hard] (Some ExNew.acc) ExNew.init) = inr l'
    /\ NewEvo.my_steps l' = 2%nat.
Proof.
  unfold NewEvo.evolve_binary, NewEvo.start.
  cbn [NewEvo.evo NewEvo.idx NewEvo.arr_size NewEvo.right NewEvo.sepa NewEvo.mass NewEvo.tlook
       NewEvo.redz NewEvo.eccen NewEvo.dadt NewEvo.dedt NewEvo.mdot ExNew.init NewEvo._size
       NewEvo._eccen_init NewEvo._sepa_init NewEvo._mass_init NewEvo._tlook_init length Nat.mul Nat.add].
  change (NewEvo._NSTEPS * 1)%nat with 1000%nat.
  rewrite zeros_1000, zeros2_1000, repeat_1000.
  simpl.
  unfold Utils.rad_isco, Utils.rad_isco_factor, Utils.schwarzschild_radius, ExNew.tlbk_to_z.
  simpl.
  (* first iteration *)
  rewrite while_loop_unfold.
  unfold NewEvo.continues. simpl. Rdecide. simpl.
  unfold NewEvo.iteration. simpl.
  unfold NewEvo._TIME_STEP_MAX, NewEvo.CFL, NewEvo.min_timestep. simpl.
  Reval.
  unfold NewEvo.increment_sepa. Rdecide. cbv iota beta. Rdecide. simpl.
  unfold NewEvo.store_rates. simpl. unfold ret. cbn [bind].
  unfold Utils.rad_isco, Utils.rad_isco_factor, Utils.schwarzschild_radius. simpl.
  (* second iteration *)
  rewrite while_loop_unfold.
  unfold NewEvo.continues. simpl. Rdecide. simpl.
  unfold NewEvo.iteration. simpl.
  unfold NewEvo._TIME_STEP_MAX, NewEvo.CFL, NewEvo.min_timestep. simpl.
  Reval.
  unfold NewEvo.increment_sepa. Rdecide. cbv iota beta. Rdecide. simpl.
  unfold NewEvo.store_rates. simpl. unfold ret. cbn [bind].
  unfold Utils.rad_isco, Utils.rad_isco_factor, Utils.schwarzschild_radius. simpl.
  (* the loop ends *)
  rewrite while_loop_unfold.
  unfold NewEvo.continues. simpl. Rdecide. simpl.
  eexists. split; reflexivity.
Qed.

Lemma evolve_binary_stops_witness :
  exists l',
    @NewEvo.evolve_binary Ex.consts ExNew.tlbk_to_z [ExNew.hard] (Some ExNew.acc)
      ExNew.init 0 (@NewEvo.start [ExNew.hard] (Some ExNew.acc) ExNew.init) = inr l'
    /\ NewEvo.my_steps l' = 2%nat
    /\ NewEvo.continues l' = false
    /\ (NewEvo.my_steps l' <= NewEvo.MAX_BIN_STEPS + 1)%nat.
Proof.
  destruct example_evolve_binary as (l' & Hl' & Hsteps).
  exists l'. split; [exact Hl'|]. split; [exact Hsteps|].
  destruct (@evolve_binary_stops Ex.consts ExNew.tlbk_to_z [ExNew.hard] (Some ExNew.acc)
              ExNew.init 0 (@NewEvo.start [ExNew.hard] (Some ExNew.acc) ExNew.init)
              l' Hl') as (H1 & H2 & _).
  split; assumption.
Defined.
(** ** The signals of the Monte-Carlo synthesis *)

Lemma sum_nonneg (l : list R) : Forall (fun x => 0 <= x) l -> 0 <= Np.sum l.
Proof.
  induction 1 as [|x l Hx _ IH]; simpl; lra.
Qed.

Lemma sum_ge_In (l : list R) x :
  Forall (fun y => 0 <= y) l -> In x l -> x <= Np.sum l.
Proof.
  induction 1 as [|y l Hy Hl IH]; simpl; intros Hin; [contradiction|].
  pose proof (sum_nonneg l Hl).
  destruct Hin as [->|Hin]; [lra|]. specialize (IH Hin). lra.
Qed.

Lemma sum_zero (l : list R) : Forall (fun x => x = 0) l -> Np.sum l = 0.
Proof.
  induction 1 as [|x l Hx _ IH]; simpl; lra.
Qed.

Lemma b2r_range b : 0 <= Gw.b2r b <= 1.
Proof. destruct b; simpl; lra. Qed.

Lemma b2r_le_INR n : Gw.b2r (0 <? n)%nat <= INR n.
Proof.
  destruct n as [|n]; [simpl; lra|].
  change (0 <? S n)%nat with true. simpl Gw.b2r.
  replace 1 with (INR 1) by reflexivity. apply le_INR. lia.
Qed.

Lemma map2_Forall {A B C} (P : C -> Prop) (f : A -> B -> C) a b :
  (forall x y, In x a -> In y b -> P (f x y)) -> Forall P (Np.map2 f a b).
Proof.
  revert b. induction a as [|x a IH]; intros [|y b] H; simpl; constructor.
  - apply H; left; reflexivity.
  - apply IH. intros; apply H; right; assumption.
Qed.

Lemma in_combine_nonneg (temp : list R) (sel : list bool) ts :
  (forall t, In t temp -> 0 <= t) -> In ts (combine temp sel) -> 0 <= fst ts.
Proof.
  intros H Hin. destruct ts as [t s]. apply in_combine_l in Hin. apply H, Hin.
Qed.

Lemma combine_nth_fst {A B} (a : list A) (b : list B) i da db :
  (i < length (combine a b))%nat -> fst (nth i (combine a b) (da, db)) = nth i a da.
Proof.
  revert b i. induction a as [|x a IH]; intros [|y b] [|i]; simpl; intros H; try lia; auto.
  apply IH. lia.
Qed.

Section Realization.

Variables (temp : list R) (sel_n2 : list bool).
Hypothesis temp_nonneg : forall t, In t temp -> 0 <= t.

Lemma ecc_terms_nonneg ns : Forall (fun x => 0 <= x) (ecc_terms temp ns).
Proof.
  apply map2_Forall. intros t n Ht _.
  apply Rmult_le_pos; [apply temp_nonneg, Ht|apply pos_INR].
Qed.

Lemma circ_terms_nonneg ns : Forall (fun x => 0 <= x) (circ_terms temp sel_n2 ns).
Proof.
  apply map2_Forall. intros ts n Ht _.
  apply Rmult_le_pos; [apply Rmult_le_pos|apply b2r_range].
  - eapply in_combine_nonneg; eauto.
  - apply pos_INR.
Qed.

Lemma masked_nonneg ns : Forall (fun x => 0 <= x) (Gw.masked temp ns).
Proof.
  apply map2_Forall. intros t n Ht _.
  apply Rmult_le_pos; [apply temp_nonneg, Ht|apply b2r_range].
Qed.

Lemma circ_masked_nonneg ns : Forall (fun x => 0 <= x) (circ_masked temp sel_n2 ns).
Proof.
  apply map2_Forall. intros ts n Ht _.
  apply Rmult_le_pos; [apply Rmult_le_pos|]; try apply b2r_range.
  eapply in_combine_nonneg; eauto.
Qed.

(** The loudest masked value of a realization is one of its masked values
    or, without a source, zero; it is at most the sum of the weighted
    values. *)
Lemma descending_head_bounds ns :
  0 <= nth 0 (Gw.descending temp ns) 0 <= Np.sum (ecc_terms temp ns).
Proof.
  destruct (Gw.masked temp ns) as [|m ms] eqn:E.
  - unfold Gw.descending. rewrite E. simpl.
    split; [lra|apply sum_nonneg, ecc_terms_nonneg].
  - assert (Hne : Gw.masked temp ns <> []) by (rewrite E; discriminate).
    destruct (descending_head temp ns Hne) as [Hin _].
    set (h := nth 0 (Gw.descending temp ns) 0) in *.
    split.
    + pose proof (masked_nonneg ns) as Hall. rewrite Forall_forall in Hall.
      apply Hall, Hin.
    + unfold Gw.masked in Hin.
      destruct (map2_In _ _ _ _ 0 0%nat Hin) as (i & Hi & Hj & Eh).
      apply Rle_trans with (nth i temp 0 * INR (nth i ns 0%nat)).
      * rewrite Eh. apply Rmult_le_compat_l; [apply temp_nonneg, nth_In, Hi|].
        apply b2r_le_INR.
      * apply sum_ge_In; [apply ecc_terms_nonneg|].
        unfold ecc_terms.
        rewrite <- (map2_nth (fun t (n : nat) => t * INR n) temp ns i 0 0%nat 0 Hi Hj).
        apply nth_In. rewrite map2_length. lia.
Qed.

Lemma max0_In (l : list R) : l <> [] -> In (Gw.max0 l) l.
Proof.
  destruct l as [|x l]; [congruence|]. intros _. apply fold_Rmax_In.
Qed.

Lemma max0_nonneg (l : list R) : Forall (fun x => 0 <= x) l -> 0 <= Gw.max0 l.
Proof.
  intros H. destruct l as [|x l]; [simpl; lra|].
  rewrite Forall_forall in H. apply H. apply max0_In. discriminate.
Qed.

(** The circular terms are the eccentric ones where the harmonic is
    n = 2 and zero elsewhere. *)
Lemma circ_sum_le_ecc ns : Np.sum (circ_terms temp sel_n2 ns) <= Np.sum (ecc_terms temp ns).
Proof.
  unfold circ_terms, ecc_terms.
  revert sel_n2 ns. induction temp as [|t temp' IH]; intros sel ns; [simpl; lra|].
  assert (Ht : 0 <= t) by (apply temp_nonneg; left; reflexivity).
  assert (Hrest : forall x, In x temp' -> 0 <= x)
    by (intros; apply temp_nonneg; right; assumption).
  destruct ns as [|n ns].
  - destruct sel; simpl; lra.
  - destruct sel as [|s sel].
    + simpl combine. cbn [Np.map2 Np.sum fold_right].
      pose proof (sum_nonneg (Np.map2 (fun t0 (n0 : nat) => t0 * INR n0) temp' ns)) as Hs.
      assert (0 <= Np.sum (Np.map2 (fun t0 (n0 : nat) => t0 * INR n0) temp' ns)).
      { apply Hs. apply map2_Forall. intros x y Hx _.
        apply Rmult_le_pos; [apply Hrest, Hx|apply pos_INR]. }
      pose proof (Rmult_le_pos t (INR n) Ht (pos_INR n)). unfold Np.sum in *. lra.
    + simpl combine. cbn [Np.map2 Np.sum fold_right fst snd].
      specialize (IH Hrest sel ns). unfold Np.sum in IH.
      pose proof (Rmult_le_pos t (INR n) Ht (pos_INR n)) as Hp.
      pose proof (b2r_range s) as Hb.
      assert (t * INR n * Gw.b2r s <= t * INR n) by nra.
      lra.
Qed.

Lemma circ_masked_le_head ns :
  Gw.max0 (circ_masked temp sel_n2 ns) <= nth 0 (Gw.descending temp ns) 0.
Proof.
  destruct (circ_masked temp sel_n2 ns) as [|c cs] eqn:E.
  - simpl. apply descending_head_bounds.
  - assert (Hin : In (Gw.max0 (c :: cs)) (circ_masked temp sel_n2 ns)).
    { rewrite E. apply max0_In. discriminate. }
    unfold circ_masked in Hin.
    destruct (map2_In _ _ _ _ (0, false) 0%nat Hin) as (i & Hi & Hj & Eh).
    pose proof (combine_nth_fst temp sel_n2 i 0 false Hi) as Eq.
    rewrite length_combine in Hi.
    assert (Hit : (i < length temp)%nat) by lia.
    set (q := nth i (combine temp sel_n2) (0, false)) in *.
    rewrite Eq in Eh.
    assert (Hm : In (nth i temp 0 * Gw.b2r (0 <? nth i ns 0%nat)%nat) (Gw.masked temp ns)).
    { unfold Gw.masked.
      rewrite <- (map2_nth (fun t (n : nat) => t * Gw.b2r (0 <? n)%nat)
                    temp ns i 0 0%nat 0 Hit Hj).
      apply nth_In. rewrite map2_length. lia. }
    assert (Hne : Gw.masked temp ns <> []) by (intros E0; rewrite E0 in Hm; exact Hm).
    destruct (descending_head temp ns Hne) as [_ Hmax].
    apply Rle_trans with (nth i temp 0 * Gw.b2r (0 <? nth i ns 0%nat)%nat);
      [|apply Hmax, Hm].
    rewrite Eh.
    pose proof (b2r_range (snd q)) as Hb.
    assert (0 <= nth i temp 0 * Gw.b2r (0 <? nth i ns 0%nat)%nat).
    { apply Rmult_le_pos; [apply temp_nonneg, nth_In, Hit|apply b2r_range]. }
    nra.
Qed.

Lemma circ_masked_head_bounds ns :
  0 <= Gw.max0 (circ_masked temp sel_n2 ns) <= Np.sum (circ_terms temp sel_n2 ns).
Proof.
  split; [apply max0_nonneg, circ_masked_nonneg|].
  destruct (circ_masked temp sel_n2 ns) as [|c cs] eqn:E.
  - simpl. apply sum_nonneg, circ_terms_nonneg.
  - assert (Hin : In (Gw.max0 (c :: cs)) (circ_masked temp sel_n2 ns)).
    { rewrite E. apply max0_In. discriminate. }
    unfold circ_masked in Hin.
    destruct (map2_In _ _ _ _ (0, false) 0%nat Hin) as (i & Hi & Hj & Eh).
    set (q := nth i (combine temp sel_n2) (0, false)) in *.
    assert (Hq : 0 <= fst q).
    { apply (in_combine_nonneg temp sel_n2); [exact temp_nonneg|]. apply nth_In, Hi. }
    apply Rle_trans with (fst q * INR (nth i ns 0%nat) * Gw.b2r (snd q)).
    + rewrite Eh.
      apply Rmult_le_compat_r; [apply b2r_range|].
      apply Rmult_le_compat_l; [exact Hq|apply b2r_le_INR].
    + apply sum_ge_In; [apply circ_terms_nonneg|].
      unfold circ_terms. subst q.
      rewrite <- (map2_nth (fun (ts : R * bool) (n : nat) =>
                              fst ts * INR n * Gw.b2r (snd ts))
                    (combine temp sel_n2) ns i (0, false) 0%nat 0 Hi Hj).
      apply nth_In. rewrite map2_length. lia.
Qed.

End Realization.

Lemma zeros_nth n i : nth i (Np.zeros n) 0 = 0.
Proof.
  unfold Np.zeros. destruct (Nat.lt_ge_cases i n) as [H|H].
  - apply nth_repeat_lt, H.
  - apply nth_overflow. rewrite repeat_length. exact H.
Qed.

(** The entries of the three arrays of a realization, eccentric and
    circular. *)
Lemma mc_signals_entries temp num_frac sel num_pois nreals loudest r :
  (r < nreals)%nat ->
  let sg := Gw.mc_signals temp num_frac sel num_pois nreals loudest in
  let ns := Np.col 0%nat r num_pois in
  let drawn := existsb (existsb (fun n => (0 <? n)%nat)) num_pois in
  nth r (snd (Gw.mc_ecc sg)) 0
    = Np.sum (Np.map2 (fun t (n : nat) => t * INR n) temp ns)
  /\ nth r (snd (Gw.mc_circ sg)) 0
    = Np.sum (Np.map2 (fun (ts : R * bool) (n : nat) => fst ts * INR n * Gw.b2r (snd ts))
                (combine temp sel) ns)
  /\ nth r (fst (fst (Gw.mc_ecc sg))) 0
    = (if drawn then nth 0 (Gw.descending temp ns) 0 else 0)
  /\ nth r (fst (fst (Gw.mc_circ sg))) 0
    = (if drawn
       then Gw.max0 (Np.map2 (fun (ts : R * bool) (n : nat) =>
                                fst ts * Gw.b2r (0 <? n)%nat * Gw.b2r (snd ts))
                       (combine temp sel) ns)
       else 0)
  /\ nth r (snd (fst (Gw.mc_ecc sg))) 0
    = nth r (snd (Gw.mc_ecc sg)) 0 - nth r (fst (fst (Gw.mc_ecc sg))) 0
  /\ nth r (snd (fst (Gw.mc_circ sg))) 0
    = nth r (snd (Gw.mc_circ sg)) 0 - nth r (fst (fst (Gw.mc_circ sg))) 0.
Proof.
  intros Hr sg ns drawn. unfold sg, Gw.mc_signals. fold drawn.
  destruct drawn; cbn [Gw.mc_ecc Gw.mc_circ fst snd].
  all: repeat split.
  all: try (rewrite nth_map_seq by exact Hr; reflexivity).
  all: try apply zeros_nth.
  all: rewrite (map2_nth _ _ _ _ 0 0 0);
    rewrite ?length_map, ?length_seq; unfold Np.zeros; rewrite ?repeat_length;
    try exact Hr; reflexivity.
Qed.

(** X27.  With non-negative strain-squared values, no realization has a
    negative background: its foreground lies between zero and its total,
    and its background, the total less the foreground, is not negative.
    This holds for the eccentric and for the circular signal. *)
Theorem mc_background_nonnegative temp num_frac sel num_pois nreals loudest r :
  (forall t, In t temp -> 0 <= t) ->
  (r < nreals)%nat ->
  let sg := Gw.mc_signals temp num_frac sel num_pois nreals loudest in
  let fore s := nth r (fst (fst s)) 0 in
  let back s := nth r (snd (fst s)) 0 in
  let both s := nth r (snd s) 0 in
  (0 <= fore (Gw.mc_ecc sg) <= both (Gw.mc_ecc sg)
   /\ 0 <= back (Gw.mc_ecc sg)
   /\ fore (Gw.mc_ecc sg) + back (Gw.mc_ecc sg) = both (Gw.mc_ecc sg))
  /\ (0 <= fore (Gw.mc_circ sg) <= both (Gw.mc_circ sg)
      /\ 0 <= back (Gw.mc_circ sg)
      /\ fore (Gw.mc_circ sg) + back (Gw.mc_circ sg) = both (Gw.mc_circ sg)).
Proof.
  intros Hpos Hr sg fore back both. unfold fore, back, both.
  destruct (mc_signals_entries temp num_frac sel num_pois nreals loudest r Hr)
    as (Eb & Cb & Ef & Cf & Ek & Ck).
  fold sg in Eb, Cb, Ef, Cf, Ek, Ck.
  pose proof (descending_head_bounds temp Hpos (Np.col 0%nat r num_pois)) as He.
  pose proof (circ_masked_head_bounds temp sel Hpos (Np.col 0%nat r num_pois)) as Hc.
  pose proof (sum_nonneg _ (ecc_terms_nonneg temp Hpos (Np.col 0%nat r num_pois))) as Sb.
  pose proof (sum_nonneg _ (circ_terms_nonneg temp sel Hpos (Np.col 0%nat r num_pois))) as Sc.
  unfold ecc_terms, circ_terms, circ_masked in He, Hc, Sb, Sc.
  split.
  - rewrite Ek, Ef, Eb.
    destruct (existsb _ num_pois); lra.
  - rewrite Ck, Cf, Cb.
    destruct (existsb _ num_pois); lra.
Qed.

Lemma mc_background_nonnegative_witness :
  let sg := Gw.mc_signals [3; 2] [1; 1] [true; false] [[2]; [1]]%nat 1%nat 5%nat in
  let fore s := nth 0%nat (fst (fst s)) 0 in
  let back s := nth 0%nat (snd (fst s)) 0 in
  let both s := nth 0%nat (snd s) 0 in
  (0 <= fore (Gw.mc_ecc sg) <= both (Gw.mc_ecc sg)
   /\ 0 <= back (Gw.mc_ecc sg)
   /\ fore (Gw.mc_ecc sg) + back (Gw.mc_ecc sg) = both (Gw.mc_ecc sg))
  /\ (0 <= fore (Gw.mc_circ sg) <= both (Gw.mc_circ sg)
      /\ 0 <= back (Gw.mc_circ sg)
      /\ fore (Gw.mc_circ sg) + back (Gw.mc_circ sg) = both (Gw.mc_circ sg)).
Proof.
  apply (mc_background_nonnegative [3; 2] [1; 1] [true; false] [[2]; [1]]%nat
           1%nat 5%nat 0%nat).
  - intros t [<-|[<-|[]]]; lra.
  - lia.
Defined.

(** X28.  The circular signal never exceeds the eccentric one: with
    non-negative strain-squared values, in every realization the circular
    total and the circular foreground are at most the eccentric ones, and
    with non-negative weights so is the semi-analytic value. *)
Theorem mc_circ_le_ecc temp num_frac sel num_pois nreals loudest r :
  (forall t, In t temp -> 0 <= t) ->
  (forall f, In f num_frac -> 0 <= f) ->
  (r < nreals)%nat ->
  let sg := Gw.mc_signals temp num_frac sel num_pois nreals loudest in
  nth r (snd (Gw.mc_circ sg)) 0 <= nth r (snd (Gw.mc_ecc sg)) 0
  /\ nth r (fst (fst (Gw.mc_circ sg))) 0 <= nth r (fst (fst (Gw.mc_ecc sg))) 0
  /\ Gw.sa_circ sg <= Gw.sa_ecc sg.
Proof.
  intros Hpos Hfrac Hr sg.
  destruct (mc_signals_entries temp num_frac sel num_pois nreals loudest r Hr)
    as (Eb & Cb & Ef & Cf & _ & _).
  fold sg in Eb, Cb, Ef, Cf.
  split; [|split].
  - rewrite Eb, Cb. apply (circ_sum_le_ecc temp sel Hpos).
  - rewrite Ef, Cf. destruct (existsb _ num_pois); [|lra].
    apply (circ_masked_le_head temp sel Hpos).
  - unfold sg, Gw.mc_signals.
    destruct (existsb _ num_pois); cbn [Gw.sa_circ Gw.sa_ecc].
    all: clear - Hpos Hfrac; revert sel num_frac Hfrac;
      induction temp as [|t temp' IH]; intros sel num_frac Hfrac; [simpl; lra|];
      assert (Ht : 0 <= t) by (apply Hpos; left; reflexivity);
      assert (Hrest : forall x, In x temp' -> 0 <= x)
        by (intros; apply Hpos; right; assumption);
      (destruct num_frac as [|f fs]; [destruct sel; simpl; lra|]);
      assert (Hf : 0 <= f) by (apply Hfrac; left; reflexivity);
      assert (Hfs : forall x, In x fs -> 0 <= x)
        by (intros; apply Hfrac; right; assumption);
      pose proof (Rmult_le_pos t f Ht Hf) as Hp;
      (destruct sel as [|s sel];
       [ simpl combine; cbn [Np.map2 Np.sum fold_right];
         assert (0 <= Np.sum (Np.map2 Rmult temp' fs))
           by (apply sum_nonneg, map2_Forall; intros x y Hx Hy;
               apply Rmult_le_pos; [apply Hrest, Hx|apply Hfs, Hy]);
         unfold Np.sum in *; lra
       | simpl combine; cbn [Np.map2 Np.sum fold_right fst snd];
         specialize (IH Hrest sel fs Hfs); unfold Np.sum in IH;
         pose proof (b2r_range s) as Hb;
         assert (t * f * Gw.b2r s <= t * f) by nra; lra ]).
Qed.

Lemma mc_circ_le_ecc_witness :
  let sg := Gw.mc_signals [3; 2] [1; 1] [true; false] [[2]; [1]]%nat 1%nat 5%nat in
  nth 0%nat (snd (Gw.mc_circ sg)) 0 <= nth 0%nat (snd (Gw.mc_ecc sg)) 0
  /\ nth 0%nat (fst (fst (Gw.mc_circ sg))) 0 <= nth 0%nat (fst (fst (Gw.mc_ecc sg))) 0
  /\ Gw.sa_circ sg <= Gw.sa_ecc sg.
Proof.
  apply (mc_circ_le_ecc [3; 2] [1; 1] [true; false] [[2]; [1]]%nat 1%nat 5%nat 0%nat).
  - intros t [<-|[<-|[]]]; lra.
  - intros t [<-|[<-|[]]]; lra.
  - lia.
Defined.

Lemma none_drawn (num_pois : list (list nat)) :
  (forall row n, In row num_pois -> In n row -> n = 0%nat) ->
  existsb (existsb (fun n => (0 <? n)%nat)) num_pois = false.
Proof.
  intros H. destruct (existsb _ num_pois) eqn:E; [|reflexivity].
  apply existsb_exists in E. destruct E as (row & Hrow & E).
  apply existsb_exists in E. destruct E as (n & Hn & E).
  rewrite (H row n Hrow Hn) in E. discriminate E.
Qed.

Lemma map_const_repeat {A B} (c : B) (l : list A) :
  map (fun _ => c) l = repeat c (length l).
Proof. induction l as [|a l IH]; simpl; [reflexivity|rewrite IH; reflexivity]. Qed.

Lemma zeros_minus_zeros n : Np.map2 Rminus (Np.zeros n) (Np.zeros n) = Np.zeros n.
Proof.
  unfold Np.zeros. induction n as [|k IH]; [reflexivity|].
  change (repeat 0 (S k)) with (0 :: repeat 0 k). cbn [Np.map2].
  rewrite IH. f_equal. lra.
Qed.

(** X29.  When the Poisson draw leaves every count at zero, all the
    Monte-Carlo signals are zero: foreground, background and total are
    arrays of [nreals] zeros, for the eccentric and for the circular
    signal, and [loud] is the zero array of shape (loudest, nreals). *)
Theorem mc_signals_none_drawn temp num_frac sel num_pois nreals loudest :
  (forall row n, In row num_pois -> In n row -> n = 0%nat) ->
  let sg := Gw.mc_signals temp num_frac sel num_pois nreals loudest in
  Gw.mc_ecc sg = (Np.zeros nreals, Np.zeros nreals, Np.zeros nreals)
  /\ Gw.mc_circ sg = (Np.zeros nreals, Np.zeros nreals, Np.zeros nreals)
  /\ Gw.loud sg = repeat (Np.zeros nreals) loudest.
Proof.
  intros Hz sg. unfold sg, Gw.mc_signals.
  rewrite (none_drawn _ Hz). cbn [Gw.mc_ecc Gw.mc_circ Gw.loud].
  assert (Hcol : forall r n, In n (Np.col 0%nat r num_pois) -> n = 0%nat).
  { intros r n Hin. unfold Np.col in Hin. apply in_map_iff in Hin.
    destruct Hin as (row & <- & Hrow).
    destruct (Nat.lt_ge_cases r (length row)) as [Hr|Hr].
    - apply (Hz row); [exact Hrow|apply nth_In, Hr].
    - apply nth_overflow, Hr. }
  assert (Eb : map (fun r => Np.sum (Np.map2 (fun t (n : nat) => t * INR n) temp
                                       (Np.col 0%nat r num_pois))) (seq 0 nreals)
               = Np.zeros nreals).
  { unfold Np.zeros.
    transitivity (map (fun _ : nat => 0) (seq 0 nreals));
      [|rewrite map_const_repeat, length_seq; reflexivity].
    apply map_ext. intros r.
    apply sum_zero, map2_Forall. intros t n _ Hn.
    rewrite (Hcol r n Hn). simpl. lra. }
  assert (Ec : map (fun r => Np.sum (Np.map2 (fun (ts : R * bool) (n : nat) =>
                                                fst ts * INR n * Gw.b2r (snd ts))
                                       (combine temp sel) (Np.col 0%nat r num_pois)))
                 (seq 0 nreals)
               = Np.zeros nreals).
  { unfold Np.zeros.
    transitivity (map (fun _ : nat => 0) (seq 0 nreals));
      [|rewrite map_const_repeat, length_seq; reflexivity].
    apply map_ext. intros r.
    apply sum_zero, map2_Forall. intros t n _ Hn.
    rewrite (Hcol r n Hn). simpl. lra. }
  rewrite Eb, Ec.
  rewrite zeros_minus_zeros. repeat split.
Qed.

Lemma mc_signals_none_drawn_witness :
  let sg := Gw.mc_signals [3; 2] [1; 1] [true; false] [[0; 0]; [0; 0]]%nat 2%nat 5%nat in
  Gw.mc_ecc sg = (Np.zeros 2%nat, Np.zeros 2%nat, Np.zeros 2%nat)
  /\ Gw.mc_circ sg = (Np.zeros 2%nat, Np.zeros 2%nat, Np.zeros 2%nat)
  /\ Gw.loud sg = repeat (Np.zeros 2%nat) 5%nat.
Proof.
  apply (mc_signals_none_drawn [3; 2] [1; 1] [true; false] [[0; 0]; [0; 0]]%nat 2%nat 5%nat).
  intros row n [<-|[<-|[]]] [<-|[<-|[]]]; reflexivity.
Defined.

(** ** The loudest sources *)

Lemma sort_length l : length (Np.sort l) = length l.
Proof. apply Permutation_length, sort_perm. Qed.

Lemma descending_length temp ns :
  length (Gw.descending temp ns) = Nat.min (length temp) (length ns).
Proof.
  unfold Gw.descending, Gw.masked. rewrite length_rev, sort_length. apply map2_length.
Qed.

Lemma descending_order temp ns k :
  (S k < length (Gw.descending temp ns))%nat ->
  nth (S k) (Gw.descending temp ns) 0 <= nth k (Gw.descending temp ns) 0.
Proof.
  intros Hk. pose proof Hk as Hk'. unfold Gw.descending in *.
  rewrite length_rev in Hk'.
  rewrite !rev_nth by lia.
  apply sorted_nth_le; [apply sort_sorted|lia|lia].
Qed.

(** X30.  When a source is drawn, [loud] holds for every realization its
    masked strain-squared values from the loudest down: it has as many
    rows as [loudest] allows and there are valid elements, each row has
    [nreals] entries, its first row is the eccentric foreground, and no
    row exceeds the row before it. *)
Theorem loud_descending temp num_frac sel num_pois nreals loudest v0 r0 :
  length num_pois = length temp ->
  (0 < nth r0 (nth v0 num_pois []) 0)%nat ->
  let sg := Gw.mc_signals temp num_frac sel num_pois nreals loudest in
  length (Gw.loud sg) = Nat.min loudest (length temp)
  /\ (forall row, In row (Gw.loud sg) -> length row = nreals)
  /\ ((0 < loudest)%nat -> nth 0 (Gw.loud sg) [] = fst (fst (Gw.mc_ecc sg)))
  /\ (forall k r, (S k < length (Gw.loud sg))%nat -> (r < nreals)%nat ->
        nth r (nth (S k) (Gw.loud sg) []) 0 <= nth r (nth k (Gw.loud sg) []) 0).
Proof.
  intros Hlen Hn0 sg. unfold sg, Gw.mc_signals.
  rewrite (some_source_drawn _ _ _ Hn0). cbn [Gw.loud Gw.mc_ecc fst snd].
  assert (Hv : (0 < length temp)%nat).
  { rewrite <- Hlen. destruct num_pois; [|simpl; lia].
    destruct v0, r0; simpl in Hn0; lia. }
  split; [rewrite length_map, length_seq; reflexivity|].
  split; [|split].
  - intros row Hin. apply in_map_iff in Hin. destruct Hin as (k & <- & _).
    rewrite length_map, length_seq. reflexivity.
  - intros Hl.
    rewrite (nth_indep _ [] (map (fun r => nth 0%nat
               (Gw.descending temp (Np.col 0%nat r num_pois)) 0) (seq 0 nreals)))
      by (rewrite length_map, length_seq; lia).
    rewrite (map_nth (fun k => map (fun r => nth k
               (Gw.descending temp (Np.col 0%nat r num_pois)) 0) (seq 0 nreals))
               (seq 0 (Nat.min loudest (length temp))) 0%nat 0%nat).
    rewrite seq_nth by lia. reflexivity.
  - intros k r Hk Hr. rewrite length_map, length_seq in Hk.
    rewrite !(nth_map_seq (fun k => map (fun r => nth k
               (Gw.descending temp (Np.col 0%nat r num_pois)) 0) (seq 0 nreals)))
      by lia.
    rewrite !nth_map_seq by exact Hr.
    apply descending_order. rewrite descending_length, col_length, Hlen. lia.
Qed.

Lemma loud_descending_witness :
  let sg := Gw.mc_signals [3; 2] [1; 1] [true; false] [[2]; [1]]%nat 1%nat 5%nat in
  length (Gw.loud sg) = Nat.min 5 (length [3; 2])
  /\ (forall row, In row (Gw.loud sg) -> length row = 1%nat)
  /\ ((0 < 5)%nat -> nth 0 (Gw.loud sg) [] = fst (fst (Gw.mc_ecc sg)))
  /\ (forall k r, (S k < length (Gw.loud sg))%nat -> (r < 1)%nat ->
        nth r (nth (S k) (Gw.loud sg) []) 0 <= nth r (nth k (Gw.loud sg) []) 0).
Proof.
  apply (loud_descending [3; 2] [1; 1] [true; false] [[2]; [1]]%nat 1%nat 5%nat 0%nat 0%nat).
  - reflexivity.
  - simpl. lia.
Defined.
